(** * mev-inspector: the decode-and-detect pipeline

    A shallow embedding of the Go sources of devlongs/mev-inspector
    (swap-log decoders, unified decoder, arbitrage detector and the polling
    driver) together with the properties its specification states.

    Conventions.
    - [uint64], [uint] and [int] values are [Z] with the wrap-around of every
      conversion and operation written out ([u64], [i64]).
    - [*big.Int] values are unbounded [Z]; a possibly nil pointer is an
      [option].
    - [common.Address] ([20]byte) and [common.Hash] ([32]byte) are byte lists.
    - Go maps that are only looked up and stored into are [gmap]s; maps that
      are iterated are association lists in order of first insertion (Go
      leaves the iteration order unspecified; this is one admissible order).
    - The chain node behind the RPC client is an oracle indexed by the
      number of requests issued so far, so that its answers may change over
      time and every request is observable in the state. *)

From Stdlib Require Import ZArith NArith Lia Ascii String List.
From Stdlib.Strings Require Import Byte.
From stdpp Require Import base option list sorting gmap.
Import ListNotations.

#[local] Open Scope Z_scope.

(** ** Machine integers *)

Definition u64 (x : Z) : Z := x mod 2 ^ 64.

(** Conversion to a signed 64-bit [int]/[int64]: the low 64 bits, read in
    two's complement. *)
Definition i64 (x : Z) : Z :=
  let y := x mod 2 ^ 64 in
  if y <? 2 ^ 63 then y else y - 2 ^ 64.

Definition u32 (x : Z) : Z := x mod 2 ^ 32.

(** ** Bytes *)

Definition byteZ (b : byte) : Z := Z.of_N (Byte.to_N b).

(** [new(big.Int).SetBytes(buf)]: big-endian unsigned integer. *)
Definition SetBytes (buf : list byte) : Z :=
  fold_left (fun acc b => acc * 256 + byteZ b) buf 0.

(** The slice expression [buf[lo:hi]] (indices already checked by the
    caller's length guard). *)
Definition slice (buf : list byte) (lo hi : nat) : list byte :=
  take (hi - lo) (drop lo buf).

Definition byteAt (buf : list byte) (i : nat) : byte := nth i buf x00.

Definition Address := list byte.
Definition Hash := list byte.

Definition AddressLength : nat := 20.

(** [common.Address{}]: the zero address. *)
Definition zeroAddress : Address := replicate AddressLength x00.

(** [common.BytesToAddress]: keeps the last 20 bytes, pads on the left. *)
Definition BytesToAddress (b : list byte) : Address :=
  let b' := drop (length b - AddressLength) b in
  replicate (AddressLength - length b') x00 ++ b'.

#[global] Instance byte_eq_dec : EqDecision byte := Byte.byte_eq_dec.

#[global] Instance byte_countable : Countable byte :=
  inj_countable Byte.to_N Byte.of_N Byte.of_to_N.

(** ** The textual form of an address *)

Definition hexDigit (n : N) : ascii :=
  match n with
  | 0 => "0" | 1 => "1" | 2 => "2" | 3 => "3" | 4 => "4" | 5 => "5"
  | 6 => "6" | 7 => "7" | 8 => "8" | 9 => "9" | 10 => "a" | 11 => "b"
  | 12 => "c" | 13 => "d" | 14 => "e" | _ => "f"
  end%N%char.

Definition byteHex (b : byte) : list ascii :=
  [hexDigit (Byte.to_N b / 16); hexDigit (Byte.to_N b mod 16)].

(** Lower-case hexadecimal digits of a byte string, without prefix. *)
Definition hexLower (a : list byte) : list ascii := flat_map byteHex a.

Definition asciiByte (c : ascii) : byte :=
  default x00 (Byte.of_N (N_of_ascii c)).

Section Checksum.
(** Keccak-256 belongs to the go-ethereum library, not to this repository;
    it is a parameter of everything that prints an address. *)
Variable keccak256 : list byte -> list byte.

(** One step of the loop of [Address.checksumHex]: the character at index
    [i] of the 40 digits is upper-cased when it is a letter and the
    matching nibble of the hash exceeds 7. *)
Definition checksumChar (hash : list byte) (i : nat) (c : ascii) : ascii :=
  let hashByte := Byte.to_N (byteAt hash (i / 2)) in
  let nib := if Nat.even i then (hashByte / 16)%N else (hashByte mod 16)%N in
  if ((N_of_ascii "9" <? N_of_ascii c) && (7 <? nib))%N
  then ascii_of_N (N_of_ascii c - 32)
  else c.

(** [Address.Hex]: the EIP-55 mixed-case text. *)
Definition Hex (a : Address) : string :=
  let buf := hexLower a in
  let hash := keccak256 (map asciiByte buf) in
  String "0" (String "x" (string_of_list_ascii (imap (checksumChar hash) buf))).
End Checksum.

(** Go's [<] on strings: byte-wise lexicographic order. *)
Definition stringLess (s t : string) : bool := String.ltb s t.

(** ** Shared types (package [types] and go-ethereum's [Log]) *)

Inductive Protocol := uniswap_v2 | uniswap_v3.

(** [ethtypes.Log], the fields the pipeline reads. *)
Record Log := {
  logAddress : Address;
  logTopics : list Hash;
  logData : list byte;
  logBlockNumber : Z;
  logTxHash : Hash;
  logIndex : Z
}.

Record Swap := {
  TxHash : Hash;
  BlockNumber : Z;
  LogIndex : Z;
  Pool : Address;
  SwapProtocol : Protocol;
  Sender : Address;
  Recipient : Address;
  Token0 : Address;
  Token1 : Address;
  Amount0In : Z;
  Amount1In : Z;
  Amount0Out : Z;
  Amount1Out : Z;
  SqrtPriceX96 : option Z;
  Liquidity : option Z;
  Tick : option Z
}.

Record Arbitrage := {
  arbTxHash : Hash;
  arbBlockNumber : Z;
  Arbitrageur : Address;
  Path : list Swap;
  TokenStart : Address;
  TokenEnd : Address;
  AmountIn : Z;
  AmountOut : Z;
  Profit : Z;
  ProfitToken : Address;
  GasUsed : Z;
  GasPrice : option Z;
  NetProfitWei : option Z
}.

(** ** Errors and outcomes *)

Inductive rpcOp :=
  opBlockNumber | opGetLogs | opReceipt | opTransaction | opCallContract.

(** The error values the sources build with [fmt.Errorf]; [Wrapped] is the
    [%w] wrapping of an inner error under a context message. *)
Inductive error :=
| RetriesExhausted (op : rpcOp) (attempts : Z)
| InvalidResponse (what : string)
| InvalidTopics (got : nat)
| NotSwapEvent (p : Protocol)
| InvalidDataLength (expected got : nat)
| Wrapped (context : string) (inner : error).

(** A call returns a value, returns an error, panics (the only run-time
    panic the modelled code can reach is an integer division by zero), or
    never returns (the only loop of the modelled code that can fail to end
    is the completion loop of [processBlockRange]). *)
Inductive Res (A : Type) :=
| Ok (a : A)
| Err (e : error)
| Panic
| NeverReturns.
Arguments Ok {A} a.
Arguments Err {A} e.
Arguments Panic {A}.
Arguments NeverReturns {A}.

Definition isErr {A} (r : Res A) : bool :=
  match r with Err _ => true | _ => false end.

(** ** The chain node and the configuration *)

Inductive Request :=
| ReqBlockNumber
| ReqFilterLogs (fromBlock toBlock : Z) (topic : Hash)
| ReqCallContract (to : Address) (data : list byte)
| ReqReceipt (tx : Hash)
| ReqTransaction (tx : Hash).

(** What the node answers to the request issued when [time] requests have
    gone out before it; [None] is a transport error. *)
Record Node := {
  nodeBlockNumber : nat -> option Z;
  nodeFilterLogs : nat -> Z -> Z -> Hash -> option (list Log);
  nodeCallContract : nat -> Address -> list byte -> option (list byte);
  nodeReceipt : nat -> Hash -> option Z;
  nodeTransaction : nat -> Hash -> option Z
}.

(** The configuration values the pipeline consumes. *)
Record Config := {
  RetryAttempts : Z;
  BatchSize : Z;
  StartBlock : Z;
  EnableUniswapV2 : bool;
  EnableUniswapV3 : bool
}.

Record Env := {
  node : Node;
  cfg : Config;
  keccak256 : list byte -> list byte
}.

Module v2types.
(** [uniswapv2.PoolInfo]; the reserves are never filled in. *)
Record PoolInfo := {
  Token0 : Address;
  Token1 : Address;
  Reserve0 : option Z;
  Reserve1 : option Z
}.
End v2types.

Module v3types.
(** [uniswapv3.PoolInfo]. *)
Record PoolInfo := {
  Token0 : Address;
  Token1 : Address;
  Fee : Z
}.
End v3types.

(** ** Program state

    [requests] lists every request sent to the node, newest first; the two
    pool caches belong to the two protocol decoders; [lastBlock] is the
    driver's watermark; [reported] collects the findings handed to the
    output logger, newest first. *)
Record State := {
  requests : list Request;
  v2Cache : gmap Address v2types.PoolInfo;
  v3Cache : gmap Address v3types.PoolInfo;
  lastBlock : Z;
  reported : list Arbitrage
}.

Definition now (st : State) : nat := length (requests st).

Definition send (r : Request) (st : State) : State :=
  {| requests := r :: requests st; v2Cache := v2Cache st;
     v3Cache := v3Cache st; lastBlock := lastBlock st;
     reported := reported st |}.

Definition setV2Cache (c : gmap Address v2types.PoolInfo) (st : State) : State :=
  {| requests := requests st; v2Cache := c; v3Cache := v3Cache st;
     lastBlock := lastBlock st; reported := reported st |}.

Definition setV3Cache (c : gmap Address v3types.PoolInfo) (st : State) : State :=
  {| requests := requests st; v2Cache := v2Cache st; v3Cache := c;
     lastBlock := lastBlock st; reported := reported st |}.

Definition setLastBlock (b : Z) (st : State) : State :=
  {| requests := requests st; v2Cache := v2Cache st; v3Cache := v3Cache st;
     lastBlock := b; reported := reported st |}.

Definition report (a : Arbitrage) (st : State) : State :=
  {| requests := requests st; v2Cache := v2Cache st; v3Cache := v3Cache st;
     lastBlock := lastBlock st; reported := a :: reported st |}.

(** ** The state-and-error monad of the pipeline *)

Definition M (A : Type) : Type := State -> Res A * State.

Definition ret {A} (a : A) : M A := fun st => (Ok a, st).

Definition fail {A} (e : error) : M A := fun st => (Err e, st).

Definition bind {A B} (m : M A) (k : A -> M B) : M B :=
  fun st =>
    match m st with
    | (Ok a, st') => k a st'
    | (Err e, st') => (Err e, st')
    | (Panic, st') => (Panic, st')
    | (NeverReturns, st') => (NeverReturns, st')
    end.

(** [if err != nil { return ..., fmt.Errorf("ctx: %w", err) }]. *)
Definition wrapErr {A} (context : string) (m : M A) : M A :=
  fun st =>
    match m st with
    | (Err e, st') => (Err (Wrapped context e), st')
    | r => r
    end.

Declare Scope pipeline_scope.
Delimit Scope pipeline_scope with pipeline.
Notation "x <- m ;; k" := (bind m (fun x => k))
  (at level 100, m at next level, right associativity) : pipeline_scope.
#[local] Open Scope pipeline_scope.

(** ** Package [eth]: the RPC client with its retry loops *)

Module eth.
Section Client.
Variable env : Env.

(** The loop [for i := 0; i < RetryAttempts; i++]: every attempt sends the
    request; the first answer without error is returned. *)
Fixpoint retry {A} (attempts : nat) (req : Request)
    (answer : nat -> option A) (st : State) : option A * State :=
  match attempts with
  | O => (None, st)
  | S k =>
      match answer (now st) with
      | Some a => (Some a, send req st)
      | None => retry k req answer (send req st)
      end
  end.

Definition withRetry {A} (op : rpcOp) (req : Request)
    (answer : nat -> option A) : M A :=
  fun st =>
    match retry (Z.to_nat (RetryAttempts (cfg env))) req answer st with
    | (Some a, st') => (Ok a, st')
    | (None, st') => (Err (RetriesExhausted op (RetryAttempts (cfg env))), st')
    end.

Definition BlockNumber : M Z :=
  withRetry opBlockNumber ReqBlockNumber
    (fun t => u64 <$> nodeBlockNumber (node env) t).

Definition GetLogs (fromBlock toBlock : Z) (topic : Hash) : M (list Log) :=
  withRetry opGetLogs (ReqFilterLogs fromBlock toBlock topic)
    (fun t => nodeFilterLogs (node env) t fromBlock toBlock topic).

(** Returns the receipt's [GasUsed], a [uint64]. *)
Definition TransactionReceipt (txHash : Hash) : M Z :=
  withRetry opReceipt (ReqReceipt txHash)
    (fun t => u64 <$> nodeReceipt (node env) t txHash).

(** Returns the transaction's [GasPrice()]. *)
Definition GetTransaction (txHash : Hash) : M Z :=
  withRetry opTransaction (ReqTransaction txHash)
    (fun t => nodeTransaction (node env) t txHash).

Definition CallContract (to : Address) (data : list byte) : M (list byte) :=
  withRetry opCallContract (ReqCallContract to data)
    (fun t => nodeCallContract (node env) t to data).
End Client.
End eth.

(** Selectors shared by both pool families. *)
Definition selToken0 : list byte := [x0d; xfe; x16; x81].
Definition selToken1 : list byte := [xd2; x12; x20; xa7].
Definition selFee : list byte := [xdd; xca; x3f; x43].

(** [common.HexToAddress(topic.Hex())]: the hexadecimal text of the hash is
    parsed back to its bytes, of which the address keeps the last 20. *)
Definition topicAddress (topic : Hash) : Address := BytesToAddress topic.

Definition topicAt (log : Log) (i : nat) : Hash := nth i (logTopics log) [].

(** ** Package [uniswapv2] *)

Module uniswapv2.
Definition SwapEventSignature : Hash :=
  [xd7; x8a; xd9; x5f; xa4; x6c; x99; x4b; x65; x51; xd0; xda; x85; xfc;
   x27; x5f; xe6; x13; xce; x37; x65; x7f; xb8; xd5; xe3; xd1; x30; x84;
   x01; x59; xd8; x22].

Section Decoder.
Variable env : Env.

Definition GetSwapLogs (fromBlock toBlock : Z) : M (list Log) :=
  eth.GetLogs env (i64 fromBlock) (i64 toBlock) SwapEventSignature.

Definition callToken0 (poolAddress : Address) : M Address :=
  result <- eth.CallContract env poolAddress selToken0 ;;
  if (length result <? 32)%nat then fail (InvalidResponse "token0")
  else ret (BytesToAddress (slice result 12 32)).

Definition callToken1 (poolAddress : Address) : M Address :=
  result <- eth.CallContract env poolAddress selToken1 ;;
  if (length result <? 32)%nat then fail (InvalidResponse "token1")
  else ret (BytesToAddress (slice result 12 32)).

Definition getPoolInfo (poolAddress : Address) : M v2types.PoolInfo :=
  fun st =>
    match v2Cache st !! poolAddress with
    | Some info => (Ok info, st)
    | None =>
        (token0 <- wrapErr "failed to get token0" (callToken0 poolAddress) ;;
         token1 <- wrapErr "failed to get token1" (callToken1 poolAddress) ;;
         let info := {| v2types.Token0 := token0; v2types.Token1 := token1;
                        v2types.Reserve0 := None; v2types.Reserve1 := None |} in
         fun st' =>
           (Ok info, setV2Cache (<[poolAddress := info]> (v2Cache st')) st')) st
    end.

Definition DecodeSwapLog (log : Log) : M Swap :=
  if (length (logTopics log) <? 3)%nat
  then fail (InvalidTopics (length (logTopics log)))
  else if negb (bool_decide (topicAt log 0 = SwapEventSignature))
  then fail (NotSwapEvent uniswap_v2)
  else
    let sender := topicAddress (topicAt log 1) in
    let recipient := topicAddress (topicAt log 2) in
    if (length (logData log) <? 128)%nat
    then fail (InvalidDataLength 128 (length (logData log)))
    else
      let amount0In := SetBytes (slice (logData log) 0 32) in
      let amount1In := SetBytes (slice (logData log) 32 64) in
      let amount0Out := SetBytes (slice (logData log) 64 96) in
      let amount1Out := SetBytes (slice (logData log) 96 128) in
      poolInfo <- wrapErr "failed to get pool info"
                    (getPoolInfo (logAddress log)) ;;
      ret {| TxHash := logTxHash log;
             BlockNumber := logBlockNumber log;
             LogIndex := logIndex log;
             Pool := logAddress log;
             SwapProtocol := uniswap_v2;
             Sender := sender;
             Recipient := recipient;
             Token0 := v2types.Token0 poolInfo;
             Token1 := v2types.Token1 poolInfo;
             Amount0In := amount0In;
             Amount1In := amount1In;
             Amount0Out := amount0Out;
             Amount1Out := amount1Out;
             SqrtPriceX96 := None;
             Liquidity := None;
             Tick := None |}.
End Decoder.
End uniswapv2.

(** ** Package [uniswapv3] *)

Module uniswapv3.
Definition SwapEventSignature : Hash :=
  [xc4; x20; x79; xf9; x4a; x63; x50; xd7; xe6; x23; x5f; x29; x17; x49;
   x24; xf9; x28; xcc; x2a; xc8; x18; xeb; x64; xfe; xd8; x00; x4e; x11;
   x5f; xbc; xca; x67].

(** The code's reading of a signed 256-bit word: [SetBytes], then
    [Sub(.., 1 << 256)] when the top bit of the first byte is set. *)
Definition signedWord (word : list byte) : Z :=
  let v := SetBytes word in
  if negb (Z.land (byteZ (byteAt word 0)) 128 =? 0) then v - 2 ^ 256 else v.

Section Decoder.
Variable env : Env.

Definition GetSwapLogs (fromBlock toBlock : Z) : M (list Log) :=
  eth.GetLogs env (i64 fromBlock) (i64 toBlock) SwapEventSignature.

Definition callToken0 (poolAddress : Address) : M Address :=
  result <- eth.CallContract env poolAddress selToken0 ;;
  if (length result <? 32)%nat then fail (InvalidResponse "token0")
  else ret (BytesToAddress (slice result 12 32)).

Definition callToken1 (poolAddress : Address) : M Address :=
  result <- eth.CallContract env poolAddress selToken1 ;;
  if (length result <? 32)%nat then fail (InvalidResponse "token1")
  else ret (BytesToAddress (slice result 12 32)).

(** [uint32(fee.Uint64())] of the whole response read as an integer. *)
Definition callFee (poolAddress : Address) : M Z :=
  result <- eth.CallContract env poolAddress selFee ;;
  if (length result <? 32)%nat then fail (InvalidResponse "fee")
  else ret (u32 (u64 (SetBytes result))).

Definition getPoolInfo (poolAddress : Address) : M v3types.PoolInfo :=
  fun st =>
    match v3Cache st !! poolAddress with
    | Some info => (Ok info, st)
    | None =>
        (token0 <- wrapErr "failed to get token0" (callToken0 poolAddress) ;;
         token1 <- wrapErr "failed to get token1" (callToken1 poolAddress) ;;
         fee <- wrapErr "failed to get fee" (callFee poolAddress) ;;
         let info := {| v3types.Token0 := token0; v3types.Token1 := token1;
                        v3types.Fee := fee |} in
         fun st' =>
           (Ok info, setV3Cache (<[poolAddress := info]> (v3Cache st')) st')) st
    end.

Definition DecodeSwapLog (log : Log) : M Swap :=
  if (length (logTopics log) <? 3)%nat
  then fail (InvalidTopics (length (logTopics log)))
  else if negb (bool_decide (topicAt log 0 = SwapEventSignature))
  then fail (NotSwapEvent uniswap_v3)
  else
    let sender := topicAddress (topicAt log 1) in
    let recipient := topicAddress (topicAt log 2) in
    if (length (logData log) <? 160)%nat
    then fail (InvalidDataLength 160 (length (logData log)))
    else
      let amount0 := signedWord (slice (logData log) 0 32) in
      let amount1 := signedWord (slice (logData log) 32 64) in
      let sqrtPriceX96 := SetBytes (slice (logData log) 64 96) in
      let liquidity := SetBytes (slice (logData log) 96 128) in
      let tick := signedWord (slice (logData log) 128 160) in
      poolInfo <- wrapErr "failed to get pool info"
                    (getPoolInfo (logAddress log)) ;;
      let '(amount0In, amount0Out) :=
        if 0 <? amount0 then (amount0, 0) else (0, - amount0) in
      let '(amount1In, amount1Out) :=
        if 0 <? amount1 then (amount1, 0) else (0, - amount1) in
      ret {| TxHash := logTxHash log;
             BlockNumber := logBlockNumber log;
             LogIndex := logIndex log;
             Pool := logAddress log;
             SwapProtocol := uniswap_v3;
             Sender := sender;
             Recipient := recipient;
             Token0 := v3types.Token0 poolInfo;
             Token1 := v3types.Token1 poolInfo;
             Amount0In := amount0In;
             Amount1In := amount1In;
             Amount0Out := amount0Out;
             Amount1Out := amount1Out;
             SqrtPriceX96 := Some sqrtPriceX96;
             Liquidity := Some liquidity;
             Tick := Some tick |}.
End Decoder.
End uniswapv3.

(** ** Slices and iterated maps *)

(** Insertion into a list already ordered by [less], after every element
    that is not greater. *)
Fixpoint insertSorted {A} (less : A -> A -> bool) (x : A) (l : list A) : list A :=
  match l with
  | [] => [x]
  | y :: l' => if less x y then x :: y :: l' else y :: insertSorted less x l'
  end.

(** [sort.Slice(s, less)]. Go's sort is not stable; this one keeps elements
    that [less] does not separate in their order of arrival, which is one of
    the results Go may produce (the only one when the keys are distinct). *)
Definition sortSlice {A} (less : A -> A -> bool) (s : list A) : list A :=
  fold_left (fun sorted x => insertSorted less x sorted) s [].

(** [m[k] = append(m[k], v)] on a map kept as an association list. *)
Fixpoint groupAppend {K V} `{EqDecision K} (k : K) (v : V)
    (groups : list (K * list V)) : list (K * list V) :=
  match groups with
  | [] => [(k, [v])]
  | (k', vs) :: rest =>
      if decide (k = k') then (k', vs ++ [v]) :: rest
      else (k', vs) :: groupAppend k v rest
  end.

(** ** Package [decoder]: the unified decoder *)

Module decoder.
Section Decoder.
Variable env : Env.

Definition logLess (a b : Log) : bool :=
  if negb (logBlockNumber a =? logBlockNumber b)
  then logBlockNumber a <? logBlockNumber b
  else logIndex a <? logIndex b.

(** A failed fetch is logged as a warning and its protocol contributes no
    logs; the function itself always returns a nil error. *)
Definition GetAllSwapLogs (fromBlock toBlock : Z) : M (list Log) :=
  fun st =>
    let '(allLogs, st1) :=
      if EnableUniswapV2 (cfg env) then
        match uniswapv2.GetSwapLogs env fromBlock toBlock st with
        | (Ok v2Logs, st') => (v2Logs, st')
        | (_, st') => ([], st')
        end
      else ([], st) in
    let '(allLogs, st2) :=
      if EnableUniswapV3 (cfg env) then
        match uniswapv3.GetSwapLogs env fromBlock toBlock st1 with
        | (Ok v3Logs, st') => (allLogs ++ v3Logs, st')
        | (_, st') => (allLogs, st')
        end
      else (allLogs, st1) in
    (Ok (sortSlice logLess allLogs), st2).

Definition DecodeSwapLog (log : Log) : M (option Swap) :=
  match logTopics log with
  | [] => ret None
  | topic0 :: _ =>
      if bool_decide (topic0 = uniswapv2.SwapEventSignature) then
        if EnableUniswapV2 (cfg env)
        then swap <- uniswapv2.DecodeSwapLog env log ;; ret (Some swap)
        else ret None
      else if bool_decide (topic0 = uniswapv3.SwapEventSignature) then
        if EnableUniswapV3 (cfg env)
        then swap <- uniswapv3.DecodeSwapLog env log ;; ret (Some swap)
        else ret None
      else ret None
  end.

Definition GroupSwapsByTransaction (logs : list Log) : list (Hash * list Log) :=
  fold_left (fun groups log => groupAppend (logTxHash log) log groups) logs [].

(** The decoding loop: a log whose decoding fails is skipped. *)
Fixpoint decodeEach (logs : list Log) (swaps : list Swap) : M (list Swap) :=
  fun st =>
    match logs with
    | [] => (Ok swaps, st)
    | log :: rest =>
        match DecodeSwapLog log st with
        | (Ok (Some swap), st') => decodeEach rest (swaps ++ [swap]) st'
        | (Ok None, st') => decodeEach rest swaps st'
        | (Err _, st') => decodeEach rest swaps st'
        | (Panic, st') => (Panic, st')
        | (NeverReturns, st') => (NeverReturns, st')
        end
    end.

Definition swapLess (a b : Swap) : bool := LogIndex a <? LogIndex b.

Definition DecodeSwapsForTransaction (logs : list Log) : M (list Swap) :=
  swaps <- decodeEach logs [] ;;
  ret (sortSlice swapLess swaps).
End Decoder.
End decoder.

(** ** Package [arbitrage]: the detector *)

Module arbitrage.

(** WETH on mainnet, 0xC02aaA39b223FE8D0A0e5C4F27eAD9083C756Cc2. *)
Definition WETH : Address :=
  [xc0; x2a; xaa; x39; xb2; x23; xfe; x8d; x0a; x0e; x5c; x4f; x27; xea;
   xd9; x08; x3c; x75; x6c; xc2].

(** The local struct [tokenFlow]; an amount not assigned stays nil. *)
Record tokenFlow := {
  tokenIn : Address;
  tokenOut : Address;
  amountIn : option Z;
  amountOut : option Z
}.

(** The flow the loop body of [detectCyclicArbitrage] derives from one
    swap. *)
Definition flowOf (swap : Swap) : tokenFlow :=
  if (0 <? Amount0In swap) && (0 <? Amount1Out swap) then
    {| tokenIn := Token0 swap; tokenOut := Token1 swap;
       amountIn := Some (Amount0In swap); amountOut := Some (Amount1Out swap) |}
  else if (0 <? Amount1In swap) && (0 <? Amount0Out swap) then
    {| tokenIn := Token1 swap; tokenOut := Token0 swap;
       amountIn := Some (Amount1In swap); amountOut := Some (Amount0Out swap) |}
  else
    let '(tIn, aIn) :=
      if 0 <? Amount0In swap then (Token0 swap, Some (Amount0In swap))
      else if 0 <? Amount1In swap then (Token1 swap, Some (Amount1In swap))
      else (zeroAddress, None) in
    let '(tOut, aOut) :=
      if 0 <? Amount0Out swap then (Token0 swap, Some (Amount0Out swap))
      else if 0 <? Amount1Out swap then (Token1 swap, Some (Amount1Out swap))
      else (zeroAddress, None) in
    {| tokenIn := tIn; tokenOut := tOut; amountIn := aIn; amountOut := aOut |}.

Definition resolved (flow : tokenFlow) : bool :=
  negb (bool_decide (tokenIn flow = zeroAddress))
  && negb (bool_decide (tokenOut flow = zeroAddress)).

Fixpoint buildFlows (swaps : list Swap) : list tokenFlow :=
  match swaps with
  | [] => []
  | swap :: rest =>
      if resolved (flowOf swap) then flowOf swap :: buildFlows rest
      else buildFlows rest
  end.

(** The connectivity loop over consecutive flows. *)
Fixpoint connected (flows : list tokenFlow) : bool :=
  match flows with
  | f :: rest =>
      match rest with
      | g :: _ => bool_decide (tokenOut f = tokenIn g) && connected rest
      | [] => true
      end
  | [] => true
  end.

Definition detectCyclicArbitrage (swaps : list Swap) : option Arbitrage :=
  if (length swaps <? 2)%nat then None
  else
    let flows := buildFlows swaps in
    if (length flows <? 2)%nat then None
    else
      match head swaps, head flows, last flows with
      | Some swap0, Some first, Some final =>
          let firstToken := tokenIn first in
          let lastToken := tokenOut final in
          if negb (bool_decide (firstToken = lastToken)) then None
          else if negb (connected flows) then None
          else
            match amountIn first, amountOut final with
            | Some amountIn, Some amountOut =>
                if amountOut <=? amountIn then None
                else
                  Some {| arbTxHash := TxHash swap0;
                          arbBlockNumber := BlockNumber swap0;
                          Arbitrageur := Sender swap0;
                          Path := swaps;
                          TokenStart := firstToken;
                          TokenEnd := lastToken;
                          AmountIn := amountIn;
                          AmountOut := amountOut;
                          Profit := amountOut - amountIn;
                          ProfitToken := firstToken;
                          GasUsed := 0;
                          GasPrice := None;
                          NetProfitWei := None |}
            | _, _ => None
            end
      | _, _, _ => None
      end.

Definition pairKey : Type := Address * Address.

Definition isBuyLeg (swap : Swap) : bool :=
  (bool_decide (Token0 swap = WETH) && (0 <? Amount0In swap))
  || (bool_decide (Token1 swap = WETH) && (0 <? Amount1In swap)).

Definition involvesWETH (swap : Swap) : bool :=
  bool_decide (Token0 swap = WETH) || bool_decide (Token1 swap = WETH).

(** The loop that keeps the first buy leg and the first sell leg. *)
Fixpoint selectLegs (swapsForPair : list Swap) (buySwap sellSwap : option Swap)
    : option Swap * option Swap :=
  match swapsForPair with
  | [] => (buySwap, sellSwap)
  | swap :: rest =>
      if involvesWETH swap then
        if isBuyLeg swap then
          selectLegs rest (if buySwap is None then Some swap else buySwap) sellSwap
        else
          selectLegs rest buySwap (if sellSwap is None then Some swap else sellSwap)
      else selectLegs rest buySwap sellSwap
  end.

Definition wethSpent (buySwap : Swap) : Z :=
  if bool_decide (Token0 buySwap = WETH) then Amount0In buySwap
  else Amount1In buySwap.

Definition wethReceived (sellSwap : Swap) : Z :=
  if bool_decide (Token0 sellSwap = WETH) then Amount0Out sellSwap
  else Amount1Out sellSwap.

(** The set of pool addresses of a group ([map[common.Address]bool]). *)
Definition poolsOf (swapsForPair : list Swap) : gset Address :=
  list_to_set (Pool <$> swapsForPair).

(** The body of the loop over the groups of [detectCrossDEXArbitrage]. *)
Definition groupArbitrage (swapsForPair : list Swap) : option Arbitrage :=
  if (length swapsForPair <? 2)%nat then None
  else if (size (poolsOf swapsForPair) <? 2)%nat then None
  else
    match selectLegs swapsForPair None None with
    | (Some buySwap, Some sellSwap) =>
        if bool_decide (Pool buySwap = Pool sellSwap) then None
        else
          let wethIn := wethSpent buySwap in
          let wethOut := wethReceived sellSwap in
          if wethIn <? wethOut then
            Some {| arbTxHash := TxHash buySwap;
                    arbBlockNumber := BlockNumber buySwap;
                    Arbitrageur := Sender buySwap;
                    Path := [buySwap; sellSwap];
                    TokenStart := WETH;
                    TokenEnd := WETH;
                    AmountIn := wethIn;
                    AmountOut := wethOut;
                    Profit := wethOut - wethIn;
                    ProfitToken := WETH;
                    GasUsed := 0;
                    GasPrice := None;
                    NetProfitWei := None |}
          else None
    | _ => None
    end.

Definition IsProfitable (arb : Arbitrage) : bool :=
  match NetProfitWei arb with
  | None => 0 <? Profit arb
  | Some net => 0 <? net
  end.

Section Detector.
Variable env : Env.

(** The normalised pair of a swap: the token whose [Hex()] text is
    smaller comes first. *)
Definition keyOf (token0 token1 : Address) : pairKey :=
  if stringLess (Hex (keccak256 env) token0) (Hex (keccak256 env) token1)
  then (token0, token1)
  else (token1, token0).

Definition pairSwaps (swaps : list Swap) : list (pairKey * list Swap) :=
  fold_left
    (fun groups swap => groupAppend (keyOf (Token0 swap) (Token1 swap)) swap groups)
    swaps [].

Definition detectCrossDEXArbitrage (swaps : list Swap) : list Arbitrage :=
  omap (fun group => groupArbitrage group.2) (pairSwaps swaps).

(** The gas block that follows each detection: the receipt, then the
    transaction; the net profit is set only when both arrive. *)
Definition withGas (txHash : Hash) (arb : Arbitrage) : M Arbitrage :=
  fun st =>
    match eth.TransactionReceipt env txHash st with
    | (Ok gasUsed, st1) =>
        match eth.GetTransaction env txHash st1 with
        | (Ok gasPrice, st2) =>
            let gasCost := i64 gasUsed * gasPrice in
            (Ok {| arbTxHash := arbTxHash arb;
                   arbBlockNumber := arbBlockNumber arb;
                   Arbitrageur := Arbitrageur arb;
                   Path := Path arb;
                   TokenStart := TokenStart arb;
                   TokenEnd := TokenEnd arb;
                   AmountIn := AmountIn arb;
                   AmountOut := AmountOut arb;
                   Profit := Profit arb;
                   ProfitToken := ProfitToken arb;
                   GasUsed := gasUsed;
                   GasPrice := Some gasPrice;
                   NetProfitWei := Some (Profit arb - gasCost) |}, st2)
        | (_, st2) =>
            (Ok {| arbTxHash := arbTxHash arb;
                   arbBlockNumber := arbBlockNumber arb;
                   Arbitrageur := Arbitrageur arb;
                   Path := Path arb;
                   TokenStart := TokenStart arb;
                   TokenEnd := TokenEnd arb;
                   AmountIn := AmountIn arb;
                   AmountOut := AmountOut arb;
                   Profit := Profit arb;
                   ProfitToken := ProfitToken arb;
                   GasUsed := gasUsed;
                   GasPrice := GasPrice arb;
                   NetProfitWei := NetProfitWei arb |}, st2)
        end
    | (_, st1) => (Ok arb, st1)
    end.

Fixpoint withGasEach (txHash : Hash) (arbs : list Arbitrage) : M (list Arbitrage) :=
  match arbs with
  | [] => ret []
  | arb :: rest =>
      arb' <- withGas txHash arb ;;
      rest' <- withGasEach txHash rest ;;
      ret (arb' :: rest')
  end.

Definition DetectArbitrage (txHash : Hash) (swaps : list Swap) : M (list Arbitrage) :=
  if (length swaps <? 2)%nat then ret []
  else
    let swaps := sortSlice decoder.swapLess swaps in
    cyclic <- match detectCyclicArbitrage swaps with
              | Some cyclicArb => arb <- withGas txHash cyclicArb ;; ret [arb]
              | None => ret []
              end ;;
    crossDex <- withGasEach txHash (detectCrossDEXArbitrage swaps) ;;
    ret (cyclic ++ crossDex).
End Detector.
End arbitrage.

(** ** The driver ([cmd/inspector]) *)

Module inspector.
Section Inspector.
Variable env : Env.

Fixpoint reportEach (arbs : list Arbitrage) : M unit :=
  match arbs with
  | [] => ret tt
  | arb :: rest => fun st => reportEach rest (report arb st)
  end.

(** The loop over the transactions of a range; it returns the two
    counters [totalSwaps] and [totalArbitrages]. A transaction whose
    decoding or detection returns an error is skipped. *)
Fixpoint processTransactions (txLogs : list (Hash * list Log))
    (totalSwaps totalArbitrages : Z) : M (Z * Z) :=
  fun st =>
    match txLogs with
    | [] => (Ok (totalSwaps, totalArbitrages), st)
    | (txHash, txSwapLogs) :: rest =>
        match decoder.DecodeSwapsForTransaction env txSwapLogs st with
        | (Ok swaps, st1) =>
            let totalSwaps := totalSwaps + Z.of_nat (length swaps) in
            match arbitrage.DetectArbitrage env txHash swaps st1 with
            | (Ok arbitrages, st2) =>
                match reportEach arbitrages st2 with
                | (_, st3) =>
                    processTransactions rest totalSwaps
                      (totalArbitrages + Z.of_nat (length arbitrages)) st3
                end
            | (Err _, st2) => processTransactions rest totalSwaps totalArbitrages st2
            | (Panic, st2) => (Panic, st2)
            | (NeverReturns, st2) => (NeverReturns, st2)
            end
        | (Err _, st1) => processTransactions rest totalSwaps totalArbitrages st1
        | (Panic, st1) => (Panic, st1)
        | (NeverReturns, st1) => (NeverReturns, st1)
        end
    end.

(** The loop [for block := fromBlock; block <= toBlock; block++] that
    writes one completion record per block. The records and the statistics
    go to the logger only (see [output.completeBlocks]); what matters to
    the driver is whether the loop ends: with [toBlock] at the largest
    [uint64] its condition always holds, the counter wraps, and the loop
    never ends. *)
Definition completeEach (fromBlock toBlock : Z) : M unit :=
  fun st =>
    if toBlock <? fromBlock then (Ok tt, st)
    else if toBlock =? 2 ^ 64 - 1 then (NeverReturns, st)
    else (Ok tt, st).

(** The closing block divides by [int(blocksProcessed)], which panics on
    zero, and then runs the completion loop. *)
Definition processBlockRange (fromBlock toBlock : Z) : M unit :=
  logs <- decoder.GetAllSwapLogs env fromBlock toBlock ;;
  if (length logs =? 0)%nat then completeEach fromBlock toBlock
  else
    totals <- processTransactions (decoder.GroupSwapsByTransaction logs) 0 0 ;;
    let blocksProcessed := u64 (toBlock - fromBlock + 1) in
    if i64 blocksProcessed =? 0 then (fun st => (Panic, st))
    else completeEach fromBlock toBlock.

(** The range a poll tick selects from the watermark, the chain head and
    the configured batch size; [None] when there is no new block. *)
Definition selectRange (lastBlock currentBlock : Z) : option (Z * Z) :=
  let fromBlock := u64 (lastBlock + 1) in
  if currentBlock <? fromBlock then None
  else
    let toBlock :=
      if u64 (BatchSize (cfg env)) <? u64 (currentBlock - fromBlock)
      then u64 (u64 (fromBlock + u64 (BatchSize (cfg env))) - 1)
      else currentBlock in
    Some (fromBlock, toBlock).

Definition processNewBlocks : M unit :=
  currentBlock <- eth.BlockNumber env ;;
  fun st =>
    match selectRange (lastBlock st) currentBlock with
    | None => (Ok tt, st)
    | Some (fromBlock, toBlock) =>
        match processBlockRange fromBlock toBlock st with
        | (Ok _, st') => (Ok tt, setLastBlock toBlock st')
        | r => r
        end
    end.

(** The initialisation at the head of [Start]. *)
Definition initialize : M unit :=
  currentBlock <- eth.BlockNumber env ;;
  fun st =>
    (Ok tt,
     setLastBlock
       (if 0 <? StartBlock (cfg env) then u64 (StartBlock (cfg env) - 1)
        else u64 (currentBlock - 1)) st).

(** The loop of [ProcessSingleBlock]: findings are collected, not
    reported. *)
Fixpoint collectTransactions (txLogs : list (Hash * list Log))
    (allArbitrages : list Arbitrage) : M (list Arbitrage) :=
  fun st =>
    match txLogs with
    | [] => (Ok allArbitrages, st)
    | (txHash, txSwapLogs) :: rest =>
        match decoder.DecodeSwapsForTransaction env txSwapLogs st with
        | (Ok swaps, st1) =>
            match arbitrage.DetectArbitrage env txHash swaps st1 with
            | (Ok arbitrages, st2) =>
                collectTransactions rest (allArbitrages ++ arbitrages) st2
            | (Err _, st2) => collectTransactions rest allArbitrages st2
            | (Panic, st2) => (Panic, st2)
            | (NeverReturns, st2) => (NeverReturns, st2)
            end
        | (Err _, st1) => collectTransactions rest allArbitrages st1
        | (Panic, st1) => (Panic, st1)
        | (NeverReturns, st1) => (NeverReturns, st1)
        end
    end.

Definition ProcessSingleBlock (blockNumber : Z) : M (list Arbitrage) :=
  logs <- decoder.GetAllSwapLogs env blockNumber blockNumber ;;
  collectTransactions (decoder.GroupSwapsByTransaction logs) [].
End Inspector.
End inspector.

(** ** Package [output]: the statistics of the logger *)

Module output.

(** [output.Stats] without its start time. *)
Record Stats := {
  BlocksProcessed : Z;
  SwapsDetected : Z;
  ArbitragesFound : Z;
  TotalProfitWei : Z;
  TotalNetProfit : Z
}.

(** The counters [LogBlockComplete] updates; what it prints is left out. *)
Definition LogBlockComplete (swaps arbs : Z) (stats : Stats) : Stats :=
  {| BlocksProcessed := u64 (BlocksProcessed stats + 1);
     SwapsDetected := u64 (SwapsDetected stats + u64 swaps);
     ArbitragesFound := u64 (ArbitragesFound stats + u64 arbs);
     TotalProfitWei := TotalProfitWei stats;
     TotalNetProfit := TotalNetProfit stats |}.

(** The totals [LogArbitrage] updates. *)
Definition LogArbitrage (arb : Arbitrage) (stats : Stats) : Stats :=
  {| BlocksProcessed := BlocksProcessed stats;
     SwapsDetected := SwapsDetected stats;
     ArbitragesFound := ArbitragesFound stats;
     TotalProfitWei := TotalProfitWei stats + Profit arb;
     TotalNetProfit :=
       match NetProfitWei arb with
       | Some net => TotalNetProfit stats + net
       | None => TotalNetProfit stats
       end |}.

(** The logger's side of the loop over the findings of a transaction in
    [processBlockRange]. *)
Definition logEach (arbs : list Arbitrage) (stats : Stats) : Stats :=
  foldl (fun stats arb => LogArbitrage arb stats) stats arbs.

(** How the closing block of [processBlockRange] can end. *)
Inductive Closing :=
| Finished (stats : Stats)
| DividesByZero
| NeverEnds.

(** The loop [for block := fromBlock; block <= toBlock; block++] around
    [LogBlockComplete]: with [toBlock] at the largest [uint64] the counter
    wraps and the loop never ends. *)
Definition completeBlocks (fromBlock toBlock swaps arbs : Z) (stats : Stats) : Closing :=
  if toBlock <? fromBlock then Finished stats
  else if toBlock =? 2 ^ 64 - 1 then NeverEnds
  else Finished (Nat.iter (Z.to_nat (toBlock - fromBlock + 1))
                   (LogBlockComplete swaps arbs) stats).

(** The closing block of [processBlockRange] for a range with logs: the
    per-block averages by integer division, then one completion record per
    block. *)
Definition closeRange (fromBlock toBlock totalSwaps totalArbitrages : Z)
    (stats : Stats) : Closing :=
  let blocksProcessed := u64 (toBlock - fromBlock + 1) in
  if i64 blocksProcessed =? 0 then DividesByZero
  else
    let avgSwapsPerBlock := i64 (Z.quot totalSwaps (i64 blocksProcessed)) in
    let avgArbsPerBlock := i64 (Z.quot totalArbitrages (i64 blocksProcessed)) in
    completeBlocks fromBlock toBlock avgSwapsPerBlock avgArbsPerBlock stats.

End output.

(** ** The two's-complement reading, as the specification words it *)

(** A [w]-bit unsigned word denotes a negative number when its top bit is
    set, by subtracting the modulus. *)
Definition twosComplement (w : Z) (u : Z) : Z :=
  if 2 ^ (w - 1) <=? u then u - 2 ^ w else u.

(** ** Reading hexadecimal text back *)

(** The value of a hexadecimal digit of either case. *)
Definition unhexDigit (c : ascii) : N :=
  let n := N_of_ascii c in
  if (n <? 58)%N then (n - 48)%N
  else if (n <? 71)%N then (n - 55)%N
  else (n - 87)%N.

(** The two nibbles of every byte, high nibble first. *)
Definition nibbles (a : list byte) : list N :=
  flat_map (fun b => [(Byte.to_N b / 16)%N; (Byte.to_N b mod 16)%N]) a.

(** ** Protocol-indexed views of the two decoders *)

Definition signature (p : Protocol) : Hash :=
  match p with
  | uniswap_v2 => uniswapv2.SwapEventSignature
  | uniswap_v3 => uniswapv3.SwapEventSignature
  end.

(** The least payload length each decoder accepts. *)
Definition minDataLength (p : Protocol) : nat :=
  match p with uniswap_v2 => 128%nat | uniswap_v3 => 160%nat end.

Definition protocolDecode (env : Env) (p : Protocol) : Log -> M Swap :=
  match p with
  | uniswap_v2 => uniswapv2.DecodeSwapLog env
  | uniswap_v3 => uniswapv3.DecodeSwapLog env
  end.

(** A log that fails the validation of protocol [p]'s decoder. *)
Definition malformed (p : Protocol) (log : Log) : Prop :=
  (length (logTopics log) < 3)%nat
  \/ (length (logData log) < minDataLength p)%nat.

(** ** Outcomes of computations *)

(** A computation that always returns, with a value or an error: it neither
    panics nor fails to return, whatever the state. *)
Definition noPanic {A} (m : M A) : Prop :=
  forall st, (m st).1 <> Panic /\ (m st).1 <> NeverReturns.

(** ** The pool-metadata cache, as the specification describes it *)




(** ** Failure of the log fetch *)

(** The state in which the tick-based fetch of [GetAllSwapLogs] starts. *)
Definition afterV2Fetch (env : Env) (fromBlock toBlock : Z) (st : State) : State :=
  if EnableUniswapV2 (cfg env)
  then (uniswapv2.GetSwapLogs env fromBlock toBlock st).2
  else st.

(** Within [GetAllSwapLogs] started in [st], the log fetch of an enabled
    protocol fails after its retries. *)
Definition logFetchFails (env : Env) (fromBlock toBlock : Z) (st : State) : Prop :=
  (EnableUniswapV2 (cfg env) = true
   /\ isErr (uniswapv2.GetSwapLogs env fromBlock toBlock st).1 = true)
  \/ (EnableUniswapV3 (cfg env) = true
      /\ isErr (uniswapv3.GetSwapLogs env fromBlock toBlock
                  (afterV2Fetch env fromBlock toBlock st)).1 = true).

(** ** Orders and fetched logs *)

(** The order [GetAllSwapLogs] sorts by: block number, then log index. *)
Definition logOrder (a b : Log) : Prop :=
  logBlockNumber a < logBlockNumber b
  \/ (logBlockNumber a = logBlockNumber b /\ logIndex a <= logIndex b).

(** The order of swaps within a transaction: by log index. *)
Definition swapOrder (a b : Swap) : Prop := LogIndex a <= LogIndex b.

Definition okOrEmpty {A} (r : Res (list A)) : list A :=
  match r with Ok l => l | _ => [] end.

(** The logs the two fetches of [GetAllSwapLogs], started in [st], bring
    back: nothing for a protocol that is disabled or whose fetch fails. *)
Definition fetchedV2 (env : Env) (fromBlock toBlock : Z) (st : State) : list Log :=
  if EnableUniswapV2 (cfg env)
  then okOrEmpty (uniswapv2.GetSwapLogs env fromBlock toBlock st).1
  else [].

Definition fetchedV3 (env : Env) (fromBlock toBlock : Z) (st : State) : list Log :=
  if EnableUniswapV3 (cfg env)
  then okOrEmpty (uniswapv3.GetSwapLogs env fromBlock toBlock
                    (afterV2Fetch env fromBlock toBlock st)).1
  else [].

(** ** Grouping *)

(** The group filed under [k], if any. *)
Fixpoint groupLookup {K V} `{EqDecision K} (k : K)
    (groups : list (K * list V)) : option (list V) :=
  match groups with
  | [] => None
  | (k', vs) :: rest => if decide (k = k') then Some vs else groupLookup k rest
  end.

(** The loop [for _, x := range xs { m[key(x)] = append(m[key(x)], x) }]. *)
Definition groupBy {K V} `{EqDecision K} (key : V -> K) (xs : list V)
    : list (K * list V) :=
  fold_left (fun groups x => groupAppend (key x) x groups) xs [].

(** ** Logs the unified decoder hands to a protocol decoder *)

(** The first topic is the swap signature of an enabled protocol. *)
Definition handled (env : Env) (log : Log) : Prop :=
  (head (logTopics log) = Some uniswapv2.SwapEventSignature
   /\ EnableUniswapV2 (cfg env) = true)
  \/ (head (logTopics log) = Some uniswapv3.SwapEventSignature
      /\ EnableUniswapV3 (cfg env) = true).

#[global] Instance handled_dec env log : Decision (handled env log).
Proof. unfold handled. apply _. Defined.

(** ** Shapes of findings *)

(** What every finding looks like when it leaves a detector. *)
Definition freshFinding (arb : Arbitrage) : Prop :=
  0 < Profit arb
  /\ Profit arb = AmountOut arb - AmountIn arb
  /\ TokenStart arb = TokenEnd arb
  /\ ProfitToken arb = TokenStart arb
  /\ (2 <= length (Path arb))%nat
  /\ GasPrice arb = None /\ NetProfitWei arb = None.

(** A finding after the gas block: the detector's fields are untouched, and
    the net profit is either still unset or gross profit minus the gas
    cost as the code computes it. *)
Definition pricedFinding (arb : Arbitrage) : Prop :=
  0 < Profit arb
  /\ Profit arb = AmountOut arb - AmountIn arb
  /\ TokenStart arb = TokenEnd arb
  /\ ProfitToken arb = TokenStart arb
  /\ (2 <= length (Path arb))%nat
  /\ (NetProfitWei arb = None
      \/ exists gasPrice,
           GasPrice arb = Some gasPrice
           /\ NetProfitWei arb = Some (Profit arb - i64 (GasUsed arb) * gasPrice)).

(** A computation that leaves the watermark where it is. *)
Definition keepsWatermark {A} (m : M A) : Prop :=
  forall st, lastBlock (m st).2 = lastBlock st.


(** ** Independence of the reported findings *)

Definition withReported (found : list Arbitrage) (st : State) : State :=
  {| requests := requests st; v2Cache := v2Cache st; v3Cache := v3Cache st;
     lastBlock := lastBlock st; reported := found |}.

(** A computation that neither reads nor writes the reported findings. *)
Definition ignoresReported {A} (m : M A) : Prop :=
  forall found st,
    m (withReported found st) = ((m st).1, withReported found (m st).2).

(** ** Sample environments *)

Module sample.
(** A hash stub under which no digit is upper-cased. *)
Definition lowerCase : list byte -> list byte := fun _ => [].

Definition config (batch : Z) : Config :=
  {| RetryAttempts := 3; BatchSize := batch; StartBlock := 0;
     EnableUniswapV2 := true; EnableUniswapV3 := true |}.

Definition initial (watermark : Z) : State :=
  {| requests := []; v2Cache := ∅; v3Cache := ∅;
     lastBlock := watermark; reported := [] |}.

(** A node at height [head] whose ranges hold no swap logs. *)
Definition quietNode (head : Z) : Node :=
  {| nodeBlockNumber := fun _ => Some head;
     nodeFilterLogs := fun _ _ _ _ => Some [];
     nodeCallContract := fun _ _ _ => None;
     nodeReceipt := fun _ _ => None;
     nodeTransaction := fun _ _ => None |}.

(** A node at height [head] that answers no log query at all. *)
Definition deafNode (head : Z) : Node :=
  {| nodeBlockNumber := fun _ => Some head;
     nodeFilterLogs := fun _ _ _ _ => None;
     nodeCallContract := fun _ _ _ => None;
     nodeReceipt := fun _ _ => None;
     nodeTransaction := fun _ _ => None |}.

(** A node that reports [gasUsed] and [gasPrice] for every transaction. *)
Definition gasNode (gasUsed gasPrice : Z) : Node :=
  {| nodeBlockNumber := fun _ => Some 0;
     nodeFilterLogs := fun _ _ _ _ => Some [];
     nodeCallContract := fun _ _ _ => None;
     nodeReceipt := fun _ _ => Some gasUsed;
     nodeTransaction := fun _ _ => Some gasPrice |}.

Definition envOf (n : Node) (batch : Z) : Env :=
  {| node := n; cfg := config batch; keccak256 := lowerCase |}.

(** A finding with gross profit [profit] and no gas data yet. *)
Definition finding (profit : Z) : Arbitrage :=
  {| arbTxHash := []; arbBlockNumber := 0; Arbitrageur := zeroAddress;
     Path := []; TokenStart := arbitrage.WETH; TokenEnd := arbitrage.WETH;
     AmountIn := 0; AmountOut := profit; Profit := profit;
     ProfitToken := arbitrage.WETH; GasUsed := 0; GasPrice := None;
     NetProfitWei := None |}.

Definition tokenA : Address := replicate 19 x00 ++ [x0a].
Definition tokenB : Address := replicate 19 x00 ++ [x0b].
Definition tokenC : Address := replicate 19 x00 ++ [x0c].
Definition poolX : Address := replicate 19 x00 ++ [xf1].
Definition poolY : Address := replicate 19 x00 ++ [xf2].
Definition poolZ : Address := replicate 19 x00 ++ [xf3].

(** A simple-curve swap on [pool] paying [amountIn] of [tokenIn] for
    [amountOut] of [tokenOut], the pool's token0 being [tokenIn]. *)
Definition swapOf (index : Z) (pool tokenIn tokenOut : Address)
    (amountIn amountOut : Z) : Swap :=
  {| TxHash := [x01]; BlockNumber := 100; LogIndex := index; Pool := pool;
     SwapProtocol := uniswap_v2; Sender := tokenA; Recipient := tokenA;
     Token0 := tokenIn; Token1 := tokenOut;
     Amount0In := amountIn; Amount1In := 0;
     Amount0Out := 0; Amount1Out := amountOut;
     SqrtPriceX96 := None; Liquidity := None; Tick := None |}.

(** A -> B -> C -> A, 1000 in and 1100 out. *)
Definition cycle : list Swap :=
  [swapOf 0 poolX tokenA tokenB 1000 500;
   swapOf 1 poolY tokenB tokenC 500 700;
   swapOf 2 poolZ tokenC tokenA 700 1100].

(** Two legs on the pair (tokenB, WETH): WETH is spent on pool X and
    received on pool Y. *)
Definition buyLeg : Swap :=
  {| TxHash := [x01]; BlockNumber := 100; LogIndex := 0; Pool := poolX;
     SwapProtocol := uniswap_v2; Sender := tokenA; Recipient := tokenA;
     Token0 := arbitrage.WETH; Token1 := tokenB;
     Amount0In := 1000000; Amount1In := 0;
     Amount0Out := 0; Amount1Out := 5;
     SqrtPriceX96 := None; Liquidity := None; Tick := None |}.

Definition sellLeg : Swap :=
  {| TxHash := [x01]; BlockNumber := 100; LogIndex := 1; Pool := poolY;
     SwapProtocol := uniswap_v2; Sender := tokenA; Recipient := tokenA;
     Token0 := arbitrage.WETH; Token1 := tokenB;
     Amount0In := 0; Amount1In := 5;
     Amount0Out := 1050000; Amount1Out := 0;
     SqrtPriceX96 := None; Liquidity := None; Tick := None |}.

Definition crossFinding : Arbitrage :=
  {| arbTxHash := [x01]; arbBlockNumber := 100; Arbitrageur := tokenA;
     Path := [buyLeg; sellLeg];
     TokenStart := arbitrage.WETH; TokenEnd := arbitrage.WETH;
     AmountIn := 1000000; AmountOut := 1050000; Profit := 50000;
     ProfitToken := arbitrage.WETH; GasUsed := 0; GasPrice := None;
     NetProfitWei := None |}.

(** Two addresses that differ in their first byte, 0x0a.. and 0x0b.. *)
Definition lowAddr : Address := x0a :: replicate 19 x00.
Definition highAddr : Address := x0b :: replicate 19 x00.

(** A hash stub whose digest of [highAddr]'s digits has every nibble above
    7 (all its letters are upper-cased) and of anything else is empty. *)
Definition shout : list byte -> list byte :=
  fun input =>
    if decide (input = map asciiByte (hexLower highAddr))
    then replicate 32 xff else [].

Definition shoutEnv : Env :=
  {| node := quietNode 0; cfg := config 10; keccak256 := shout |}.

(** A tick-based pool with its metadata already cached. *)
Definition v3Info : v3types.PoolInfo :=
  {| v3types.Token0 := tokenA; v3types.Token1 := tokenB; v3types.Fee := 3000 |}.

Definition cached : State :=
  {| requests := []; v2Cache := ∅; v3Cache := {[poolX := v3Info]};
     lastBlock := 0; reported := [] |}.

(** A tick-based swap log: amount0 = -5, amount1 = 7, tick = -2. *)
Definition v3Log : Log :=
  {| logAddress := poolX;
     logTopics := [uniswapv3.SwapEventSignature;
                   replicate 12 x00 ++ tokenA; replicate 12 x00 ++ tokenA];
     logData := replicate 31 xff ++ [xfb] ++ replicate 31 x00 ++ [x07]
                ++ replicate 64 x00 ++ replicate 31 xff ++ [xfe];
     logBlockNumber := 100; logTxHash := [x01]; logIndex := 4 |}.

(** The same log with its payload cut to 100 bytes. *)
Definition shortLog : Log :=
  {| logAddress := poolX;
     logTopics := logTopics v3Log;
     logData := take 100 (logData v3Log);
     logBlockNumber := 100; logTxHash := [x01]; logIndex := 3 |}.

(** A node whose every contract call answers one 32-byte word holding the
    address [tokenA] (read as a fee, the same word). *)
Definition poolNode : Node :=
  {| nodeBlockNumber := fun _ => Some 0;
     nodeFilterLogs := fun _ _ _ _ => Some [];
     nodeCallContract := fun _ _ _ => Some (replicate 12 x00 ++ tokenA);
     nodeReceipt := fun _ _ => None;
     nodeTransaction := fun _ _ => None |}.

(** A simple-curve pool with cached metadata, a swap log of it paying 1000
    of token0 for 900 of token1, and the swap it decodes to. *)
Definition v2Info : v2types.PoolInfo :=
  {| v2types.Token0 := tokenA; v2types.Token1 := tokenB;
     v2types.Reserve0 := None; v2types.Reserve1 := None |}.

Definition cachedV2 : State :=
  {| requests := []; v2Cache := {[poolY := v2Info]}; v3Cache := ∅;
     lastBlock := 0; reported := [] |}.

Definition v2Log : Log :=
  {| logAddress := poolY;
     logTopics := [uniswapv2.SwapEventSignature;
                   replicate 12 x00 ++ tokenA; replicate 12 x00 ++ tokenC];
     logData := replicate 30 x00 ++ [x03; xe8] ++ replicate 32 x00
                ++ replicate 32 x00 ++ replicate 30 x00 ++ [x03; x84];
     logBlockNumber := 100; logTxHash := [x01]; logIndex := 2 |}.

Definition v2Swap : Swap :=
  {| TxHash := [x01]; BlockNumber := 100; LogIndex := 2; Pool := poolY;
     SwapProtocol := uniswap_v2; Sender := tokenA; Recipient := tokenC;
     Token0 := tokenA; Token1 := tokenB;
     Amount0In := 1000; Amount1In := 0; Amount0Out := 0; Amount1Out := 900;
     SqrtPriceX96 := None; Liquidity := None; Tick := None |}.

(** A tick-based swap log with amount0 = 5 and amount1 = -7. *)
Definition v3LogIn : Log :=
  {| logAddress := poolX;
     logTopics := [uniswapv3.SwapEventSignature;
                   replicate 12 x00 ++ tokenA; replicate 12 x00 ++ tokenA];
     logData := replicate 31 x00 ++ [x05] ++ replicate 31 xff ++ [xf9]
                ++ replicate 96 x00;
     logBlockNumber := 100; logTxHash := [x01]; logIndex := 5 |}.

(** A swap with no amount at all. *)
Definition idleSwap : Swap := swapOf 9 poolX tokenA tokenB 0 0.

(** Statistics at start-up. *)
Definition freshStats : output.Stats :=
  {| output.BlocksProcessed := 0; output.SwapsDetected := 0;
     output.ArbitragesFound := 0; output.TotalProfitWei := 0;
     output.TotalNetProfit := 0 |}.
End sample.

(** * Properties *)

(** ** Machine integers *)

Lemma u64_id x : 0 <= x < 2 ^ 64 -> u64 x = x.
Proof. intros H. unfold u64. apply Z.mod_small; exact H. Qed.

Lemma u64_range x : 0 <= u64 x < 2 ^ 64.
Proof. unfold u64. apply Z.mod_pos_bound. lia. Qed.

Lemma i64_id x : 0 <= x < 2 ^ 63 -> i64 x = x.
Proof.
  intros H. unfold i64. rewrite Z.mod_small by lia.
  destruct (Z.ltb_spec x (2 ^ 63)); lia.
Qed.

(** ** The monad *)

Lemma bind_ok {A B} (m : M A) (k : A -> M B) st a st' :
  m st = (Ok a, st') -> bind m k st = k a st'.
Proof. intros H. unfold bind. rewrite H. reflexivity. Qed.

Lemma bind_err {A B} (m : M A) (k : A -> M B) st e st' :
  m st = (Err e, st') -> bind m k st = (Err e, st').
Proof. intros H. unfold bind. rewrite H. reflexivity. Qed.

Lemma wrapErr_ok {A} ctx (m : M A) st a st' :
  m st = (Ok a, st') -> wrapErr ctx m st = (Ok a, st').
Proof. intros H. unfold wrapErr. rewrite H. reflexivity. Qed.

(** ** The RPC client *)

Lemma retry_caches {A} n req (answer : nat -> option A) st r st' :
  eth.retry n req answer st = (r, st') ->
  v2Cache st' = v2Cache st /\ v3Cache st' = v3Cache st
  /\ lastBlock st' = lastBlock st /\ reported st' = reported st.
Proof.
  revert st. induction n as [|n IH]; intros st H; simpl in H.
  - inversion H; subst. auto.
  - destruct (answer (now st)).
    + inversion H; subst. auto.
    + apply IH in H. simpl in H. exact H.
Qed.

Lemma withRetry_caches {A} env op req (answer : nat -> option A) st r st' :
  eth.withRetry env op req answer st = (r, st') ->
  v2Cache st' = v2Cache st /\ v3Cache st' = v3Cache st
  /\ lastBlock st' = lastBlock st /\ reported st' = reported st.
Proof.
  unfold eth.withRetry. intros H.
  destruct (eth.retry _ req answer st) as [[a|] st1] eqn:E;
    inversion H; subst; eapply retry_caches; exact E.
Qed.

(** ** Fewer than two swaps *)

Lemma pairSwaps_single env swap :
  arbitrage.pairSwaps env [swap]
  = [(arbitrage.keyOf env (Token0 swap) (Token1 swap), [swap])].
Proof. reflexivity. Qed.

(** C10. A transaction with fewer than two swaps yields no finding and no
    error: [DetectArbitrage] returns the empty list at once, leaving the
    state (and so the request log) untouched, and neither the cyclic nor
    the cross-venue detector finds anything in such a list. *)
Theorem detect_fewer_than_two_swaps env txHash (swaps : list Swap) st :
  (length swaps < 2)%nat ->
  arbitrage.DetectArbitrage env txHash swaps st = (Ok [], st)
  /\ arbitrage.detectCyclicArbitrage swaps = None
  /\ arbitrage.detectCrossDEXArbitrage env swaps = [].
Proof.
  intros Hlen.
  assert (Hb : (length swaps <? 2)%nat = true) by (apply Nat.ltb_lt; exact Hlen).
  split; [|split].
  - unfold arbitrage.DetectArbitrage. rewrite Hb. reflexivity.
  - unfold arbitrage.detectCyclicArbitrage. rewrite Hb. reflexivity.
  - destruct swaps as [|s [|s' rest]]; simpl in Hlen; try lia.
    + reflexivity.
    + unfold arbitrage.detectCrossDEXArbitrage. rewrite pairSwaps_single.
      reflexivity.
Qed.

Lemma detect_fewer_than_two_swaps_witness :
  arbitrage.DetectArbitrage (sample.envOf (sample.quietNode 0) 10) [] []
    (sample.initial 0) = (Ok [], sample.initial 0)
  /\ arbitrage.detectCyclicArbitrage [] = None
  /\ arbitrage.detectCrossDEXArbitrage (sample.envOf (sample.quietNode 0) 10) [] = [].
Proof.
  apply (detect_fewer_than_two_swaps (sample.envOf (sample.quietNode 0) 10) [] []
           (sample.initial 0)).
  simpl. lia.
Defined.

(** ** Range selection *)

(** Away from overflow the selected range starts at watermark+1 and ends at
    min(head, watermark+batch), except when head = watermark+batch+1, where
    it ends at head and spans batch+1 blocks. *)
Lemma selectRange_spec env watermark head :
  0 <= watermark -> watermark + 1 <= head -> head < 2 ^ 64 ->
  0 <= BatchSize (cfg env) < 2 ^ 63 ->
  inspector.selectRange env watermark head
  = Some (watermark + 1,
          if head =? watermark + BatchSize (cfg env) + 1 then head
          else Z.min head (watermark + BatchSize (cfg env))).
Proof.
  intros Hw Hh Hmax Hb. unfold inspector.selectRange.
  rewrite (u64_id (watermark + 1)) by lia.
  destruct (Z.ltb_spec head (watermark + 1)); [lia|].
  rewrite (u64_id (BatchSize (cfg env))) by lia.
  rewrite (u64_id (head - (watermark + 1))) by lia.
  destruct (Z.ltb_spec (BatchSize (cfg env)) (head - (watermark + 1))).
  - rewrite (u64_id (watermark + 1 + BatchSize (cfg env))) by lia.
    rewrite u64_id by lia.
    destruct (Z.eqb_spec head (watermark + BatchSize (cfg env) + 1)); [lia|].
    f_equal. f_equal. lia.
  - destruct (Z.eqb_spec head (watermark + BatchSize (cfg env) + 1)); [reflexivity|].
    f_equal. f_equal. lia.
Qed.

(** C4 (evaluation at the failing input). With watermark 0, head 11 and
    batch size 10 the tick processes the range [1, 11], eleven blocks: the
    log queries span 1..11 and the watermark becomes 11, whereas
    min(head, watermark + batch) is 10. *)
Theorem processNewBlocks_batch_boundary :
  let env := sample.envOf (sample.quietNode 11) 10 in
  let st' := (inspector.processNewBlocks env (sample.initial 0)).2 in
  inspector.selectRange env 0 11 = Some (1, 11)
  /\ lastBlock st' = 11
  /\ ReqFilterLogs 1 11 uniswapv2.SwapEventSignature ∈ requests st'
  /\ Z.min 11 (0 + 10) = 10.
Proof.
  vm_compute. repeat split; try reflexivity.
  apply list_elem_of_In. right. left. reflexivity.
Qed.

(** ** Gas cost and net profit *)

(** What the gas block computes when both fetches succeed: the gas used
    enters the product through [int64(..)]. *)
Lemma withGas_both env txHash arb st gasUsed st1 gasPrice st2 :
  eth.TransactionReceipt env txHash st = (Ok gasUsed, st1) ->
  eth.GetTransaction env txHash st1 = (Ok gasPrice, st2) ->
  exists arb',
    arbitrage.withGas env txHash arb st = (Ok arb', st2)
    /\ Profit arb' = Profit arb
    /\ GasUsed arb' = gasUsed
    /\ GasPrice arb' = Some gasPrice
    /\ NetProfitWei arb' = Some (Profit arb - i64 gasUsed * gasPrice).
Proof.
  intros H1 H2. unfold arbitrage.withGas. rewrite H1, H2.
  eexists. split; [reflexivity|]. simpl. auto.
Qed.

(** Below 2^63 gas the conversion is the identity and the net profit is
    gross profit minus gas used times gas price. *)
Lemma withGas_net_profit env txHash arb st gasUsed st1 gasPrice st2 :
  eth.TransactionReceipt env txHash st = (Ok gasUsed, st1) ->
  eth.GetTransaction env txHash st1 = (Ok gasPrice, st2) ->
  0 <= gasUsed < 2 ^ 63 ->
  exists arb',
    arbitrage.withGas env txHash arb st = (Ok arb', st2)
    /\ NetProfitWei arb' = Some (Profit arb - gasUsed * gasPrice).
Proof.
  intros H1 H2 Hr.
  destruct (withGas_both env txHash arb st gasUsed st1 gasPrice st2 H1 H2)
    as (arb' & Hrun & _ & _ & _ & Hnet).
  exists arb'. split; [exact Hrun|]. rewrite Hnet, i64_id by exact Hr. reflexivity.
Qed.

(** When the receipt fetch fails the finding is returned as it was, and
    when only the transaction fetch fails the net profit is left as it
    was. *)
Lemma withGas_receipt_fails env txHash arb st e st1 :
  eth.TransactionReceipt env txHash st = (Err e, st1) ->
  arbitrage.withGas env txHash arb st = (Ok arb, st1).
Proof. intros H. unfold arbitrage.withGas. rewrite H. reflexivity. Qed.

Lemma withGas_transaction_fails env txHash arb st gasUsed st1 e st2 :
  eth.TransactionReceipt env txHash st = (Ok gasUsed, st1) ->
  eth.GetTransaction env txHash st1 = (Err e, st2) ->
  exists arb',
    arbitrage.withGas env txHash arb st = (Ok arb', st2)
    /\ NetProfitWei arb' = NetProfitWei arb
    /\ Profit arb' = Profit arb.
Proof.
  intros H1 H2. unfold arbitrage.withGas. rewrite H1, H2.
  eexists. split; [reflexivity|]. simpl. auto.
Qed.

(** With the net profit unset, the profitability query is the sign of the
    gross profit. *)
Lemma IsProfitable_unset arb :
  NetProfitWei arb = None ->
  arbitrage.IsProfitable arb = true <-> 0 < Profit arb.
Proof.
  intros H. unfold arbitrage.IsProfitable. rewrite H. apply Z.ltb_lt.
Qed.

(** C9 (evaluation at the failing input). A receipt reporting 2^63 gas and
    a transaction with gas price 1: both fetches succeed, yet the net
    profit of a finding with gross profit 1 is 1 + 2^63, not
    1 - 2^63 * 1, because [int64(GasUsed)] is negative there. *)
Theorem withGas_int64_overflow :
  let env := sample.envOf (sample.gasNode (2 ^ 63) 1) 10 in
  let st := sample.initial 0 in
  let out := arbitrage.withGas env [] (sample.finding 1) st in
  (eth.TransactionReceipt env [] st).1 = Ok (2 ^ 63)
  /\ (eth.GetTransaction env [] (eth.TransactionReceipt env [] st).2).1 = Ok 1
  /\ (exists arb', out.1 = Ok arb'
        /\ NetProfitWei arb' = Some (1 + 2 ^ 63)
        /\ NetProfitWei arb' <> Some (Profit (sample.finding 1) - 2 ^ 63 * 1)).
Proof.
  split; [reflexivity|]. split; [reflexivity|].
  eexists. split; [vm_compute; reflexivity|].
  split; [reflexivity|]. vm_compute. discriminate.
Qed.

(** ** Cyclic detection *)

Lemma flowOf_amounts swap :
  arbitrage.resolved (arbitrage.flowOf swap) = true ->
  is_Some (arbitrage.amountIn (arbitrage.flowOf swap))
  /\ is_Some (arbitrage.amountOut (arbitrage.flowOf swap)).
Proof.
  unfold arbitrage.resolved, arbitrage.flowOf.
  destruct (0 <? Amount0In swap), (0 <? Amount1Out swap),
    (0 <? Amount1In swap), (0 <? Amount0Out swap); simpl;
    intros H; try (split; eexists; reflexivity).
  all: rewrite ?(bool_decide_eq_true_2 (zeroAddress = zeroAddress)) in H
         by reflexivity.
  all: simpl in H; rewrite ?andb_false_r in H; discriminate.
Qed.

Lemma buildFlows_elem flow swaps :
  flow ∈ arbitrage.buildFlows swaps ->
  exists swap, swap ∈ swaps /\ flow = arbitrage.flowOf swap
               /\ arbitrage.resolved flow = true.
Proof.
  induction swaps as [|s rest IH]; simpl; intros H.
  - inversion H.
  - destruct (arbitrage.resolved (arbitrage.flowOf s)) eqn:E.
    + apply elem_of_cons in H as [->|H].
      * exists s. split; [left|auto].
      * destruct (IH H) as (s' & Hin & Heq & Hres).
        exists s'. split; [right; exact Hin|auto].
    + destruct (IH H) as (s' & Hin & Heq & Hres).
      exists s'. split; [right; exact Hin|auto].
Qed.

(** No nil amount is ever read: the flows that are kept carry both. *)
Lemma buildFlows_amounts flow swaps :
  flow ∈ arbitrage.buildFlows swaps ->
  is_Some (arbitrage.amountIn flow) /\ is_Some (arbitrage.amountOut flow).
Proof.
  intros H. destruct (buildFlows_elem _ _ H) as (s & _ & -> & Hres).
  apply flowOf_amounts. exact Hres.
Qed.

Lemma buildFlows_length swaps :
  (length (arbitrage.buildFlows swaps) <= length swaps)%nat.
Proof.
  induction swaps as [|s rest IH]; simpl; [lia|].
  destruct (arbitrage.resolved _); simpl; lia.
Qed.

(** The connectivity loop accepts exactly the lists in which every flow
    hands its output token to the next one. *)
Lemma connected_spec (flows : list arbitrage.tokenFlow) :
  arbitrage.connected flows = true <->
  forall (i : nat) f g, flows !! i = Some f -> flows !! S i = Some g ->
                        arbitrage.tokenOut f = arbitrage.tokenIn g.
Proof.
  induction flows as [|f [|g rest] IH].
  - split; [intros _ i f g H; inversion H | reflexivity].
  - split; [|reflexivity]. intros _ [|i] f' g' H1 H2; simpl in *; discriminate.
  - change (arbitrage.connected (f :: g :: rest))
      with (bool_decide (arbitrage.tokenOut f = arbitrage.tokenIn g)
            && arbitrage.connected (g :: rest)).
    rewrite andb_true_iff, bool_decide_eq_true, IH. split.
    + intros [H0 Hrest] [|i] f' g' H1 H2.
      * simpl in H1, H2. congruence.
      * apply (Hrest i); assumption.
    + intros H. split.
      * apply (H 0%nat); reflexivity.
      * intros i f' g' H1 H2. apply (H (S i)); assumption.
Qed.

(** C2. When at least two flows are derived, the cyclic detector reports a
    finding exactly when the first flow's input token is the last flow's
    output token, every flow feeds the next, and the last output amount
    exceeds the first input amount. The finding (an optional value, so at
    most one per transaction) has profit amountOut - amountIn and carries
    the first token as start, end and profit token. *)
Theorem cyclic_detection (swaps : list Swap) first final :
  let flows := arbitrage.buildFlows swaps in
  (2 <= length flows)%nat ->
  head flows = Some first ->
  last flows = Some final ->
  exists amountIn amountOut,
    arbitrage.amountIn first = Some amountIn
    /\ arbitrage.amountOut final = Some amountOut
    /\ (is_Some (arbitrage.detectCyclicArbitrage swaps) <->
        arbitrage.tokenIn first = arbitrage.tokenOut final
        /\ (forall (i : nat) f g,
               flows !! i = Some f -> flows !! S i = Some g ->
               arbitrage.tokenOut f = arbitrage.tokenIn g)
        /\ amountIn < amountOut)
    /\ (forall arb, arbitrage.detectCyclicArbitrage swaps = Some arb ->
        Profit arb = amountOut - amountIn
        /\ 0 < Profit arb
        /\ AmountIn arb = amountIn /\ AmountOut arb = amountOut
        /\ TokenStart arb = arbitrage.tokenIn first
        /\ TokenEnd arb = arbitrage.tokenIn first
        /\ ProfitToken arb = arbitrage.tokenIn first
        /\ Path arb = swaps).
Proof.
  intros flows Hlen Hfirst Hlast.
  assert (Hin1 : first ∈ flows).
  { apply list_elem_of_lookup. exists 0%nat. rewrite <- head_lookup. exact Hfirst. }
  assert (Hin2 : final ∈ flows).
  { apply list_elem_of_lookup. exists (pred (length flows)).
    rewrite <- last_lookup. exact Hlast. }
  destruct (buildFlows_amounts _ _ Hin1) as [[aIn HaIn] _].
  destruct (buildFlows_amounts _ _ Hin2) as [_ [aOut HaOut]].
  exists aIn, aOut. split; [exact HaIn|]. split; [exact HaOut|].
  pose proof (buildFlows_length swaps) as Hle. fold flows in Hle.
  assert (Hs : (length swaps <? 2)%nat = false) by (apply Nat.ltb_ge; lia).
  assert (Hf : (length flows <? 2)%nat = false) by (apply Nat.ltb_ge; lia).
  assert (Hhead : exists swap0, head swaps = Some swap0).
  { subst flows. destruct swaps as [|swap0 rest];
      [simpl in Hlen; lia | eexists; reflexivity]. }
  destruct Hhead as [swap0 Hhead].
  unfold arbitrage.detectCyclicArbitrage. fold flows.
  rewrite Hs, Hf, Hhead, Hfirst, Hlast, HaIn, HaOut.
  rewrite <- connected_spec.
  destruct (bool_decide_reflect (arbitrage.tokenIn first = arbitrage.tokenOut final))
    as [Heq|Hne]; simpl.
  2: { split.
       - split; [intros [? H]; discriminate | intros (H & _); contradiction].
       - intros arb H. discriminate. }
  destruct (arbitrage.connected flows) eqn:Hconn; simpl.
  2: { split.
       - split; [intros [? H]; discriminate | intros (_ & H & _); discriminate].
       - intros arb H. discriminate. }
  destruct (Z.leb_spec aOut aIn) as [Hcmp|Hcmp].
  - split.
    + split; [intros [? H]; discriminate | intros (_ & _ & H); lia].
    + intros arb H. discriminate.
  - split.
    + split; [intros _; auto | intros _; eexists; reflexivity].
    + intros arb H. inversion H; subst arb; simpl.
      rewrite <- Heq. repeat split; try reflexivity. lia.
Qed.

Lemma cyclic_detection_witness :
  exists arb, arbitrage.detectCyclicArbitrage sample.cycle = Some arb
              /\ Profit arb = 100 /\ TokenStart arb = sample.tokenA.
Proof.
  destruct (cyclic_detection sample.cycle
              (arbitrage.flowOf (sample.swapOf 0 sample.poolX sample.tokenA sample.tokenB 1000 500))
              (arbitrage.flowOf (sample.swapOf 2 sample.poolZ sample.tokenC sample.tokenA 700 1100)))
    as (aIn & aOut & HaIn & HaOut & Hiff & Hfind).
  - vm_compute. lia.
  - reflexivity.
  - reflexivity.
  - destruct (arbitrage.detectCyclicArbitrage sample.cycle) as [arb|] eqn:E.
    + exists arb. destruct (Hfind arb eq_refl) as (Hp & _ & _ & _ & Hs & _).
      split; [reflexivity|]. split.
      * rewrite Hp. vm_compute in HaIn, HaOut.
        inversion HaIn; inversion HaOut; subst. reflexivity.
      * rewrite Hs. reflexivity.
    + vm_compute in E. discriminate.
Defined.

(** ** Cross-venue detection *)

Lemma groupAppend_elem {K V} `{EqDecision K} (k k' : K) (v : V) g' groups :
  (k', g') ∈ groupAppend k v groups ->
  (k', g') ∈ groups
  \/ (exists g, (k', g) ∈ groups /\ k' = k /\ g' = g ++ [v])
  \/ (k' = k /\ g' = [v]).
Proof.
  induction groups as [|[k0 vs] rest IH]; simpl; intros H.
  - apply list_elem_of_singleton in H. inversion H; subst. auto.
  - destruct (decide (k = k0)) as [->|Hne].
    + apply elem_of_cons in H as [H|H].
      * inversion H; subst. right. left. exists vs. split; [left|auto].
      * left. right. exact H.
    + apply elem_of_cons in H as [H|H].
      * inversion H; subst. left. left.
      * destruct (IH H) as [Hin|[(g & Hin & -> & ->)|[-> ->]]].
        -- left. right. exact Hin.
        -- right. left. exists g. split; [right; exact Hin|auto].
        -- right. right. auto.
Qed.

(** Every swap filed under a pair belongs to the transaction and has that
    pair as its normalised key. *)
Lemma pairSwaps_elem env (swaps : list Swap) pair group :
  (pair, group) ∈ arbitrage.pairSwaps env swaps ->
  forall x, x ∈ group ->
    x ∈ swaps /\ arbitrage.keyOf env (Token0 x) (Token1 x) = pair.
Proof.
  unfold arbitrage.pairSwaps.
  set (f := fun groups swap =>
              groupAppend (arbitrage.keyOf env (Token0 swap) (Token1 swap)) swap groups).
  assert (Hgen : forall l (acc : list (arbitrage.pairKey * list Swap)),
    (forall k g, (k, g) ∈ acc -> forall x, x ∈ g ->
        x ∈ swaps /\ arbitrage.keyOf env (Token0 x) (Token1 x) = k) ->
    (forall x, x ∈ l -> x ∈ swaps) ->
    forall k g, (k, g) ∈ fold_left f l acc -> forall x, x ∈ g ->
        x ∈ swaps /\ arbitrage.keyOf env (Token0 x) (Token1 x) = k).
  { induction l as [|s l IH]; simpl; intros acc Hacc Hl k g Hin x Hx.
    - eapply Hacc; eassumption.
    - eapply (IH (f acc s)); [| |exact Hin|exact Hx].
      + intros k0 g0 Hin0 y Hy. unfold f in Hin0.
        apply groupAppend_elem in Hin0
          as [Hold|[(g1 & Hold & -> & ->)|[-> ->]]].
        * eapply Hacc; eassumption.
        * apply elem_of_app in Hy as [Hy|Hy].
          -- eapply Hacc; eassumption.
          -- apply list_elem_of_singleton in Hy as ->.
             split; [apply Hl; left|reflexivity].
        * apply list_elem_of_singleton in Hy as ->.
          split; [apply Hl; left|reflexivity].
      + intros y Hy. apply Hl. right. exact Hy. }
  intros Hin x Hx. eapply (Hgen swaps []); [| |exact Hin|exact Hx].
  - intros k g H. inversion H.
  - auto.
Qed.

(** The legs the selection loop returns, unless already held, are swaps of
    the group on the matching side of the reference token. *)
Lemma selectLegs_spec group buy0 sell0 buy sell :
  arbitrage.selectLegs group buy0 sell0 = (buy, sell) ->
  (forall x, buy = Some x ->
     buy0 = Some x
     \/ (x ∈ group /\ arbitrage.involvesWETH x = true
         /\ arbitrage.isBuyLeg x = true))
  /\ (forall x, sell = Some x ->
     sell0 = Some x
     \/ (x ∈ group /\ arbitrage.involvesWETH x = true
         /\ arbitrage.isBuyLeg x = false)).
Proof.
  revert buy0 sell0. induction group as [|s rest IH]; simpl; intros buy0 sell0 H.
  - inversion H; subst. split; intros x Hx; left; exact Hx.
  - destruct (arbitrage.involvesWETH s) eqn:Ew.
    + destruct (arbitrage.isBuyLeg s) eqn:Eb.
      * destruct (IH _ _ H) as [Hb Hs]. split; intros x Hx.
        -- destruct (Hb x Hx) as [H0|(Hin & Hw & Hl)].
           ++ destruct buy0; [left; exact H0|].
              inversion H0; subst. right. split; [left|auto].
           ++ right. split; [right; exact Hin|auto].
        -- destruct (Hs x Hx) as [H0|(Hin & Hw & Hl)]; [left; exact H0|].
           right. split; [right; exact Hin|auto].
      * destruct (IH _ _ H) as [Hb Hs]. split; intros x Hx.
        -- destruct (Hb x Hx) as [H0|(Hin & Hw & Hl)]; [left; exact H0|].
           right. split; [right; exact Hin|auto].
        -- destruct (Hs x Hx) as [H0|(Hin & Hw & Hl)].
           ++ destruct sell0; [left; exact H0|].
              inversion H0; subst. right. split; [left|auto].
           ++ right. split; [right; exact Hin|auto].
    + destruct (IH _ _ H) as [Hb Hs]. split; intros x Hx.
      * destruct (Hb x Hx) as [H0|(Hin & Hw & Hl)]; [left; exact H0|].
        right. split; [right; exact Hin|auto].
      * destruct (Hs x Hx) as [H0|(Hin & Hw & Hl)]; [left; exact H0|].
        right. split; [right; exact Hin|auto].
Qed.

(** C6. Every cross-venue finding comes from a pair group whose swaps touch
    at least two distinct pools and whose selected buy and sell legs are on
    different pools; its profit is the reference-token amount the sell leg
    received minus the amount the buy leg spent and is strictly positive;
    its path is [buy leg; sell leg]; start, end and profit token are the
    reference token. *)
Theorem cross_venue_finding env (swaps : list Swap) arb :
  arb ∈ arbitrage.detectCrossDEXArbitrage env swaps ->
  exists pair group buy sell,
    (pair, group) ∈ arbitrage.pairSwaps env swaps
    /\ (forall x, x ∈ group ->
          x ∈ swaps /\ arbitrage.keyOf env (Token0 x) (Token1 x) = pair)
    /\ (2 <= size (arbitrage.poolsOf group))%nat
    /\ arbitrage.selectLegs group None None = (Some buy, Some sell)
    /\ buy ∈ group /\ arbitrage.isBuyLeg buy = true
    /\ sell ∈ group /\ arbitrage.involvesWETH sell = true
    /\ arbitrage.isBuyLeg sell = false
    /\ Pool buy <> Pool sell
    /\ Profit arb = arbitrage.wethReceived sell - arbitrage.wethSpent buy
    /\ 0 < Profit arb
    /\ Path arb = [buy; sell]
    /\ TokenStart arb = arbitrage.WETH
    /\ TokenEnd arb = arbitrage.WETH
    /\ ProfitToken arb = arbitrage.WETH.
Proof.
  unfold arbitrage.detectCrossDEXArbitrage. intros H.
  apply list_elem_of_omap in H as ([pair group] & Hin & Hg). simpl in Hg.
  unfold arbitrage.groupArbitrage in Hg.
  destruct (length group <? 2)%nat; [discriminate|].
  destruct (Nat.ltb_spec (size (arbitrage.poolsOf group)) 2) as [|Hpools];
    [discriminate|].
  destruct (arbitrage.selectLegs group None None) as [[buy|] [sell|]] eqn:Hsel;
    try discriminate.
  destruct (bool_decide_reflect (Pool buy = Pool sell)) as [|Hne]; [discriminate|].
  destruct (Z.ltb_spec (arbitrage.wethSpent buy) (arbitrage.wethReceived sell))
    as [Hlt|]; [|discriminate].
  inversion Hg; subst arb; clear Hg. simpl.
  destruct (selectLegs_spec _ _ _ _ _ Hsel) as [Hb Hs].
  destruct (Hb buy eq_refl) as [?|(Hbin & _ & Hbl)]; [discriminate|].
  destruct (Hs sell eq_refl) as [?|(Hsin & Hsw & Hsl)]; [discriminate|].
  exists pair, group, buy, sell.
  split; [exact Hin|]. split; [apply (pairSwaps_elem env swaps pair group Hin)|].
  repeat split; auto. lia.
Qed.

Lemma cross_venue_finding_witness :
  exists pair group buy sell,
    (pair, group) ∈ arbitrage.pairSwaps (sample.envOf (sample.quietNode 0) 10)
                      [sample.buyLeg; sample.sellLeg]
    /\ buy = sample.buyLeg /\ sell = sample.sellLeg
    /\ Pool buy <> Pool sell
    /\ Profit sample.crossFinding
       = arbitrage.wethReceived sell - arbitrage.wethSpent buy
    /\ Profit sample.crossFinding = 50000.
Proof.
  destruct (cross_venue_finding (sample.envOf (sample.quietNode 0) 10)
              [sample.buyLeg; sample.sellLeg] sample.crossFinding)
    as (pair & group & buy & sell & Hin & _ & _ & _ & _ & _ & _ & _ & _
        & Hne & Hp & _ & Hpath & _).
  - vm_compute. apply list_elem_of_here.
  - exists pair, group, buy, sell. simpl in Hpath.
    inversion Hpath; subst. repeat split; auto.
Defined.

(** ** The pair key *)

Lemma nibble_bounds b :
  (Byte.to_N b / 16 < 16)%N /\ (Byte.to_N b mod 16 < 16)%N.
Proof.
  pose proof (Byte.to_N_bounded b) as Hb. split.
  - apply N.Div0.div_lt_upper_bound. lia.
  - apply N.mod_lt. lia.
Qed.

(** Whatever the hash says, a digit keeps its value under the checksum
    casing. *)
Lemma unhex_checksumChar hash i n :
  (n < 16)%N -> unhexDigit (checksumChar hash i (hexDigit n)) = n.
Proof.
  intros Hn. unfold checksumChar.
  destruct (if Nat.even i
            then (Byte.to_N (byteAt hash (i / 2)) / 16)%N
            else (Byte.to_N (byteAt hash (i / 2)) mod 16)%N) as [|nib];
    [|destruct (7 <? N.pos nib)%N];
    (destruct n as [|p]; [reflexivity|]);
    do 4 (try destruct p as [p|p|]); try reflexivity; lia.
Qed.

Lemma unhex_imap (f : nat -> ascii -> ascii) a :
  (forall i n, (n < 16)%N -> unhexDigit (f i (hexDigit n)) = n) ->
  unhexDigit <$> imap f (hexLower a) = nibbles a.
Proof.
  revert f. induction a as [|b a IH]; intros f Hf; [reflexivity|].
  destruct (nibble_bounds b) as [Hhi Hlo].
  simpl. rewrite !Hf by assumption. f_equal. f_equal.
  apply IH. intros i n Hn. apply Hf. exact Hn.
Qed.

Lemma nibbles_inj a b : nibbles a = nibbles b -> a = b.
Proof.
  revert b. induction a as [|x a IH]; intros [|y b] H; simpl in H;
    try discriminate; [reflexivity|].
  inversion H as [[Hhi Hlo Hrest]]. f_equal.
  - assert (Hxy : Byte.to_N x = Byte.to_N y).
    { rewrite (N.div_mod (Byte.to_N x) 16), (N.div_mod (Byte.to_N y) 16) by lia.
      rewrite Hhi, Hlo. reflexivity. }
    pose proof (Byte.of_to_N x) as Hx. rewrite Hxy, Byte.of_to_N in Hx.
    inversion Hx. reflexivity.
  - apply IH. exact Hrest.
Qed.

(** Distinct addresses have distinct texts, under any hash function. *)
Lemma Hex_inj hashFn a b : Hex hashFn a = Hex hashFn b -> a = b.
Proof.
  unfold Hex. intros H. inversion H as [H'].
  apply (f_equal list_ascii_of_string) in H'.
  rewrite !list_ascii_of_string_of_list_ascii in H'.
  apply (f_equal (fmap unhexDigit)) in H'.
  rewrite !unhex_imap in H' by (intros; apply unhex_checksumChar; assumption).
  apply nibbles_inj. exact H'.
Qed.

Lemma keyOf_lt env t0 t1 :
  stringLess (Hex (keccak256 env) t0) (Hex (keccak256 env) t1) = true ->
  arbitrage.keyOf env t0 t1 = (t0, t1) /\ arbitrage.keyOf env t1 t0 = (t0, t1).
Proof.
  unfold arbitrage.keyOf, stringLess, String.ltb. intros H.
  rewrite (String.compare_antisym (Hex (keccak256 env) t1) (Hex (keccak256 env) t0)).
  destruct (String.compare (Hex (keccak256 env) t0) (Hex (keccak256 env) t1));
    try discriminate. simpl. auto.
Qed.

(** C7. The grouping key of a token pair is built by comparing the two
    addresses' hexadecimal texts: the key is one of the two orderings, its
    first component is the textually smaller address, and exchanging the
    two tokens gives the same key. The comparison never looks at numeric
    values, so a pair whose textual order runs against its numeric order is
    still keyed by the textual one. *)
Theorem pair_key_textual_order env t0 t1 :
  let text := Hex (keccak256 env) in
  let key := arbitrage.keyOf env t0 t1 in
  arbitrage.keyOf env t1 t0 = key
  /\ (key = (t0, t1) \/ key = (t1, t0))
  /\ String.leb (text key.1) (text key.2) = true
  /\ (stringLess (text t0) (text t1) = true -> key = (t0, t1))
  /\ (stringLess (text t1) (text t0) = true -> key = (t1, t0))
  /\ (stringLess (text t0) (text t1) = true -> SetBytes t1 < SetBytes t0 ->
      key = (t0, t1) /\ arbitrage.keyOf env t1 t0 = (t0, t1)).
Proof.
  intros text key. subst key text.
  split; [|split; [|split; [|split; [|split]]]].
  - unfold arbitrage.keyOf, stringLess, String.ltb.
    rewrite (String.compare_antisym (Hex (keccak256 env) t1) (Hex (keccak256 env) t0)).
    destruct (String.compare (Hex (keccak256 env) t0) (Hex (keccak256 env) t1)) eqn:E;
      simpl; try reflexivity.
    apply String.compare_eq_iff in E. apply Hex_inj in E. subst. reflexivity.
  - unfold arbitrage.keyOf. destruct (stringLess _ _); auto.
  - unfold arbitrage.keyOf, stringLess, String.ltb, String.leb.
    destruct (String.compare (Hex (keccak256 env) t0) (Hex (keccak256 env) t1)) eqn:E;
      cbn [fst snd].
    + rewrite String.compare_antisym, E. reflexivity.
    + rewrite E. reflexivity.
    + rewrite String.compare_antisym, E. reflexivity.
  - intros H. apply keyOf_lt. exact H.
  - intros H. apply keyOf_lt. exact H.
  - intros H _. apply keyOf_lt. exact H.
Qed.

(** A pair whose textual and numeric orders disagree, and its key. *)
Lemma pair_key_textual_order_witness :
  SetBytes sample.lowAddr < SetBytes sample.highAddr
  /\ stringLess (Hex sample.shout sample.highAddr) (Hex sample.shout sample.lowAddr) = true
  /\ arbitrage.keyOf sample.shoutEnv sample.highAddr sample.lowAddr
     = (sample.highAddr, sample.lowAddr)
  /\ arbitrage.keyOf sample.shoutEnv sample.lowAddr sample.highAddr
     = (sample.highAddr, sample.lowAddr).
Proof.
  assert (Hnum : SetBytes sample.lowAddr < SetBytes sample.highAddr)
    by (vm_compute; reflexivity).
  assert (Htext : stringLess (Hex (keccak256 sample.shoutEnv) sample.highAddr)
                    (Hex (keccak256 sample.shoutEnv) sample.lowAddr) = true)
    by (vm_compute; reflexivity).
  destruct (pair_key_textual_order sample.shoutEnv sample.highAddr sample.lowAddr)
    as (_ & _ & _ & _ & _ & Hkey).
  destruct (Hkey Htext Hnum) as [H1 H2].
  split; [exact Hnum|]. split; [exact Htext|]. split; [exact H1|exact H2].
Defined.

(** ** Words and signs *)

Lemma SetBytes_fold buf acc :
  fold_left (fun acc b => acc * 256 + byteZ b) buf acc
  = acc * 256 ^ Z.of_nat (length buf) + SetBytes buf.
Proof.
  unfold SetBytes. revert acc. induction buf as [|b buf IH]; intros acc.
  - simpl. lia.
  - cbn [fold_left length]. rewrite IH, (IH (0 * 256 + byteZ b)).
    rewrite Nat2Z.inj_succ, Z.pow_succ_r by lia. lia.
Qed.

Lemma SetBytes_cons b buf :
  SetBytes (b :: buf) = byteZ b * 256 ^ Z.of_nat (length buf) + SetBytes buf.
Proof.
  unfold SetBytes at 1. cbn [fold_left]. rewrite SetBytes_fold. lia.
Qed.

Lemma byteZ_range b : 0 <= byteZ b <= 255.
Proof. unfold byteZ. pose proof (Byte.to_N_bounded b). lia. Qed.

Lemma SetBytes_range buf : 0 <= SetBytes buf < 256 ^ Z.of_nat (length buf).
Proof.
  induction buf as [|b buf IH].
  - unfold SetBytes. simpl. lia.
  - rewrite SetBytes_cons. cbn [length].
    rewrite Nat2Z.inj_succ, Z.pow_succ_r by lia.
    pose proof (byteZ_range b). nia.
Qed.

Lemma byte_top_bit b : (Z.land (byteZ b) 128 =? 0) = (byteZ b <? 128).
Proof. destruct b; reflexivity. Qed.

(** The code's top-bit test on the first byte computes the two's-complement
    value of a 32-byte word. *)
Lemma signedWord_twosComplement word :
  length word = 32%nat ->
  uniswapv3.signedWord word = twosComplement 256 (SetBytes word)
  /\ - 2 ^ 255 <= uniswapv3.signedWord word < 2 ^ 255.
Proof.
  intros Hlen. destruct word as [|b rest]; [discriminate|].
  assert (Hrest : length rest = 31%nat) by (simpl in Hlen; lia).
  unfold uniswapv3.signedWord, twosComplement, byteAt. cbn [nth].
  rewrite byte_top_bit, SetBytes_cons.
  pose proof (SetBytes_range rest) as Hr. rewrite Hrest in *.
  pose proof (byteZ_range b) as Hb.
  change (256 ^ Z.of_nat 31) with (2 ^ 248) in *.
  change (2 ^ (256 - 1)) with (128 * 2 ^ 248).
  change (2 ^ 256) with (256 * 2 ^ 248).
  change (2 ^ 255) with (128 * 2 ^ 248).
  assert (Hp : 0 < 2 ^ 248) by (apply Z.pow_pos_nonneg; lia).
  set (P := 2 ^ 248) in *.
  destruct (Z.ltb_spec (byteZ b) 128); simpl negb; cbv iota;
    destruct (Z.leb_spec (128 * P) (byteZ b * P + SetBytes rest)); nia.
Qed.

Lemma slice_length buf lo hi :
  (lo <= hi)%nat -> (hi <= length buf)%nat -> length (slice buf lo hi) = (hi - lo)%nat.
Proof.
  intros H1 H2. unfold slice. rewrite length_take, length_drop. lia.
Qed.

(** C3. For a valid tick-based swap log (three topics led by the event
    signature, at least 160 payload bytes, pool metadata available) decoding
    succeeds and resolves the two's-complement value of amount0 into the
    In/Out split: a negative amount0 gives amount0Out = -amount0 and
    amount0In = 0, a positive one gives amount0In = amount0 and
    amount0Out = 0; likewise for amount1; the tick word is read by the same
    two's-complement rule; all four amount fields are non-negative. *)
Theorem v3_sign_resolution env log st info st' :
  (3 <= length (logTopics log))%nat ->
  topicAt log 0 = uniswapv3.SwapEventSignature ->
  (160 <= length (logData log))%nat ->
  uniswapv3.getPoolInfo env (logAddress log) st = (Ok info, st') ->
  let amount0 := twosComplement 256 (SetBytes (slice (logData log) 0 32)) in
  let amount1 := twosComplement 256 (SetBytes (slice (logData log) 32 64)) in
  let tick := twosComplement 256 (SetBytes (slice (logData log) 128 160)) in
  exists swap,
    uniswapv3.DecodeSwapLog env log st = (Ok swap, st')
    /\ (amount0 < 0 -> Amount0Out swap = - amount0 /\ Amount0In swap = 0)
    /\ (0 < amount0 -> Amount0In swap = amount0 /\ Amount0Out swap = 0)
    /\ (amount1 < 0 -> Amount1Out swap = - amount1 /\ Amount1In swap = 0)
    /\ (0 < amount1 -> Amount1In swap = amount1 /\ Amount1Out swap = 0)
    /\ Tick swap = Some tick
    /\ - 2 ^ 255 <= amount0 < 2 ^ 255
    /\ - 2 ^ 255 <= amount1 < 2 ^ 255
    /\ - 2 ^ 255 <= tick < 2 ^ 255
    /\ 0 <= Amount0In swap /\ 0 <= Amount1In swap
    /\ 0 <= Amount0Out swap /\ 0 <= Amount1Out swap.
Proof.
  intros Htopics Hsig Hdata Hpool amount0 amount1 tick.
  destruct (signedWord_twosComplement (slice (logData log) 0 32)) as [E0 R0];
    [apply slice_length; lia|].
  destruct (signedWord_twosComplement (slice (logData log) 32 64)) as [E1 R1];
    [apply slice_length; lia|].
  destruct (signedWord_twosComplement (slice (logData log) 128 160)) as [Et Rt];
    [apply slice_length; lia|].
  fold amount0 in E0. fold amount1 in E1. fold tick in Et.
  unfold uniswapv3.DecodeSwapLog.
  replace (length (logTopics log) <? 3)%nat with false
    by (symmetry; apply Nat.ltb_ge; lia).
  rewrite (bool_decide_eq_true_2 _ Hsig). cbn [negb].
  replace (length (logData log) <? 160)%nat with false
    by (symmetry; apply Nat.ltb_ge; lia).
  rewrite (bind_ok _ _ st info st') by (apply wrapErr_ok; exact Hpool).
  rewrite E0, E1, Et. rewrite E0 in R0. rewrite E1 in R1. rewrite Et in Rt.
  destruct (Z.ltb_spec 0 amount0), (Z.ltb_spec 0 amount1);
    (eexists; split; [reflexivity|]; cbn [Amount0In Amount0Out Amount1In Amount1Out Tick];
     repeat split; try reflexivity; lia).
Qed.

Lemma v3_sign_resolution_witness :
  exists swap,
    uniswapv3.DecodeSwapLog (sample.envOf (sample.quietNode 0) 10) sample.v3Log
      sample.cached = (Ok swap, sample.cached)
    /\ Amount0Out swap = 5 /\ Amount0In swap = 0
    /\ Amount1In swap = 7 /\ Amount1Out swap = 0
    /\ Tick swap = Some (-2).
Proof.
  destruct (v3_sign_resolution (sample.envOf (sample.quietNode 0) 10) sample.v3Log
              sample.cached sample.v3Info sample.cached)
    as (swap & Hrun & Hneg0 & _ & _ & Hpos1 & Htick & _).
  - vm_compute. lia.
  - reflexivity.
  - vm_compute. lia.
  - reflexivity.
  - exists swap. split; [exact Hrun|].
    destruct Hneg0 as [H1 H2]; [vm_compute; reflexivity|].
    destruct Hpos1 as [H3 H4]; [vm_compute; reflexivity|].
    rewrite H1, H2, H3, H4, Htick. vm_compute. auto.
Defined.

(** ** Absence of panics *)

Lemma noPanic_ret {A} (a : A) : noPanic (ret a).
Proof. intros st. split; discriminate. Qed.

Lemma noPanic_fail {A} e : noPanic (@fail A e).
Proof. intros st. split; discriminate. Qed.

Lemma noPanic_bind {A B} (m : M A) (k : A -> M B) :
  noPanic m -> (forall a, noPanic (k a)) -> noPanic (bind m k).
Proof.
  intros Hm Hk st. unfold bind. specialize (Hm st).
  destruct (m st) as [[a|e| |] st1]; simpl in *.
  - apply Hk.
  - split; discriminate.
  - tauto.
  - tauto.
Qed.

Lemma noPanic_wrapErr {A} ctx (m : M A) : noPanic m -> noPanic (wrapErr ctx m).
Proof.
  intros Hm st. unfold wrapErr. specialize (Hm st).
  destruct (m st) as [[a|e| |] st1]; simpl in *; try tauto; split; discriminate.
Qed.

Lemma noPanic_withRetry {A} env op req (answer : nat -> option A) :
  noPanic (eth.withRetry env op req answer).
Proof.
  intros st. unfold eth.withRetry.
  destruct (eth.retry _ req answer st) as [[a|] st1]; split; discriminate.
Qed.

Create HintDb nopanic.
#[local] Hint Resolve noPanic_ret noPanic_fail noPanic_wrapErr noPanic_withRetry
  : nopanic.

Ltac no_panic :=
  repeat first
    [ apply noPanic_bind; [|intros ?]
    | match goal with |- noPanic (if ?c then _ else _) => destruct c end
    | solve [auto with nopanic] ].

Lemma noPanic_v2_getPoolInfo env pool : noPanic (uniswapv2.getPoolInfo env pool).
Proof.
  intros st. unfold uniswapv2.getPoolInfo.
  destruct (v2Cache st !! pool); [split; discriminate|].
  revert st. change (noPanic
    (bind (wrapErr "failed to get token0" (uniswapv2.callToken0 env pool)) (fun token0 =>
     bind (wrapErr "failed to get token1" (uniswapv2.callToken1 env pool)) (fun token1 =>
     fun st' => (Ok {| v2types.Token0 := token0; v2types.Token1 := token1;
                       v2types.Reserve0 := None; v2types.Reserve1 := None |},
                 setV2Cache (<[pool := {| v2types.Token0 := token0;
                                          v2types.Token1 := token1;
                                          v2types.Reserve0 := None;
                                          v2types.Reserve1 := None |}]> (v2Cache st')) st'))))).
  unfold uniswapv2.callToken0, uniswapv2.callToken1, eth.CallContract.
  apply noPanic_bind; [apply noPanic_wrapErr; no_panic|intros token0].
  apply noPanic_bind; [apply noPanic_wrapErr; no_panic|intros token1].
  intros st. split; discriminate.
Qed.

Lemma noPanic_v3_getPoolInfo env pool : noPanic (uniswapv3.getPoolInfo env pool).
Proof.
  intros st. unfold uniswapv3.getPoolInfo.
  destruct (v3Cache st !! pool); [split; discriminate|].
  revert st. change (noPanic
    (bind (wrapErr "failed to get token0" (uniswapv3.callToken0 env pool)) (fun token0 =>
     bind (wrapErr "failed to get token1" (uniswapv3.callToken1 env pool)) (fun token1 =>
     bind (wrapErr "failed to get fee" (uniswapv3.callFee env pool)) (fun fee =>
     fun st' => (Ok {| v3types.Token0 := token0; v3types.Token1 := token1;
                       v3types.Fee := fee |},
                 setV3Cache (<[pool := {| v3types.Token0 := token0;
                                          v3types.Token1 := token1;
                                          v3types.Fee := fee |}]> (v3Cache st')) st')))))).
  unfold uniswapv3.callToken0, uniswapv3.callToken1, uniswapv3.callFee,
    eth.CallContract.
  apply noPanic_bind; [apply noPanic_wrapErr; no_panic|intros token0].
  apply noPanic_bind; [apply noPanic_wrapErr; no_panic|intros token1].
  apply noPanic_bind; [apply noPanic_wrapErr; no_panic|intros fee].
  intros st. split; discriminate.
Qed.

Lemma noPanic_v2_DecodeSwapLog env log : noPanic (uniswapv2.DecodeSwapLog env log).
Proof.
  unfold uniswapv2.DecodeSwapLog.
  pose proof (noPanic_v2_getPoolInfo env (logAddress log)). no_panic.
Qed.

Lemma noPanic_v3_DecodeSwapLog env log : noPanic (uniswapv3.DecodeSwapLog env log).
Proof.
  unfold uniswapv3.DecodeSwapLog.
  pose proof (noPanic_v3_getPoolInfo env (logAddress log)).
  repeat match goal with |- noPanic (if ?c then _ else _) => destruct c end;
    try solve [auto with nopanic].
  all: apply noPanic_bind; [auto with nopanic|intros info].
  all: destruct (0 <? _), (0 <? _); auto with nopanic.
Qed.

Lemma noPanic_DecodeSwapLog env log : noPanic (decoder.DecodeSwapLog env log).
Proof.
  unfold decoder.DecodeSwapLog.
  pose proof (noPanic_v2_DecodeSwapLog env log).
  pose proof (noPanic_v3_DecodeSwapLog env log).
  destruct (logTopics log); no_panic.
Qed.

Lemma decodeEach_ok env logs swaps st :
  exists swaps' st', decoder.decodeEach env logs swaps st = (Ok swaps', st').
Proof.
  revert swaps st. induction logs as [|log rest IH]; intros swaps st; simpl.
  - eauto.
  - pose proof (noPanic_DecodeSwapLog env log st) as Hnp.
    destruct (decoder.DecodeSwapLog env log st) as [[[swap|]|e| |] st1];
      simpl in Hnp; try tauto; apply IH.
Qed.

(** Decoding the logs of a transaction always returns a swap list: no error
    of a single log reaches the caller. *)
Lemma DecodeSwapsForTransaction_ok env logs st :
  exists swaps st', decoder.DecodeSwapsForTransaction env logs st = (Ok swaps, st').
Proof.
  unfold decoder.DecodeSwapsForTransaction.
  destruct (decodeEach_ok env logs [] st) as (swaps & st' & H).
  rewrite (bind_ok _ _ _ _ _ H). unfold ret. eauto.
Qed.

(** ** Malformed logs *)

Lemma malformed_v2 env log st :
  malformed uniswap_v2 log ->
  exists e, uniswapv2.DecodeSwapLog env log st = (Err e, st).
Proof.
  intros [Ht|Hd]; unfold uniswapv2.DecodeSwapLog.
  - replace (length (logTopics log) <? 3)%nat with true
      by (symmetry; apply Nat.ltb_lt; exact Ht).
    eexists. reflexivity.
  - destruct (length (logTopics log) <? 3)%nat; [eexists; reflexivity|].
    destruct (negb _); [eexists; reflexivity|].
    replace (length (logData log) <? 128)%nat with true
      by (symmetry; apply Nat.ltb_lt; exact Hd).
    eexists. reflexivity.
Qed.

Lemma malformed_v3 env log st :
  malformed uniswap_v3 log ->
  exists e, uniswapv3.DecodeSwapLog env log st = (Err e, st).
Proof.
  intros [Ht|Hd]; unfold uniswapv3.DecodeSwapLog.
  - replace (length (logTopics log) <? 3)%nat with true
      by (symmetry; apply Nat.ltb_lt; exact Ht).
    eexists. reflexivity.
  - destruct (length (logTopics log) <? 3)%nat; [eexists; reflexivity|].
    destruct (negb _); [eexists; reflexivity|].
    replace (length (logData log) <? 160)%nat with true
      by (symmetry; apply Nat.ltb_lt; exact Hd).
    eexists. reflexivity.
Qed.

(** Through the unified decoder a malformed log of protocol [p] yields no
    swap and leaves the state alone. *)
Lemma malformed_unified env p log st :
  malformed p log ->
  head (logTopics log) = Some (signature p) ->
  decoder.DecodeSwapLog env log st = (Ok None, st)
  \/ exists e, decoder.DecodeSwapLog env log st = (Err e, st).
Proof.
  intros Hbad Hhead. unfold decoder.DecodeSwapLog.
  destruct (logTopics log) as [|topic0 rest] eqn:Et; [discriminate|].
  simpl in Hhead. inversion Hhead; subst topic0. destruct p; simpl.
  - destruct (EnableUniswapV2 (cfg env)); [|left; reflexivity].
    destruct (malformed_v2 env log st Hbad) as [e He].
    right. exists e. apply bind_err. exact He.
  - destruct (EnableUniswapV3 (cfg env)); [|left; reflexivity].
    destruct (malformed_v3 env log st Hbad) as [e He].
    right. exists e. apply bind_err. exact He.
Qed.

Lemma decodeEach_skip env log before after :
  (forall st, decoder.DecodeSwapLog env log st = (Ok None, st)
              \/ exists e, decoder.DecodeSwapLog env log st = (Err e, st)) ->
  forall swaps st,
    decoder.decodeEach env (before ++ log :: after) swaps st
    = decoder.decodeEach env (before ++ after) swaps st.
Proof.
  intros Hskip. induction before as [|l before IH]; intros swaps st; simpl.
  - destruct (Hskip st) as [H|[e H]]; rewrite H; reflexivity.
  - destruct (decoder.DecodeSwapLog env l st) as [[[swap|]|e| |] st1];
      try apply IH; reflexivity.
Qed.

(** C8. A log of either protocol with fewer than three topics or a payload
    below the protocol's minimum (128 bytes for the simple-curve protocol,
    160 for the tick-based one) makes that protocol's decoder fail with an
    error, without a swap and without touching the state; and in a batch the
    log is simply passed over: decoding the transaction gives the same
    swaps and the same state as if the log were absent, and never an
    error. *)
Theorem malformed_log_is_skipped env p log st :
  malformed p log ->
  (exists e, protocolDecode env p log st = (Err e, st))
  /\ (head (logTopics log) = Some (signature p) ->
      forall before after st0,
        decoder.DecodeSwapsForTransaction env (before ++ log :: after) st0
        = decoder.DecodeSwapsForTransaction env (before ++ after) st0
        /\ exists swaps st1,
             decoder.DecodeSwapsForTransaction env (before ++ log :: after) st0
             = (Ok swaps, st1)).
Proof.
  intros Hbad. split.
  - destruct p; simpl; [apply malformed_v2|apply malformed_v3]; exact Hbad.
  - intros Hhead before after st0. split.
    + unfold decoder.DecodeSwapsForTransaction, bind.
      rewrite (decodeEach_skip env log before after); [reflexivity|].
      intros st'. apply (malformed_unified env p); assumption.
    + apply DecodeSwapsForTransaction_ok.
Qed.

Lemma malformed_log_is_skipped_witness :
  (exists e, uniswapv3.DecodeSwapLog (sample.envOf (sample.quietNode 0) 10)
               sample.shortLog sample.cached = (Err e, sample.cached))
  /\ decoder.DecodeSwapsForTransaction (sample.envOf (sample.quietNode 0) 10)
       ([] ++ sample.shortLog :: [sample.v3Log]) sample.cached
     = decoder.DecodeSwapsForTransaction (sample.envOf (sample.quietNode 0) 10)
         ([] ++ [sample.v3Log]) sample.cached.
Proof.
  destruct (malformed_log_is_skipped (sample.envOf (sample.quietNode 0) 10)
              uniswap_v3 sample.shortLog sample.cached) as [Herr Hskip].
  - right. vm_compute. lia.
  - split; [exact Herr|].
    destruct (Hskip eq_refl [] [sample.v3Log] sample.cached) as [Heq _].
    exact Heq.
Defined.

(** ** The pool-metadata caches *)

Lemma call_frame {A} env to data (k : list byte -> M A) st r st' :
  (forall res s, (k res s).2 = s) ->
  bind (eth.CallContract env to data) k st = (r, st') ->
  v2Cache st' = v2Cache st /\ v3Cache st' = v3Cache st.
Proof.
  intros Hk. unfold bind, eth.CallContract.
  destruct (eth.withRetry env opCallContract (ReqCallContract to data) _ st)
    as [[res|e| |] s1] eqn:E; apply withRetry_caches in E as (E2 & E3 & _).
  - intros H. pose proof (Hk res s1) as Hs. rewrite H in Hs. simpl in Hs.
    subst s1. auto.
  - intros H. inversion H; subst. auto.
  - intros H. inversion H; subst. auto.
  - intros H. inversion H; subst. auto.
Qed.

Ltac call_frame_tac :=
  intros H; eapply call_frame; [|exact H];
  intros res s; simpl; destruct (length res <? 32)%nat; reflexivity.

Lemma v2_callToken0_frame env pool st r st' :
  uniswapv2.callToken0 env pool st = (r, st') ->
  v2Cache st' = v2Cache st /\ v3Cache st' = v3Cache st.
Proof. unfold uniswapv2.callToken0. call_frame_tac. Qed.

Lemma v2_callToken1_frame env pool st r st' :
  uniswapv2.callToken1 env pool st = (r, st') ->
  v2Cache st' = v2Cache st /\ v3Cache st' = v3Cache st.
Proof. unfold uniswapv2.callToken1. call_frame_tac. Qed.




(** The lookup on a cache miss, call by call. *)
Lemma v2_getPoolInfo_miss env pool st :
  v2Cache st !! pool = None ->
  uniswapv2.getPoolInfo env pool st =
  match uniswapv2.callToken0 env pool st with
  | (Ok token0, st1) =>
      match uniswapv2.callToken1 env pool st1 with
      | (Ok token1, st2) =>
          let info := {| v2types.Token0 := token0; v2types.Token1 := token1;
                         v2types.Reserve0 := None; v2types.Reserve1 := None |} in
          (Ok info, setV2Cache (<[pool := info]> (v2Cache st2)) st2)
      | (Err e, st2) => (Err (Wrapped "failed to get token1" e), st2)
      | (Panic, st2) => (Panic, st2)
      | (NeverReturns, st2) => (NeverReturns, st2)
      end
  | (Err e, st1) => (Err (Wrapped "failed to get token0" e), st1)
  | (Panic, st1) => (Panic, st1)
  | (NeverReturns, st1) => (NeverReturns, st1)
  end.
Proof.
  intros Hmiss. unfold uniswapv2.getPoolInfo. rewrite Hmiss.
  unfold bind, wrapErr.
  destruct (uniswapv2.callToken0 env pool st) as [[t0|e| |] st1]; try reflexivity.
  destruct (uniswapv2.callToken1 env pool st1) as [[t1|e| |] st2]; reflexivity.
Qed.

Lemma v3_getPoolInfo_miss env pool st :
  v3Cache st !! pool = None ->
  uniswapv3.getPoolInfo env pool st =
  match uniswapv3.callToken0 env pool st with
  | (Ok token0, st1) =>
      match uniswapv3.callToken1 env pool st1 with
      | (Ok token1, st2) =>
          match uniswapv3.callFee env pool st2 with
          | (Ok fee, st3) =>
              let info := {| v3types.Token0 := token0; v3types.Token1 := token1;
                             v3types.Fee := fee |} in
              (Ok info, setV3Cache (<[pool := info]> (v3Cache st3)) st3)
          | (Err e, st3) => (Err (Wrapped "failed to get fee" e), st3)
          | (Panic, st3) => (Panic, st3)
          | (NeverReturns, st3) => (NeverReturns, st3)
          end
      | (Err e, st2) => (Err (Wrapped "failed to get token1" e), st2)
      | (Panic, st2) => (Panic, st2)
      | (NeverReturns, st2) => (NeverReturns, st2)
      end
  | (Err e, st1) => (Err (Wrapped "failed to get token0" e), st1)
  | (Panic, st1) => (Panic, st1)
  | (NeverReturns, st1) => (NeverReturns, st1)
  end.
Proof.
  intros Hmiss. unfold uniswapv3.getPoolInfo. rewrite Hmiss.
  unfold bind, wrapErr.
  destruct (uniswapv3.callToken0 env pool st) as [[t0|e| |] st1]; try reflexivity.
  destruct (uniswapv3.callToken1 env pool st1) as [[t1|e| |] st2]; try reflexivity.
  destruct (uniswapv3.callFee env pool st2) as [[fee|e| |] st3]; reflexivity.
Qed.


Lemma v2_getPoolInfo_effect env pool st r st' :
  uniswapv2.getPoolInfo env pool st = (r, st') ->
  (v2Cache st' = v2Cache st /\ (forall info, r = Ok info -> v2Cache st !! pool = Some info))
  \/ (exists info, r = Ok info /\ v2Cache st !! pool = None
                   /\ v2Cache st' = <[pool := info]> (v2Cache st)).
Proof.
  destruct (v2Cache st !! pool) as [cached|] eqn:Hc.
  - unfold uniswapv2.getPoolInfo. rewrite Hc. intros H; inversion H; subst.
    left. split; [reflexivity|]. intros info Hi. inversion Hi; subst. reflexivity.
  - rewrite (v2_getPoolInfo_miss env pool st Hc).
    destruct (uniswapv2.callToken0 env pool st) as [[t0|e| |] st1] eqn:E0;
      apply v2_callToken0_frame in E0 as [F0 _].
    2,3,4: intros H; inversion H; subst; left; split; [exact F0|discriminate].
    destruct (uniswapv2.callToken1 env pool st1) as [[t1|e| |] st2] eqn:E1;
      apply v2_callToken1_frame in E1 as [F1 _].
    2,3,4: intros H; inversion H; subst; left; split; [congruence|discriminate].
    intros H; inversion H; subst. right. eexists. split; [reflexivity|].
    split; [reflexivity|]. simpl. congruence.
Qed.


Lemma v3_getPoolInfo_hit env st pool info :
  v3Cache st !! pool = Some info -> uniswapv3.getPoolInfo env pool st = (Ok info, st).
Proof. intros H. unfold uniswapv3.getPoolInfo. rewrite H. reflexivity. Qed.

Lemma v2_getPoolInfo_hit env st pool info :
  v2Cache st !! pool = Some info -> uniswapv2.getPoolInfo env pool st = (Ok info, st).
Proof. intros H. unfold uniswapv2.getPoolInfo. rewrite H. reflexivity. Qed.


(** A run against a node: the first lookup of a tick-based pool sends the
    three reads and stores the entry; the second sends nothing. *)
Example pool_resolved_once :
  let env := {| node := sample.poolNode; cfg := sample.config 10;
                keccak256 := sample.lowerCase |} in
  let first := uniswapv3.getPoolInfo env sample.poolX (sample.initial 0) in
  let second := uniswapv3.getPoolInfo env sample.poolX first.2 in
  first.1 = Ok {| v3types.Token0 := sample.tokenA; v3types.Token1 := sample.tokenA;
                  v3types.Fee := 10 |}
  /\ length (requests first.2) = 3%nat
  /\ second.1 = first.1
  /\ length (requests second.2) = 3%nat.
Proof. vm_compute. repeat split; reflexivity. Qed.

(** ** The poll tick *)

(** Whatever the fetches return, [GetAllSwapLogs] returns a log list and no
    error. *)
Lemma GetAllSwapLogs_ok env fromBlock toBlock st :
  exists logs st',
    decoder.GetAllSwapLogs env fromBlock toBlock st = (Ok logs, st').
Proof.
  unfold decoder.GetAllSwapLogs.
  destruct (EnableUniswapV2 (cfg env));
    [destruct (uniswapv2.GetSwapLogs env fromBlock toBlock st) as [[l|e| |] s1]|];
    (destruct (EnableUniswapV3 (cfg env));
     [match goal with
      | |- context [uniswapv3.GetSwapLogs env fromBlock toBlock ?s] =>
          destruct (uniswapv3.GetSwapLogs env fromBlock toBlock s) as [[l'|e'| |] s2]
      end|]);
    eexists; eexists; reflexivity.
Qed.

Lemma withGas_ok env txHash arb st :
  exists arb' st', arbitrage.withGas env txHash arb st = (Ok arb', st').
Proof.
  unfold arbitrage.withGas.
  destruct (eth.TransactionReceipt env txHash st) as [[gasUsed|e| |] st1];
    [|eauto|eauto|eauto].
  destruct (eth.GetTransaction env txHash st1) as [[gasPrice|e| |] st2]; eauto.
Qed.

Lemma withGasEach_ok env txHash arbs st :
  exists arbs' st', arbitrage.withGasEach env txHash arbs st = (Ok arbs', st')
                    /\ length arbs' = length arbs.
Proof.
  revert st. induction arbs as [|arb rest IH]; intros st; simpl.
  - unfold ret. eauto.
  - destruct (withGas_ok env txHash arb st) as (arb' & st1 & H1).
    destruct (IH st1) as (rest' & st2 & H2 & Hlen).
    rewrite (bind_ok _ _ _ _ _ H1), (bind_ok _ _ _ _ _ H2).
    unfold ret. eexists; eexists. split; [reflexivity|]. simpl. lia.
Qed.

(** Detection never fails: a gas fetch that fails only leaves the net
    profit unset. *)
Lemma DetectArbitrage_ok env txHash swaps st :
  exists arbs st', arbitrage.DetectArbitrage env txHash swaps st = (Ok arbs, st').
Proof.
  unfold arbitrage.DetectArbitrage.
  destruct (length swaps <? 2)%nat; [unfold ret; eauto|].
  set (sorted := sortSlice decoder.swapLess swaps).
  destruct (arbitrage.detectCyclicArbitrage sorted) as [cyc|].
  - destruct (withGas_ok env txHash cyc st) as (arb' & st1 & H1).
    destruct (withGasEach_ok env txHash (arbitrage.detectCrossDEXArbitrage env sorted) st1)
      as (cross & st2 & H2 & _).
    assert (Hc : bind (arbitrage.withGas env txHash cyc) (fun arb => ret [arb]) st
                 = (Ok [arb'], st1))
      by (rewrite (bind_ok _ _ _ _ _ H1); reflexivity).
    rewrite (bind_ok _ _ _ _ _ Hc), (bind_ok _ _ _ _ _ H2). unfold ret. eauto.
  - destruct (withGasEach_ok env txHash (arbitrage.detectCrossDEXArbitrage env sorted) st)
      as (cross & st2 & H2 & _).
    rewrite (bind_ok _ _ st [] st) by reflexivity.
    rewrite (bind_ok _ _ _ _ _ H2). unfold ret. eauto.
Qed.

Lemma processTransactions_ok env txLogs totalSwaps totalArbitrages st :
  exists totals st',
    inspector.processTransactions env txLogs totalSwaps totalArbitrages st
    = (Ok totals, st').
Proof.
  revert totalSwaps totalArbitrages st.
  induction txLogs as [|[txHash logs] rest IH]; intros a b st; simpl.
  - eauto.
  - destruct (DecodeSwapsForTransaction_ok env logs st) as (swaps & st1 & H1).
    rewrite H1.
    destruct (DetectArbitrage_ok env txHash swaps st1) as (arbs & st2 & H2).
    rewrite H2.
    destruct (inspector.reportEach arbs st2) as [r st3]. apply IH.
Qed.

Lemma insertSorted_perm {A} (less : A -> A -> bool) x l :
  insertSorted less x l ≡ₚ x :: l.
Proof.
  induction l as [|y l IH]; simpl; [reflexivity|].
  destruct (less x y); [reflexivity|].
  rewrite IH. apply Permutation_swap.
Qed.

Lemma sortSlice_perm {A} (less : A -> A -> bool) l : sortSlice less l ≡ₚ l.
Proof.
  unfold sortSlice.
  assert (H : forall acc, fold_left (fun sorted x => insertSorted less x sorted) l acc
                          ≡ₚ l ++ acc).
  { induction l as [|x l IH]; intros acc; simpl; [reflexivity|].
    rewrite IH, insertSorted_perm. symmetry. apply Permutation_middle. }
  rewrite H, app_nil_r. reflexivity.
Qed.

(** What [GetAllSwapLogs] returns: the logs of the two fetches, those of a
    disabled or failed protocol counting as none, sorted. *)
Lemma GetAllSwapLogs_fetched env fromBlock toBlock st :
  exists st',
    decoder.GetAllSwapLogs env fromBlock toBlock st
    = (Ok (sortSlice decoder.logLess
             (fetchedV2 env fromBlock toBlock st ++ fetchedV3 env fromBlock toBlock st)),
       st').
Proof.
  unfold decoder.GetAllSwapLogs, fetchedV2, fetchedV3, afterV2Fetch.
  destruct (EnableUniswapV2 (cfg env));
    [destruct (uniswapv2.GetSwapLogs env fromBlock toBlock st) as [[l|e| |] s1]|];
    simpl;
    (destruct (EnableUniswapV3 (cfg env));
     [match goal with
      | |- context [uniswapv3.GetSwapLogs env fromBlock toBlock ?s] =>
          destruct (uniswapv3.GetSwapLogs env fromBlock toBlock s) as [[l'|e'| |] s2]
      end|]);
    simpl; rewrite ?app_nil_r; eexists; reflexivity.
Qed.

(** Below the largest [uint64] the completion loop ends. *)
Lemma completeEach_ok fromBlock toBlock st :
  toBlock <> 2 ^ 64 - 1 ->
  inspector.completeEach fromBlock toBlock st = (Ok tt, st).
Proof.
  intros Hmax. unfold inspector.completeEach.
  destruct (toBlock <? fromBlock); [reflexivity|].
  destruct (Z.eqb_spec toBlock (2 ^ 64 - 1)); [contradiction|reflexivity].
Qed.

(** A range whose block count does not wrap to zero and whose upper bound
    is not the largest [uint64] is processed to the end, whatever the node
    answered. *)
Lemma processBlockRange_ok env fromBlock toBlock st :
  i64 (u64 (toBlock - fromBlock + 1)) <> 0 ->
  toBlock <> 2 ^ 64 - 1 ->
  exists st', inspector.processBlockRange env fromBlock toBlock st = (Ok tt, st').
Proof.
  intros Hcount Hmax. unfold inspector.processBlockRange.
  destruct (GetAllSwapLogs_ok env fromBlock toBlock st) as (logs & st1 & H1).
  rewrite (bind_ok _ _ _ _ _ H1).
  destruct (length logs =? 0)%nat; [rewrite completeEach_ok by exact Hmax; eauto|].
  destruct (processTransactions_ok env (decoder.GroupSwapsByTransaction logs) 0 0 st1)
    as (totals & st2 & H2).
  rewrite (bind_ok _ _ _ _ _ H2).
  destruct (Z.eqb_spec (i64 (u64 (toBlock - fromBlock + 1))) 0); [contradiction|].
  rewrite completeEach_ok by exact Hmax. eauto.
Qed.

(** The state in which a range ends is the state after processing the
    transactions of its logs. *)
Lemma processBlockRange_run env fromBlock toBlock st logs st1 totals st2 :
  decoder.GetAllSwapLogs env fromBlock toBlock st = (Ok logs, st1) ->
  inspector.processTransactions env (decoder.GroupSwapsByTransaction logs) 0 0 st1
  = (Ok totals, st2) ->
  i64 (u64 (toBlock - fromBlock + 1)) <> 0 ->
  toBlock <> 2 ^ 64 - 1 ->
  inspector.processBlockRange env fromBlock toBlock st = (Ok tt, st2).
Proof.
  intros H1 H2 Hcount Hmax. unfold inspector.processBlockRange.
  rewrite (bind_ok _ _ _ _ _ H1).
  destruct logs as [|log logs'].
  - cbn in H2. inversion H2; subst. cbn [length Nat.eqb].
    apply completeEach_ok. exact Hmax.
  - cbn [length Nat.eqb]. rewrite (bind_ok _ _ _ _ _ H2).
    destruct (Z.eqb_spec (i64 (u64 (toBlock - fromBlock + 1))) 0); [contradiction|].
    apply completeEach_ok. exact Hmax.
Qed.

(** The block count of a non-empty range below the largest [uint64] does
    not convert to zero. *)
Lemma block_count_nonzero fromBlock toBlock :
  0 <= fromBlock -> fromBlock <= toBlock -> toBlock < 2 ^ 64 - 1 ->
  i64 (u64 (toBlock - fromBlock + 1)) <> 0.
Proof.
  intros Hf Hle Hmax. rewrite u64_id by lia.
  unfold i64. rewrite Z.mod_small by lia.
  destruct (_ <? _); lia.
Qed.

Lemma BlockNumber_range env st head st1 :
  eth.BlockNumber env st = (Ok head, st1) -> 0 <= head < 2 ^ 64.
Proof.
  unfold eth.BlockNumber, eth.withRetry.
  destruct (eth.retry _ _ _ st) as [[a|] s] eqn:E; [|discriminate].
  intros H. inversion H; subst. clear H. revert st E.
  generalize (Z.to_nat (RetryAttempts (cfg env))).
  induction n as [|n IH]; intros st E; simpl in E; [discriminate|].
  destruct (nodeBlockNumber (node env) (now st)) as [h|]; simpl in E.
  - inversion E; subst. apply u64_range.
  - eapply IH. exact E.
Qed.

Lemma selectRange_bounds env watermark head fromBlock toBlock :
  0 <= head < 2 ^ 64 ->
  inspector.selectRange env watermark head = Some (fromBlock, toBlock) ->
  fromBlock = u64 (watermark + 1) /\ fromBlock <= head
  /\ 0 <= fromBlock < 2 ^ 64 /\ 0 <= toBlock < 2 ^ 64.
Proof.
  intros Hh. unfold inspector.selectRange.
  pose proof (u64_range (watermark + 1)) as Hf.
  destruct (Z.ltb_spec head (u64 (watermark + 1))) as [|Hge]; [discriminate|].
  intros Hsel. inversion Hsel; subst. split; [reflexivity|]. split; [lia|].
  split; [exact Hf|].
  destruct (u64 (BatchSize (cfg env)) <? _); [apply u64_range|exact Hh].
Qed.

(** A failed head lookup, by contrast, ends the tick with that error and
    leaves the watermark where it was. *)
Lemma head_lookup_failure_keeps_watermark env st e st1 :
  eth.BlockNumber env st = (Err e, st1) ->
  inspector.processNewBlocks env st = (Err e, st1)
  /\ lastBlock st1 = lastBlock st.
Proof.
  intros H. split.
  - unfold inspector.processNewBlocks. apply bind_err. exact H.
  - unfold eth.BlockNumber in H. apply withRetry_caches in H. tauto.
Qed.

(** C1 (amended). A poll tick in which the log fetch of an enabled protocol
    fails after all its retries is not fatal. The failed protocol
    contributes no log: the range is processed with the logs the other
    fetch returned. For a non-empty selected range whose upper bound is
    below the largest uint64, the tick completes without error in the
    state reached by processing the transactions of those logs, and the
    watermark advances to the upper bound of the range, so that the next
    tick starts at the block after it and the range is not retried. *)
Theorem log_fetch_failure_is_not_fatal env st head st1 fromBlock toBlock :
  eth.BlockNumber env st = (Ok head, st1) ->
  inspector.selectRange env (lastBlock st) head = Some (fromBlock, toBlock) ->
  fromBlock <= toBlock -> toBlock < 2 ^ 64 - 1 ->
  logFetchFails env fromBlock toBlock st1 ->
  exists logs st2 totals st3 st',
    decoder.GetAllSwapLogs env fromBlock toBlock st1 = (Ok logs, st2)
    /\ ((EnableUniswapV2 (cfg env) = true
         /\ isErr (uniswapv2.GetSwapLogs env fromBlock toBlock st1).1 = true
         /\ logs ≡ₚ fetchedV3 env fromBlock toBlock st1)
        \/ (EnableUniswapV3 (cfg env) = true
            /\ isErr (uniswapv3.GetSwapLogs env fromBlock toBlock
                        (afterV2Fetch env fromBlock toBlock st1)).1 = true
            /\ logs ≡ₚ fetchedV2 env fromBlock toBlock st1))
    /\ inspector.processTransactions env (decoder.GroupSwapsByTransaction logs) 0 0 st2
       = (Ok totals, st3)
    /\ st' = setLastBlock toBlock st3
    /\ inspector.processNewBlocks env st = (Ok tt, st')
    /\ lastBlock st' = toBlock
    /\ u64 (lastBlock st' + 1) = toBlock + 1.
Proof.
  intros Hhead Hsel Hle Hmax Hfail.
  pose proof (BlockNumber_range env st head st1 Hhead) as Hh.
  destruct (selectRange_bounds env _ _ _ _ Hh Hsel) as (_ & _ & Hf & Ht).
  assert (Hsame : lastBlock st1 = lastBlock st).
  { unfold eth.BlockNumber in Hhead. apply withRetry_caches in Hhead. tauto. }
  destruct (GetAllSwapLogs_fetched env fromBlock toBlock st1) as (st2 & Hlogs).
  set (logs := sortSlice decoder.logLess
                 (fetchedV2 env fromBlock toBlock st1
                  ++ fetchedV3 env fromBlock toBlock st1)) in *.
  destruct (processTransactions_ok env (decoder.GroupSwapsByTransaction logs) 0 0 st2)
    as (totals & st3 & Hp).
  assert (Hrun : inspector.processBlockRange env fromBlock toBlock st1 = (Ok tt, st3)).
  { eapply processBlockRange_run; [exact Hlogs|exact Hp| |lia].
    apply block_count_nonzero; lia. }
  exists logs, st2, totals, st3, (setLastBlock toBlock st3).
  split; [exact Hlogs|]. split.
  - subst logs. destruct Hfail as [[He Hf2]|[He Hf3]]; [left|right];
      (split; [exact He|]); (split; [assumption|]); rewrite sortSlice_perm.
    + unfold fetchedV2. rewrite He.
      destruct (uniswapv2.GetSwapLogs env fromBlock toBlock st1).1;
        try discriminate; reflexivity.
    + unfold fetchedV3 at 1. rewrite He.
      destruct (uniswapv3.GetSwapLogs env fromBlock toBlock
                  (afterV2Fetch env fromBlock toBlock st1)).1;
        try discriminate; cbn [okOrEmpty]; rewrite app_nil_r; reflexivity.
  - split; [exact Hp|]. split; [reflexivity|]. split.
    + unfold inspector.processNewBlocks. rewrite (bind_ok _ _ _ _ _ Hhead).
      rewrite Hsame, Hsel, Hrun. reflexivity.
    + cbn [lastBlock setLastBlock]. split; [reflexivity|]. apply u64_id. lia.
Qed.

Lemma log_fetch_failure_is_not_fatal_witness :
  exists st',
    inspector.processNewBlocks (sample.envOf (sample.deafNode 5) 10) (sample.initial 3)
    = (Ok tt, st')
    /\ lastBlock st' = 5
    /\ u64 (lastBlock st' + 1) = 6.
Proof.
  destruct (log_fetch_failure_is_not_fatal (sample.envOf (sample.deafNode 5) 10)
              (sample.initial 3) 5
              (eth.BlockNumber (sample.envOf (sample.deafNode 5) 10)
                 (sample.initial 3)).2
              4 5)
    as (logs & st2 & totals & st3 & st' & _ & _ & _ & _ & Hrun & Hw & Hnext).
  - reflexivity.
  - reflexivity.
  - lia.
  - lia.
  - left. split; reflexivity.
  - exists st'. split; [exact Hrun|]. split; [exact Hw|exact Hnext].
Defined.

(** C1 (counterexample). Head 5, watermark 3, and a node that answers no
    log query: both log fetches fail after three attempts each, yet the
    tick reports no error and moves the watermark from 3 to 5, so the range
    [4, 5] is not retried. *)
Lemma log_fetch_failure_advances_watermark :
  let env := sample.envOf (sample.deafNode 5) 10 in
  let st := sample.initial 3 in
  let st1 := (eth.BlockNumber env st).2 in
  inspector.selectRange env (lastBlock st) 5 = Some (4, 5)
  /\ (uniswapv2.GetSwapLogs env 4 5 st1).1 = Err (RetriesExhausted opGetLogs 3)
  /\ logFetchFails env 4 5 st1
  /\ (inspector.processNewBlocks env st).1 = Ok tt
  /\ lastBlock (inspector.processNewBlocks env st).2 = 5
  /\ lastBlock (inspector.processNewBlocks env st).2 <> lastBlock st.
Proof.
  repeat split; try reflexivity.
  - left. split; reflexivity.
  - vm_compute. discriminate.
Qed.

(** * Further properties of the code *)

(** ** Sorting *)

Section SortedBy.
Context {A : Type} (less : A -> A -> bool) (R : relation A).
Hypothesis less_R : forall x y, less x y = true -> R x y.
Hypothesis not_less_R : forall x y, less x y = false -> R y x.

Lemma insertSorted_Sorted x l : Sorted R l -> Sorted R (insertSorted less x l).
Proof.
  induction l as [|y l IH]; simpl; intros Hs.
  - repeat constructor.
  - destruct (less x y) eqn:E.
    + constructor; [exact Hs|]. constructor. apply less_R. exact E.
    + apply Sorted_inv in Hs as [Hs Hhd]. constructor; [apply IH; exact Hs|].
      destruct l as [|z l]; simpl.
      * constructor. apply not_less_R. exact E.
      * destruct (less x z).
        -- constructor. apply not_less_R. exact E.
        -- constructor. apply HdRel_inv in Hhd. exact Hhd.
Qed.

Lemma sortSlice_Sorted l : Sorted R (sortSlice less l).
Proof.
  unfold sortSlice.
  assert (H : forall acc, Sorted R acc ->
              Sorted R (fold_left (fun sorted x => insertSorted less x sorted) l acc)).
  { induction l as [|x l IH]; intros acc Hacc; simpl; [exact Hacc|].
    apply IH, insertSorted_Sorted, Hacc. }
  apply H. constructor.
Qed.
End SortedBy.

#[local] Instance logOrder_trans : Transitive logOrder.
Proof. unfold logOrder. intros a b c H1 H2. lia. Qed.

#[local] Instance swapOrder_trans : Transitive swapOrder.
Proof. unfold swapOrder. intros a b c H1 H2. lia. Qed.

Lemma logLess_order a b : decoder.logLess a b = true -> logOrder a b.
Proof.
  unfold decoder.logLess, logOrder.
  destruct (Z.eqb_spec (logBlockNumber a) (logBlockNumber b)); simpl;
    intros H; apply Z.ltb_lt in H; lia.
Qed.

Lemma logLess_order_neg a b : decoder.logLess a b = false -> logOrder b a.
Proof.
  unfold decoder.logLess, logOrder.
  destruct (Z.eqb_spec (logBlockNumber a) (logBlockNumber b)); simpl;
    intros H; apply Z.ltb_ge in H; lia.
Qed.

Lemma swapLess_order a b : decoder.swapLess a b = true -> swapOrder a b.
Proof. unfold decoder.swapLess, swapOrder. intros H. apply Z.ltb_lt in H. lia. Qed.

Lemma swapLess_order_neg a b : decoder.swapLess a b = false -> swapOrder b a.
Proof. unfold decoder.swapLess, swapOrder. intros H. apply Z.ltb_ge in H. lia. Qed.

Lemma sortSlice_swaps_sorted swaps :
  StronglySorted swapOrder (sortSlice decoder.swapLess swaps).
Proof.
  apply Sorted_StronglySorted; [apply swapOrder_trans|].
  apply sortSlice_Sorted; [apply swapLess_order|apply swapLess_order_neg].
Qed.

(** X1. [GetAllSwapLogs] returns exactly the logs its fetches brought back
    (those of a disabled or failed protocol count as none), rearranged in
    non-decreasing order of block number and, within a block, log index. *)
Theorem GetAllSwapLogs_sorted_permutation env fromBlock toBlock st :
  exists logs st',
    decoder.GetAllSwapLogs env fromBlock toBlock st = (Ok logs, st')
    /\ logs ≡ₚ fetchedV2 env fromBlock toBlock st ++ fetchedV3 env fromBlock toBlock st
    /\ StronglySorted logOrder logs.
Proof.
  unfold decoder.GetAllSwapLogs, fetchedV2, fetchedV3, afterV2Fetch.
  destruct (EnableUniswapV2 (cfg env));
    [destruct (uniswapv2.GetSwapLogs env fromBlock toBlock st) as [[l|e| |] s1]|];
    simpl;
    (destruct (EnableUniswapV3 (cfg env));
     [match goal with
      | |- context [uniswapv3.GetSwapLogs env fromBlock toBlock ?s] =>
          destruct (uniswapv3.GetSwapLogs env fromBlock toBlock s) as [[l'|e'| |] s2]
      end|]);
    simpl; eexists; eexists; (split; [reflexivity|]);
    (split; [rewrite sortSlice_perm, ?app_nil_r; reflexivity|]);
    (apply Sorted_StronglySorted; [apply logOrder_trans|]);
    apply sortSlice_Sorted; auto using logLess_order, logLess_order_neg.
Qed.

(** ** Grouping *)

Section Grouping.
Context {K V : Type} `{EqDecision K} `{EqDecision V}.

Lemma groupLookup_append (k k' : K) (v : V) groups :
  groupLookup k' (groupAppend k v groups)
  = if decide (k' = k) then Some (default [] (groupLookup k groups) ++ [v])
    else groupLookup k' groups.
Proof.
  induction groups as [|[k0 vs] rest IH]; simpl.
  - destruct (decide (k' = k)); reflexivity.
  - destruct (decide (k = k0)) as [->|Hne]; simpl.
    + destruct (decide (k' = k0)); reflexivity.
    + destruct (decide (k' = k0)) as [->|Hne'].
      * destruct (decide (k0 = k)); [congruence|reflexivity].
      * rewrite IH. reflexivity.
Qed.

Lemma groupAppend_keys (k : K) (v : V) groups :
  (groupAppend k v groups).*1
  = if decide (k ∈ groups.*1) then groups.*1 else groups.*1 ++ [k].
Proof.
  induction groups as [|[k0 vs] rest IH].
  - reflexivity.
  - cbn [groupAppend]. destruct (decide (k = k0)) as [->|Hne].
    + rewrite !fmap_cons. cbn [fst]. 
      destruct (decide (k0 ∈ k0 :: rest.*1)) as [|Hn]; [reflexivity|].
      exfalso. apply Hn. left.
    + rewrite !fmap_cons, IH. cbn [fst].
      destruct (decide (k ∈ rest.*1)) as [Hin|Hnin];
        destruct (decide (k ∈ k0 :: rest.*1)) as [Hin'|Hnin']; try reflexivity.
      * exfalso. apply Hnin'. right. exact Hin.
      * apply elem_of_cons in Hin' as [?|?]; contradiction.
Qed.

Lemma groupAppend_NoDup (k : K) (v : V) groups :
  NoDup groups.*1 -> NoDup (groupAppend k v groups).*1.
Proof.
  intros Hnd. rewrite groupAppend_keys.
  destruct (decide (k ∈ groups.*1)) as [|Hnin]; [exact Hnd|].
  apply NoDup_app. split; [exact Hnd|]. split.
  - intros x Hx Hx'. apply list_elem_of_singleton in Hx'. subst. contradiction.
  - apply NoDup_singleton.
Qed.

Lemma groupLookup_elem (k : K) (g : list V) groups :
  NoDup groups.*1 -> ((k, g) ∈ groups <-> groupLookup k groups = Some g).
Proof.
  induction groups as [|[k0 vs] rest IH]; simpl; intros Hnd.
  - split; [intros H; inversion H|discriminate].
  - apply NoDup_cons in Hnd as [Hnin Hnd].
    destruct (decide (k = k0)) as [->|Hne].
    + split.
      * intros H. apply elem_of_cons in H as [H|H]; [congruence|].
        exfalso. apply Hnin. apply list_elem_of_fmap. exists (k0, g). auto.
      * intros H. inversion H; subst. left.
    + rewrite <- (IH Hnd). split.
      * intros H. apply elem_of_cons in H as [H|H]; [congruence|exact H].
      * intros H. right. exact H.
Qed.

Lemma groupAppend_total (k : K) (v : V) groups :
  length (concat (groupAppend k v groups).*2) = S (length (concat groups.*2)).
Proof.
  induction groups as [|[k0 vs] rest IH]; [reflexivity|].
  cbn [groupAppend]. destruct (decide (k = k0));
    rewrite !fmap_cons; cbn [snd concat]; rewrite !length_app.
  - cbn [length]. lia.
  - rewrite IH. lia.
Qed.

Variable key : V -> K.

Lemma groupBy_fold (k : K) xs acc :
  groupLookup k (fold_left (fun groups x => groupAppend (key x) x groups) xs acc)
  = match filter (fun x => key x = k) xs with
    | [] => groupLookup k acc
    | g => Some (default [] (groupLookup k acc) ++ g)
    end.
Proof.
  revert acc. induction xs as [|x xs IH]; intros acc; simpl; [reflexivity|].
  rewrite IH, groupLookup_append. rewrite filter_cons.
  destruct (decide (key x = k)) as [Hk|Hk].
  - destruct (decide (k = key x)); [|congruence]. simpl. subst k.
    destruct (filter (fun y => key y = key x) xs); simpl.
    + reflexivity.
    + rewrite <- app_assoc. reflexivity.
  - destruct (decide (k = key x)); [congruence|]. reflexivity.
Qed.

Lemma groupBy_NoDup xs : NoDup (groupBy key xs).*1.
Proof.
  unfold groupBy.
  assert (H' : forall acc, NoDup acc.*1 ->
             NoDup (fold_left (fun groups x => groupAppend (key x) x groups) xs acc).*1).
  { induction xs as [|x xs IH]; intros acc Hacc; simpl; [exact Hacc|].
    apply IH, groupAppend_NoDup, Hacc. }
  apply H'. constructor.
Qed.

(** The groups are the non-empty classes of the key, each in the order of
    the input. *)
Lemma groupBy_spec xs k g :
  (k, g) ∈ groupBy key xs <-> g <> [] /\ g = filter (fun x => key x = k) xs.
Proof.
  rewrite (groupLookup_elem k g _ (groupBy_NoDup xs)).
  unfold groupBy. rewrite groupBy_fold. simpl.
  destruct (filter (fun x => key x = k) xs) as [|y ys]; split.
  - discriminate.
  - intros [Hne ->]. contradiction.
  - intros H'. inversion H'; subst. split; [discriminate|reflexivity].
  - intros [_ ->]. reflexivity.
Qed.

Lemma groupBy_total xs : length (concat (groupBy key xs).*2) = length xs.
Proof.
  unfold groupBy.
  assert (H' : forall acc,
             length (concat (fold_left (fun groups x => groupAppend (key x) x groups)
                               xs acc).*2)
             = (length xs + length (concat acc.*2))%nat).
  { induction xs as [|x xs IH]; intros acc; simpl; [reflexivity|].
    rewrite IH, groupAppend_total. lia. }
  rewrite H'. simpl. lia.
Qed.
End Grouping.

(** X2. [GroupSwapsByTransaction] files every log under its transaction
    hash: the keys are pairwise distinct, and the group of a hash is the
    non-empty list of all logs with that hash, in their order in the input
    (so no log is lost, duplicated or moved to another transaction). *)
Theorem GroupSwapsByTransaction_spec (logs : list Log) :
  NoDup (decoder.GroupSwapsByTransaction logs).*1
  /\ (forall txHash group,
        (txHash, group) ∈ decoder.GroupSwapsByTransaction logs
        <-> group <> [] /\ group = filter (fun log => logTxHash log = txHash) logs)
  /\ length (concat (decoder.GroupSwapsByTransaction logs).*2) = length logs.
Proof.
  change (decoder.GroupSwapsByTransaction logs) with (groupBy logTxHash logs).
  split; [apply groupBy_NoDup|]. split; [|apply groupBy_total].
  intros txHash group. apply groupBy_spec.
Qed.

(** ** Token pairs and legs *)

Lemma keyOf_comm env t0 t1 : arbitrage.keyOf env t0 t1 = arbitrage.keyOf env t1 t0.
Proof.
  unfold arbitrage.keyOf, stringLess, String.ltb.
  rewrite (String.compare_antisym (Hex (keccak256 env) t1) (Hex (keccak256 env) t0)).
  destruct (String.compare (Hex (keccak256 env) t0) (Hex (keccak256 env) t1)) eqn:E;
    simpl; try reflexivity.
  apply String.compare_eq_iff in E. apply Hex_inj in E. subst. reflexivity.
Qed.

Lemma keyOf_cases env t0 t1 :
  arbitrage.keyOf env t0 t1 = (t0, t1) \/ arbitrage.keyOf env t0 t1 = (t1, t0).
Proof. unfold arbitrage.keyOf. destruct (stringLess _ _); auto. Qed.

(** X3. Cross-venue grouping puts two swaps of a transaction in the same
    group exactly when they trade the same unordered token pair, whichever
    of the two tokens each pool lists first. *)
Theorem pairSwaps_same_group env (swaps : list Swap) s1 s2 :
  s1 ∈ swaps -> s2 ∈ swaps ->
  ((exists pair group, (pair, group) ∈ arbitrage.pairSwaps env swaps
                       /\ s1 ∈ group /\ s2 ∈ group)
   <-> (Token0 s1 = Token0 s2 /\ Token1 s1 = Token1 s2)
       \/ (Token0 s1 = Token1 s2 /\ Token1 s1 = Token0 s2)).
Proof.
  intros H1 H2.
  change (arbitrage.pairSwaps env swaps)
    with (groupBy (fun s => arbitrage.keyOf env (Token0 s) (Token1 s)) swaps).
  split.
  - intros (pair & group & Hin & Hg1 & Hg2).
    apply groupBy_spec in Hin as [_ ->].
    apply list_elem_of_filter in Hg1 as [Hk1 _].
    apply list_elem_of_filter in Hg2 as [Hk2 _].
    rewrite <- Hk2 in Hk1.
    destruct (keyOf_cases env (Token0 s1) (Token1 s1)) as [E1|E1],
             (keyOf_cases env (Token0 s2) (Token1 s2)) as [E2|E2];
      rewrite E1, E2 in Hk1; inversion Hk1; auto.
  - intros Hsame.
    exists (arbitrage.keyOf env (Token0 s1) (Token1 s1)).
    exists (filter (fun s => arbitrage.keyOf env (Token0 s) (Token1 s)
                             = arbitrage.keyOf env (Token0 s1) (Token1 s1)) swaps).
    assert (Hg1 : s1 ∈ filter (fun s => arbitrage.keyOf env (Token0 s) (Token1 s)
                             = arbitrage.keyOf env (Token0 s1) (Token1 s1)) swaps).
    { apply list_elem_of_filter. split; [reflexivity|exact H1]. }
    split; [|split; [exact Hg1|]].
    + apply groupBy_spec. split; [|reflexivity].
      intros Hnil. rewrite Hnil in Hg1. inversion Hg1.
    + apply list_elem_of_filter. split; [|exact H2].
      destruct Hsame as [[-> ->]|[-> ->]]; [reflexivity|apply keyOf_comm].
Qed.

Lemma pairSwaps_same_group_witness :
  exists pair group,
    (pair, group) ∈ arbitrage.pairSwaps (sample.envOf (sample.quietNode 0) 10)
                      [sample.buyLeg; sample.sellLeg]
    /\ sample.buyLeg ∈ group /\ sample.sellLeg ∈ group.
Proof.
  apply (pairSwaps_same_group (sample.envOf (sample.quietNode 0) 10)
           [sample.buyLeg; sample.sellLeg] sample.buyLeg sample.sellLeg).
  - left.
  - right. left.
  - left. split; reflexivity.
Defined.

Lemma groupArbitrage_length group arb :
  arbitrage.groupArbitrage group = Some arb -> (2 <= length group)%nat.
Proof.
  unfold arbitrage.groupArbitrage.
  destruct (Nat.ltb_spec (length group) 2); [discriminate|lia].
Qed.

(** X4. A transaction with n swaps yields at most n/2 cross-venue
    findings: each pair group yields at most one, and only a group of at
    least two swaps yields any. *)
Theorem detectCrossDEXArbitrage_count env (swaps : list Swap) :
  (2 * length (arbitrage.detectCrossDEXArbitrage env swaps) <= length swaps)%nat
  /\ (length (arbitrage.detectCrossDEXArbitrage env swaps)
      <= length (arbitrage.pairSwaps env swaps))%nat.
Proof.
  unfold arbitrage.detectCrossDEXArbitrage.
  assert (Hgen : forall groups : list (arbitrage.pairKey * list Swap),
    (2 * length (omap (fun group => arbitrage.groupArbitrage group.2) groups)
     <= length (concat groups.*2))%nat
    /\ (length (omap (fun group => arbitrage.groupArbitrage group.2) groups)
        <= length groups)%nat).
  { induction groups as [|[pair g] rest [IH1 IH2]]; [simpl; lia|].
    rewrite fmap_cons. cbn [snd concat omap list_omap]. rewrite length_app.
    destruct (arbitrage.groupArbitrage g) as [arb|] eqn:E.
    - apply groupArbitrage_length in E. cbn [length]. split; lia.
    - cbn [length]. split; lia. }
  destruct (Hgen (arbitrage.pairSwaps env swaps)) as [H1 H2].
  split; [|exact H2].
  change (arbitrage.pairSwaps env swaps)
    with (groupBy (fun s => arbitrage.keyOf env (Token0 s) (Token1 s)) swaps) in H1.
  rewrite groupBy_total in H1. exact H1.
Qed.

(** X5. The leg selection of cross-venue detection is determined by the
    order of the group: the buy leg is the first swap of the group that
    spends the reference token, the sell leg the first swap that involves
    the reference token without spending it. *)
Theorem selectLegs_first (group : list Swap) :
  arbitrage.selectLegs group None None
  = (head (filter (fun s => arbitrage.isBuyLeg s = true) group),
     head (filter (fun s => arbitrage.involvesWETH s = true
                            /\ arbitrage.isBuyLeg s = false) group)).
Proof.
  assert (Hbuy : forall s, arbitrage.isBuyLeg s = true -> arbitrage.involvesWETH s = true).
  { intros s. unfold arbitrage.isBuyLeg, arbitrage.involvesWETH.
    destruct (bool_decide (Token0 s = arbitrage.WETH)),
      (bool_decide (Token1 s = arbitrage.WETH)); simpl; auto. }
  assert (Hgen : forall buy0 sell0,
    arbitrage.selectLegs group buy0 sell0
    = (if buy0 is None
       then head (filter (fun s => arbitrage.isBuyLeg s = true) group) else buy0,
       if sell0 is None
       then head (filter (fun s => arbitrage.involvesWETH s = true
                                   /\ arbitrage.isBuyLeg s = false) group)
       else sell0)).
  { induction group as [|s rest IH]; intros buy0 sell0.
    - simpl. destruct buy0, sell0; reflexivity.
    - cbn [arbitrage.selectLegs]. rewrite !filter_cons.
      destruct (arbitrage.involvesWETH s) eqn:Ew.
      + destruct (arbitrage.isBuyLeg s) eqn:Eb.
        * rewrite IH. rewrite decide_True by reflexivity.
          rewrite decide_False by (intros [_ ?]; discriminate).
          destruct buy0, sell0; reflexivity.
        * rewrite IH. rewrite decide_False by discriminate.
          rewrite decide_True by (split; reflexivity).
          destruct buy0, sell0; reflexivity.
      + rewrite IH.
        rewrite decide_False
          by (intros Hb; apply Hbuy in Hb; rewrite Ew in Hb; discriminate).
        rewrite decide_False by (intros [? _]; discriminate).
        reflexivity. }
  apply Hgen.
Qed.

(** ** The retry loop *)

Lemma now_send req st : now (send req st) = S (now st).
Proof. reflexivity. Qed.

Lemma retry_trace {A} n req (answer : nat -> option A) st r st' :
  eth.retry n req answer st = (r, st') ->
  exists k : nat,
    (k <= n)%nat
    /\ requests st' = replicate k req ++ requests st
    /\ match r with
       | Some a =>
           exists j : nat, k = S j /\ answer (now st + j)%nat = Some a
             /\ forall i : nat, (i < j)%nat -> answer (now st + i)%nat = None
       | None =>
           k = n /\ forall i : nat, (i < n)%nat -> answer (now st + i)%nat = None
       end.
Proof.
  revert st. induction n as [|n IH]; intros st H; simpl in H.
  - inversion H; subst. exists 0%nat. split; [lia|]. split; [reflexivity|].
    split; [reflexivity|]. intros i Hi. lia.
  - destruct (answer (now st)) as [a|] eqn:Ea.
    + inversion H; subst. exists 1%nat. split; [lia|]. split; [reflexivity|].
      exists 0%nat. split; [reflexivity|]. rewrite Nat.add_0_r.
      split; [exact Ea|]. intros i Hi. lia.
    + apply IH in H as (k & Hk & Hreq & Hr). exists (S k). split; [lia|].
      split.
      { rewrite Hreq. change (requests (send req st)) with ([req] ++ requests st).
        rewrite app_assoc, <- replicate_cons_app. reflexivity. }
      rewrite now_send in Hr. destruct r as [a|].
      * destruct Hr as (j & -> & Ha & Hnone). exists (S j).
        split; [reflexivity|]. split.
        -- rewrite <- Ha. f_equal. lia.
        -- intros [|i] Hi; [rewrite Nat.add_0_r; exact Ea|].
           rewrite <- (Hnone i) by lia. f_equal. lia.
      * destruct Hr as [-> Hnone]. split; [reflexivity|].
        intros [|i] Hi; [rewrite Nat.add_0_r; exact Ea|].
        rewrite <- (Hnone i) by lia. f_equal. lia.
Qed.

(** X6. Every client call sends the same request again and again, at most
    [RetryAttempts] times, and nothing else: it returns the first answer
    the node gives, and it fails, with the retries-exhausted error, only
    after exactly [RetryAttempts] requests were all refused. The caches,
    the watermark and the reported findings are not touched. *)
Theorem withRetry_requests {A} env op req (answer : nat -> option A) st r st' :
  eth.withRetry env op req answer st = (r, st') ->
  exists k : nat,
    (k <= Z.to_nat (RetryAttempts (cfg env)))%nat
    /\ requests st' = replicate k req ++ requests st
    /\ v2Cache st' = v2Cache st /\ v3Cache st' = v3Cache st
    /\ lastBlock st' = lastBlock st /\ reported st' = reported st
    /\ match r with
       | Ok a =>
           exists j : nat, k = S j /\ answer (now st + j)%nat = Some a
             /\ forall i : nat, (i < j)%nat -> answer (now st + i)%nat = None
       | Err e =>
           e = RetriesExhausted op (RetryAttempts (cfg env))
           /\ k = Z.to_nat (RetryAttempts (cfg env))
           /\ forall i : nat, (i < k)%nat -> answer (now st + i)%nat = None
       | Panic => False
       | NeverReturns => False
       end.
Proof.
  intros H. pose proof (withRetry_caches env op req answer st r st' H)
    as (C2 & C3 & CL & CR).
  unfold eth.withRetry in H.
  destruct (eth.retry _ req answer st) as [[a|] s] eqn:E;
    inversion H; subst; clear H;
    apply retry_trace in E as (k & Hk & Hreq & Hr); exists k;
    (split; [exact Hk|]); (split; [exact Hreq|]);
    (split; [exact C2|]); (split; [exact C3|]);
    (split; [exact CL|]); (split; [exact CR|]).
  - exact Hr.
  - destruct Hr as [-> Hnone]. auto.
Qed.

Lemma withRetry_requests_witness :
  exists k : nat,
    (k <= 3)%nat
    /\ requests (eth.GetLogs (sample.envOf (sample.deafNode 5) 10) 4 5 [] (sample.initial 3)).2
       = replicate k (ReqFilterLogs 4 5 []) ++ []
    /\ k = 3%nat.
Proof.
  destruct (withRetry_requests (sample.envOf (sample.deafNode 5) 10) opGetLogs
              (ReqFilterLogs 4 5 [])
              (fun t => nodeFilterLogs (sample.deafNode 5) t 4 5 [])
              (sample.initial 3)
              (Err (RetriesExhausted opGetLogs 3))
              (eth.GetLogs (sample.envOf (sample.deafNode 5) 10) 4 5 [] (sample.initial 3)).2)
    as (k & Hk & Hreq & _ & _ & _ & _ & _ & Hn & _).
  - reflexivity.
  - exists k. split; [exact Hk|]. split; [exact Hreq|exact Hn].
Defined.

(** X7. With a retry count of zero or less the loop body never runs: a
    poll tick then fails with the retries-exhausted error of the head
    lookup without sending a single request, and leaves the whole state as
    it was, on every tick. *)
Theorem no_attempts_tick_fails env st :
  RetryAttempts (cfg env) <= 0 ->
  inspector.processNewBlocks env st
  = (Err (RetriesExhausted opBlockNumber (RetryAttempts (cfg env))), st).
Proof.
  intros Hn. unfold inspector.processNewBlocks. apply bind_err.
  unfold eth.BlockNumber, eth.withRetry.
  replace (Z.to_nat (RetryAttempts (cfg env))) with 0%nat by lia.
  reflexivity.
Qed.

Lemma no_attempts_tick_fails_witness :
  inspector.processNewBlocks
    {| node := sample.quietNode 11;
       cfg := {| RetryAttempts := 0; BatchSize := 10; StartBlock := 0;
                 EnableUniswapV2 := true; EnableUniswapV3 := true |};
       keccak256 := sample.lowerCase |} (sample.initial 3)
  = (Err (RetriesExhausted opBlockNumber 0), sample.initial 3).
Proof.
  apply (no_attempts_tick_fails
           {| node := sample.quietNode 11;
              cfg := {| RetryAttempts := 0; BatchSize := 10; StartBlock := 0;
                        EnableUniswapV2 := true; EnableUniswapV3 := true |};
              keccak256 := sample.lowerCase |} (sample.initial 3)).
  simpl. lia.
Defined.

(** ** What a decoded swap says about its log *)

Lemma v2_decode_inv env log st swap st' :
  uniswapv2.DecodeSwapLog env log st = (Ok swap, st') ->
  (3 <= length (logTopics log))%nat
  /\ topicAt log 0 = uniswapv2.SwapEventSignature
  /\ (128 <= length (logData log))%nat
  /\ exists info,
       uniswapv2.getPoolInfo env (logAddress log) st = (Ok info, st')
       /\ swap = {| TxHash := logTxHash log;
                    BlockNumber := logBlockNumber log;
                    LogIndex := logIndex log;
                    Pool := logAddress log;
                    SwapProtocol := uniswap_v2;
                    Sender := topicAddress (topicAt log 1);
                    Recipient := topicAddress (topicAt log 2);
                    Token0 := v2types.Token0 info;
                    Token1 := v2types.Token1 info;
                    Amount0In := SetBytes (slice (logData log) 0 32);
                    Amount1In := SetBytes (slice (logData log) 32 64);
                    Amount0Out := SetBytes (slice (logData log) 64 96);
                    Amount1Out := SetBytes (slice (logData log) 96 128);
                    SqrtPriceX96 := None; Liquidity := None; Tick := None |}.
Proof.
  unfold uniswapv2.DecodeSwapLog.
  destruct (Nat.ltb_spec (length (logTopics log)) 3); [discriminate|].
  destruct (bool_decide_reflect (topicAt log 0 = uniswapv2.SwapEventSignature));
    [|discriminate]. cbn [negb].
  destruct (Nat.ltb_spec (length (logData log)) 128); [discriminate|].
  unfold bind, wrapErr.
  destruct (uniswapv2.getPoolInfo env (logAddress log) st) as [[info|err| |] s];
    try discriminate.
  intros H'. inversion H'; subst. repeat split; try assumption.
  exists info. split; reflexivity.
Qed.

Lemma v3_decode_inv env log st swap st' :
  uniswapv3.DecodeSwapLog env log st = (Ok swap, st') ->
  (3 <= length (logTopics log))%nat
  /\ topicAt log 0 = uniswapv3.SwapEventSignature
  /\ (160 <= length (logData log))%nat
  /\ exists info,
       uniswapv3.getPoolInfo env (logAddress log) st = (Ok info, st')
       /\ TxHash swap = logTxHash log
       /\ BlockNumber swap = logBlockNumber log
       /\ LogIndex swap = logIndex log
       /\ Pool swap = logAddress log
       /\ SwapProtocol swap = uniswap_v3
       /\ Token0 swap = v3types.Token0 info
       /\ Token1 swap = v3types.Token1 info
       /\ (let amount0 := uniswapv3.signedWord (slice (logData log) 0 32) in
           Amount0In swap = (if 0 <? amount0 then amount0 else 0)
           /\ Amount0Out swap = (if 0 <? amount0 then 0 else - amount0))
       /\ (let amount1 := uniswapv3.signedWord (slice (logData log) 32 64) in
           Amount1In swap = (if 0 <? amount1 then amount1 else 0)
           /\ Amount1Out swap = (if 0 <? amount1 then 0 else - amount1)).
Proof.
  unfold uniswapv3.DecodeSwapLog.
  destruct (Nat.ltb_spec (length (logTopics log)) 3); [discriminate|].
  destruct (bool_decide_reflect (topicAt log 0 = uniswapv3.SwapEventSignature));
    [|discriminate]. cbn [negb].
  destruct (Nat.ltb_spec (length (logData log)) 160); [discriminate|].
  unfold bind, wrapErr.
  destruct (uniswapv3.getPoolInfo env (logAddress log) st) as [[info|err| |] s];
    try discriminate.
  intros H'. repeat split; try assumption. exists info.
  destruct (0 <? uniswapv3.signedWord (slice (logData log) 0 32)),
    (0 <? uniswapv3.signedWord (slice (logData log) 32 64));
    inversion H'; subst; simpl; repeat split; reflexivity.
Qed.

Lemma BytesToAddress_length b : length (BytesToAddress b) = AddressLength.
Proof.
  unfold BytesToAddress. rewrite length_app, length_replicate, length_drop. lia.
Qed.

(** X8. Whenever the simple-curve decoder returns a swap, the log was
    valid (at least three topics led by the signature, at least 128 payload
    bytes); the four amounts are the first four 32-byte words of the
    payload read as unsigned big-endian integers, each in [0, 2^256); the
    transaction hash, block number, log index and pool address are the
    log's; sender and recipient are 20-byte addresses; and the pool's
    tokens are those now held in the decoder's cache for that pool. *)
Theorem v2_decode_sound env log st swap st' :
  uniswapv2.DecodeSwapLog env log st = (Ok swap, st') ->
  (3 <= length (logTopics log))%nat
  /\ head (logTopics log) = Some uniswapv2.SwapEventSignature
  /\ (128 <= length (logData log))%nat
  /\ Amount0In swap = SetBytes (slice (logData log) 0 32)
  /\ Amount1In swap = SetBytes (slice (logData log) 32 64)
  /\ Amount0Out swap = SetBytes (slice (logData log) 64 96)
  /\ Amount1Out swap = SetBytes (slice (logData log) 96 128)
  /\ 0 <= Amount0In swap < 2 ^ 256 /\ 0 <= Amount1In swap < 2 ^ 256
  /\ 0 <= Amount0Out swap < 2 ^ 256 /\ 0 <= Amount1Out swap < 2 ^ 256
  /\ TxHash swap = logTxHash log /\ BlockNumber swap = logBlockNumber log
  /\ LogIndex swap = logIndex log /\ Pool swap = logAddress log
  /\ length (Sender swap) = 20%nat /\ length (Recipient swap) = 20%nat
  /\ exists info,
       v2Cache st' !! Pool swap = Some info
       /\ Token0 swap = v2types.Token0 info /\ Token1 swap = v2types.Token1 info.
Proof.
  intros H'. apply v2_decode_inv in H' as (Ht & Hsig & Hd & info & Hpool & ->).
  cbn [Amount0In Amount1In Amount0Out Amount1Out TxHash BlockNumber LogIndex Pool
       Sender Recipient Token0 Token1].
  assert (Hw : forall lo hi, (lo <= hi)%nat -> (hi <= 128)%nat -> (hi - lo = 32)%nat ->
               0 <= SetBytes (slice (logData log) lo hi) < 2 ^ 256).
  { intros lo hi H1 H2 H3. pose proof (SetBytes_range (slice (logData log) lo hi)) as Hr.
    rewrite slice_length, H3 in Hr by lia. exact Hr. }
  split; [exact Ht|]. split.
  { unfold topicAt in Hsig. destruct (logTopics log) as [|t0 ts]; [simpl in Ht; lia|].
    simpl in *. congruence. }
  split; [exact Hd|]. repeat (split; [reflexivity|]).
  repeat (split; [apply Hw; lia|]).
  repeat (split; [reflexivity|]).
  split; [apply BytesToAddress_length|]. split; [apply BytesToAddress_length|].
  exists info. split; [|split; reflexivity].
  destruct (v2_getPoolInfo_effect env _ _ _ _ Hpool) as [[Hsame Hc]|(i & Hi & _ & Hins)].
  - rewrite Hsame. apply Hc. reflexivity.
  - inversion Hi; subst. rewrite Hins. apply lookup_insert_eq.
Qed.

Lemma v2_decode_sound_witness :
  uniswapv2.DecodeSwapLog (sample.envOf (sample.quietNode 0) 10) sample.v2Log
    sample.cachedV2 = (Ok sample.v2Swap, sample.cachedV2)
  /\ Amount0In sample.v2Swap = SetBytes (slice (logData sample.v2Log) 0 32)
  /\ 0 <= Amount1Out sample.v2Swap < 2 ^ 256
  /\ length (Recipient sample.v2Swap) = 20%nat.
Proof.
  assert (Hrun : uniswapv2.DecodeSwapLog (sample.envOf (sample.quietNode 0) 10)
                   sample.v2Log sample.cachedV2 = (Ok sample.v2Swap, sample.cachedV2))
    by (vm_compute; reflexivity).
  destruct (v2_decode_sound _ _ _ _ _ Hrun)
    as (_ & _ & _ & H0 & _ & _ & _ & _ & _ & _ & H1 & _ & _ & _ & _ & _ & H2 & _).
  split; [exact Hrun|]. split; [exact H0|]. split; [exact H1|exact H2].
Defined.

Lemma resolved_zero_in tOut aIn aOut :
  arbitrage.resolved {| arbitrage.tokenIn := zeroAddress; arbitrage.tokenOut := tOut;
                        arbitrage.amountIn := aIn; arbitrage.amountOut := aOut |}
  = false.
Proof.
  unfold arbitrage.resolved. cbn [arbitrage.tokenIn].
  rewrite (bool_decide_eq_true_2 (zeroAddress = zeroAddress)) by reflexivity.
  reflexivity.
Qed.

Lemma resolved_zero_out tIn aIn aOut :
  arbitrage.resolved {| arbitrage.tokenIn := tIn; arbitrage.tokenOut := zeroAddress;
                        arbitrage.amountIn := aIn; arbitrage.amountOut := aOut |}
  = false.
Proof.
  unfold arbitrage.resolved. cbn [arbitrage.tokenOut].
  rewrite (bool_decide_eq_true_2 (zeroAddress = zeroAddress)) by reflexivity.
  apply andb_false_r.
Qed.

(** X9. A tick-based swap enters cyclic detection only when its two deltas
    have opposite signs: from a decoded swap with amount0 > 0 > amount1 the
    detector derives the flow token0 -> token1 with amounts amount0 and
    -amount1; with amount0 < 0 < amount1 the flow token1 -> token0 with
    amounts amount1 and -amount0; in every other case (deltas of the same
    sign, or one of them zero) the flow is unresolved and the swap is left
    out of the path check. *)
Theorem v3_swap_flow env log st swap st' :
  uniswapv3.DecodeSwapLog env log st = (Ok swap, st') ->
  let amount0 := twosComplement 256 (SetBytes (slice (logData log) 0 32)) in
  let amount1 := twosComplement 256 (SetBytes (slice (logData log) 32 64)) in
  (0 < amount0 -> amount1 < 0 ->
     arbitrage.flowOf swap
     = {| arbitrage.tokenIn := Token0 swap; arbitrage.tokenOut := Token1 swap;
          arbitrage.amountIn := Some amount0;
          arbitrage.amountOut := Some (- amount1) |})
  /\ (amount0 < 0 -> 0 < amount1 ->
     arbitrage.flowOf swap
     = {| arbitrage.tokenIn := Token1 swap; arbitrage.tokenOut := Token0 swap;
          arbitrage.amountIn := Some amount1;
          arbitrage.amountOut := Some (- amount0) |})
  /\ (0 <= amount0 * amount1 -> arbitrage.resolved (arbitrage.flowOf swap) = false).
Proof.
  intros H' amount0 amount1.
  apply v3_decode_inv in H'
    as (_ & _ & Hd & info & _ & _ & _ & _ & _ & _ & _ & _ & [H0i H0o] & [H1i H1o]).
  destruct (signedWord_twosComplement (slice (logData log) 0 32)) as [E0 _];
    [apply slice_length; lia|].
  destruct (signedWord_twosComplement (slice (logData log) 32 64)) as [E1 _];
    [apply slice_length; lia|].
  rewrite E0 in H0i, H0o. rewrite E1 in H1i, H1o.
  fold amount0 in H0i, H0o. fold amount1 in H1i, H1o.
  assert (T0 : (0 < amount0 /\ Amount0In swap = amount0 /\ Amount0Out swap = 0)
               \/ (amount0 <= 0 /\ Amount0In swap = 0 /\ Amount0Out swap = - amount0)).
  { destruct (Z.ltb_spec 0 amount0); [left|right]; auto. }
  assert (T1 : (0 < amount1 /\ Amount1In swap = amount1 /\ Amount1Out swap = 0)
               \/ (amount1 <= 0 /\ Amount1In swap = 0 /\ Amount1Out swap = - amount1)).
  { destruct (Z.ltb_spec 0 amount1); [left|right]; auto. }
  clear H0i H0o H1i H1o E0 E1.
  unfold arbitrage.flowOf.
  destruct T0 as [(S0 & I0 & O0)|(S0 & I0 & O0)],
           T1 as [(S1 & I1 & O1)|(S1 & I1 & O1)];
    rewrite I0, O0, I1, O1.
  - replace (0 <? amount0) with true by (symmetry; apply Z.ltb_lt; lia).
    replace (0 <? amount1) with true by (symmetry; apply Z.ltb_lt; lia).
    split; [intros; lia|]. split; [intros; lia|]. intros _.
    cbn -[zeroAddress arbitrage.resolved]. apply resolved_zero_out.
  - replace (0 <? amount0) with true by (symmetry; apply Z.ltb_lt; lia).
    destruct (Z.ltb_spec 0 (- amount1)) as [N1|N1];
      cbn -[zeroAddress arbitrage.resolved].
    + split; [reflexivity|]. split; [intros; lia|]. intros; nia.
    + split; [intros; lia|]. split; [intros; lia|]. intros _.
      apply resolved_zero_out.
  - replace (0 <? amount1) with true by (symmetry; apply Z.ltb_lt; lia).
    destruct (Z.ltb_spec 0 (- amount0)) as [N0|N0];
      cbn -[zeroAddress arbitrage.resolved].
    + split; [intros; lia|]. split; [reflexivity|]. intros; nia.
    + split; [intros; lia|]. split; [intros; lia|]. intros _.
      apply resolved_zero_out.
  - split; [intros; lia|]. split; [intros; lia|]. intros _.
    cbn -[zeroAddress arbitrage.resolved].
    destruct (0 <? - amount0); [|destruct (0 <? - amount1)];
      apply resolved_zero_in.
Qed.

Lemma v3_swap_flow_witness :
  exists swap,
    uniswapv3.DecodeSwapLog (sample.envOf (sample.quietNode 0) 10) sample.v3LogIn
      sample.cached = (Ok swap, sample.cached)
    /\ arbitrage.flowOf swap
       = {| arbitrage.tokenIn := sample.tokenA; arbitrage.tokenOut := sample.tokenB;
            arbitrage.amountIn := Some 5; arbitrage.amountOut := Some 7 |}.
Proof.
  eexists. split; [vm_compute; reflexivity|].
  match goal with
  | |- arbitrage.flowOf ?s = _ =>
      destruct (v3_swap_flow (sample.envOf (sample.quietNode 0) 10) sample.v3LogIn
                  sample.cached s sample.cached) as (Hflow & _);
        [vm_compute; reflexivity|]
  end.
  rewrite Hflow; [vm_compute; reflexivity| |]; vm_compute; reflexivity.
Defined.

(** ** Decoding the logs of a transaction *)

Lemma unhandled_no_swap env log st :
  ~ handled env log -> decoder.DecodeSwapLog env log st = (Ok None, st).
Proof.
  unfold handled, decoder.DecodeSwapLog. intros Hn.
  destruct (logTopics log) as [|topic0 rest]; [reflexivity|]. simpl in Hn.
  destruct (bool_decide_reflect (topic0 = uniswapv2.SwapEventSignature)) as [->|H2].
  - destruct (EnableUniswapV2 (cfg env)); [|reflexivity].
    exfalso. apply Hn. left. auto.
  - destruct (bool_decide_reflect (topic0 = uniswapv3.SwapEventSignature)) as [->|H3];
      [|reflexivity].
    destruct (EnableUniswapV3 (cfg env)); [|reflexivity].
    exfalso. apply Hn. right. auto.
Qed.

Lemma decodeEach_handled env logs swaps st :
  decoder.decodeEach env logs swaps st
  = decoder.decodeEach env (filter (handled env) logs) swaps st.
Proof.
  revert swaps st. induction logs as [|log rest IH]; intros swaps st; [reflexivity|].
  rewrite filter_cons. destruct (decide (handled env log)) as [Hh|Hn].
  - cbn [decoder.decodeEach].
    destruct (decoder.DecodeSwapLog env log st) as [[[swap|]|e| |] st1];
      try apply IH; reflexivity.
  - cbn [decoder.decodeEach]. rewrite (unhandled_no_swap env log st Hn). apply IH.
Qed.

(** X10. Decoding a transaction looks only at the logs whose first topic is
    the swap signature of an enabled protocol: logs without topics, with
    any other first topic, or of a disabled protocol change neither the
    swaps returned nor the state, wherever they stand among the others; in
    particular with both protocols disabled the result is empty and no
    request is sent. *)
Theorem DecodeSwapsForTransaction_ignores_foreign_logs env logs st :
  decoder.DecodeSwapsForTransaction env logs st
  = decoder.DecodeSwapsForTransaction env (filter (handled env) logs) st
  /\ (EnableUniswapV2 (cfg env) = false -> EnableUniswapV3 (cfg env) = false ->
      decoder.DecodeSwapsForTransaction env logs st = (Ok [], st)).
Proof.
  split.
  - unfold decoder.DecodeSwapsForTransaction, bind.
    rewrite (decodeEach_handled env logs [] st). reflexivity.
  - intros H2 H3. unfold decoder.DecodeSwapsForTransaction, bind.
    rewrite (decodeEach_handled env logs [] st).
    replace (filter (handled env) logs) with (@nil Log); [reflexivity|].
    symmetry. induction logs as [|log rest IH]; [reflexivity|].
    rewrite filter_cons. destruct (decide (handled env log)) as [Hh|_]; [|exact IH].
    destruct Hh as [[_ He]|[_ He]]; congruence.
Qed.

Lemma unified_decode_inv env log st swap st' :
  decoder.DecodeSwapLog env log st = (Ok (Some swap), st') ->
  TxHash swap = logTxHash log /\ BlockNumber swap = logBlockNumber log
  /\ LogIndex swap = logIndex log /\ Pool swap = logAddress log
  /\ head (logTopics log) = Some (signature (SwapProtocol swap)).
Proof.
  unfold decoder.DecodeSwapLog.
  destruct (logTopics log) as [|topic0 rest] eqn:Et; [discriminate|].
  destruct (bool_decide_reflect (topic0 = uniswapv2.SwapEventSignature)) as [->|H2].
  - destruct (EnableUniswapV2 (cfg env)); [|discriminate]. unfold bind.
    destruct (uniswapv2.DecodeSwapLog env log st) as [[s|e| |] s1] eqn:E; try discriminate.
    intros H'. inversion H'; subst.
    apply v2_decode_inv in E as (_ & _ & _ & info & _ & ->). simpl. auto.
  - destruct (bool_decide_reflect (topic0 = uniswapv3.SwapEventSignature)) as [->|H3];
      [|discriminate].
    destruct (EnableUniswapV3 (cfg env)); [|discriminate]. unfold bind.
    destruct (uniswapv3.DecodeSwapLog env log st) as [[s|e| |] s1] eqn:E; try discriminate.
    intros H'. inversion H'; subst.
    apply v3_decode_inv in E
      as (_ & _ & _ & info & _ & H1 & H2' & H3' & H4 & H5 & _).
    rewrite H1, H2', H3', H4, H5. simpl. auto.
Qed.

Lemma decodeEach_sound env logs swaps0 st swaps st' :
  decoder.decodeEach env logs swaps0 st = (Ok swaps, st') ->
  exists decoded,
    swaps = swaps0 ++ decoded
    /\ (length decoded <= length logs)%nat
    /\ forall swap, swap ∈ decoded ->
         exists log, log ∈ logs
           /\ TxHash swap = logTxHash log /\ BlockNumber swap = logBlockNumber log
           /\ LogIndex swap = logIndex log /\ Pool swap = logAddress log
           /\ head (logTopics log) = Some (signature (SwapProtocol swap)).
Proof.
  revert swaps0 st. induction logs as [|log rest IH]; intros swaps0 st H'.
  - simpl in H'. inversion H'; subst. exists []. rewrite app_nil_r.
    split; [reflexivity|]. split; [simpl; lia|]. intros swap Hin. inversion Hin.
  - cbn [decoder.decodeEach] in H'.
    destruct (decoder.DecodeSwapLog env log st) as [[[swap|]|e| |] st1] eqn:E;
      try discriminate.
    + apply IH in H' as (decoded & -> & Hlen & Hall).
      exists (swap :: decoded). rewrite <- app_assoc. split; [reflexivity|].
      split; [simpl; lia|]. intros s Hs. apply elem_of_cons in Hs as [->|Hs].
      * exists log. split; [left|]. eapply unified_decode_inv. exact E.
      * destruct (Hall s Hs) as (l & Hl & Hrest). exists l. split; [right; exact Hl|exact Hrest].
    + apply IH in H' as (decoded & -> & Hlen & Hall).
      exists decoded. split; [reflexivity|]. split; [simpl; lia|].
      intros s Hs. destruct (Hall s Hs) as (l & Hl & Hrest).
      exists l. split; [right; exact Hl|exact Hrest].
    + apply IH in H' as (decoded & -> & Hlen & Hall).
      exists decoded. split; [reflexivity|]. split; [simpl; lia|].
      intros s Hs. destruct (Hall s Hs) as (l & Hl & Hrest).
      exists l. split; [right; exact Hl|exact Hrest].
Qed.

(** X11. The swaps [DecodeSwapsForTransaction] returns are in
    non-decreasing order of log index, are no more than the logs given, and
    each of them stems from one of those logs: it carries that log's
    transaction hash, block number, log index and address, and its protocol
    is the one whose signature opens the log's topics. *)
Theorem DecodeSwapsForTransaction_sound env logs st swaps st' :
  decoder.DecodeSwapsForTransaction env logs st = (Ok swaps, st') ->
  StronglySorted swapOrder swaps
  /\ (length swaps <= length logs)%nat
  /\ forall swap, swap ∈ swaps ->
       exists log, log ∈ logs
         /\ TxHash swap = logTxHash log /\ BlockNumber swap = logBlockNumber log
         /\ LogIndex swap = logIndex log /\ Pool swap = logAddress log
         /\ head (logTopics log) = Some (signature (SwapProtocol swap)).
Proof.
  unfold decoder.DecodeSwapsForTransaction, bind, ret. intros H'.
  destruct (decoder.decodeEach env logs [] st) as [[decoded|e| |] s] eqn:E;
    try discriminate.
  inversion H'; subst. clear H'.
  apply decodeEach_sound in E as (d & Hd & Hlen & Hall). simpl in Hd. subst d.
  split; [apply sortSlice_swaps_sorted|]. split.
  - rewrite (Permutation_length (sortSlice_perm decoder.swapLess decoded)). exact Hlen.
  - intros swap Hin. apply Hall.
    rewrite <- (sortSlice_perm decoder.swapLess decoded). exact Hin.
Qed.

Lemma DecodeSwapsForTransaction_sound_witness :
  exists swaps,
    decoder.DecodeSwapsForTransaction (sample.envOf (sample.quietNode 0) 10)
      [sample.v3LogIn; sample.shortLog; sample.v3Log] sample.cached
    = (Ok swaps, sample.cached)
    /\ StronglySorted swapOrder swaps /\ (length swaps <= 3)%nat
    /\ LogIndex <$> swaps = [4; 5].
Proof.
  eexists. split; [vm_compute; reflexivity|].
  match goal with
  | |- StronglySorted swapOrder ?s /\ _ =>
      destruct (DecodeSwapsForTransaction_sound (sample.envOf (sample.quietNode 0) 10)
                  [sample.v3LogIn; sample.shortLog; sample.v3Log]
                  sample.cached s sample.cached) as (Hs & Hl & _);
        [vm_compute; reflexivity|]
  end.
  split; [exact Hs|]. split; [exact Hl|reflexivity].
Defined.

(** ** The fee read *)

Lemma SetBytes_app a b :
  SetBytes (a ++ b) = SetBytes a * 256 ^ Z.of_nat (length b) + SetBytes b.
Proof.
  unfold SetBytes at 1. rewrite fold_left_app.
  fold (SetBytes a). apply SetBytes_fold.
Qed.

(** X12. The fee of a tick-based pool is read from the whole response of
    the [fee()] call, not from its first word: a response shorter than 32
    bytes is refused, and from any longer one the fee is the big-endian
    value of its last four bytes, every byte before them being ignored. *)
Theorem callFee_low_bytes env pool st result st1 :
  eth.CallContract env pool selFee st = (Ok result, st1) ->
  ((length result < 32)%nat ->
     uniswapv3.callFee env pool st = (Err (InvalidResponse "fee"), st1))
  /\ ((32 <= length result)%nat ->
      uniswapv3.callFee env pool st
      = (Ok (SetBytes (drop (length result - 4) result)), st1)
      /\ 0 <= SetBytes (drop (length result - 4) result) < 2 ^ 32).
Proof.
  intros Hcall. unfold uniswapv3.callFee. rewrite (bind_ok _ _ _ _ _ Hcall).
  split; intros Hlen.
  - replace (length result <? 32)%nat with true
      by (symmetry; apply Nat.ltb_lt; exact Hlen). reflexivity.
  - replace (length result <? 32)%nat with false
      by (symmetry; apply Nat.ltb_ge; exact Hlen).
    set (low := drop (length result - 4) result).
    assert (Hl : length low = 4%nat) by (unfold low; rewrite length_drop; lia).
    pose proof (SetBytes_range low) as Hr. rewrite Hl in Hr.
    change (256 ^ Z.of_nat 4) with (2 ^ 32) in Hr.
    split; [|exact Hr]. unfold ret. f_equal. f_equal.
    rewrite <- (take_drop (length result - 4) result) at 1. fold low.
    rewrite SetBytes_app, Hl. change (256 ^ Z.of_nat 4) with (2 ^ 32).
    unfold u32, u64.
    rewrite Z.mod_mod_divide by (exists (2 ^ 32); reflexivity).
    rewrite Z.add_comm, Z.mod_add by lia. apply Z.mod_small. exact Hr.
Qed.

Lemma callFee_low_bytes_witness :
  uniswapv3.callFee
    {| node := sample.poolNode; cfg := sample.config 10;
       keccak256 := sample.lowerCase |} sample.poolX (sample.initial 0)
  = (Ok 10,
     (eth.CallContract
        {| node := sample.poolNode; cfg := sample.config 10;
           keccak256 := sample.lowerCase |} sample.poolX selFee (sample.initial 0)).2).
Proof.
  destruct (callFee_low_bytes
              {| node := sample.poolNode; cfg := sample.config 10;
                 keccak256 := sample.lowerCase |} sample.poolX (sample.initial 0)
              (replicate 12 x00 ++ sample.tokenA)
              (eth.CallContract
                 {| node := sample.poolNode; cfg := sample.config 10;
                    keccak256 := sample.lowerCase |} sample.poolX selFee
                 (sample.initial 0)).2) as [_ Hok].
  - reflexivity.
  - destruct Hok as [Hrun _]; [vm_compute; lia|]. exact Hrun.
Defined.

(** ** Findings *)

Lemma detectCyclic_fresh swaps arb :
  arbitrage.detectCyclicArbitrage swaps = Some arb -> freshFinding arb.
Proof.
  unfold arbitrage.detectCyclicArbitrage.
  destruct (Nat.ltb_spec (length swaps) 2) as [|Hlen]; [discriminate|].
  destruct (length (arbitrage.buildFlows swaps) <? 2)%nat; [discriminate|].
  destruct (head swaps) as [swap0|]; [|discriminate].
  destruct (head (arbitrage.buildFlows swaps)) as [first|]; [|discriminate].
  destruct (last (arbitrage.buildFlows swaps)) as [final|]; [|discriminate].
  destruct (bool_decide_reflect (arbitrage.tokenIn first = arbitrage.tokenOut final))
    as [Heq|]; [|discriminate]. cbn [negb].
  destruct (arbitrage.connected (arbitrage.buildFlows swaps)); [|discriminate].
  cbn [negb].
  destruct (arbitrage.amountIn first) as [aIn|]; [|discriminate].
  destruct (arbitrage.amountOut final) as [aOut|]; [|discriminate].
  destruct (Z.leb_spec aOut aIn); [discriminate|].
  intros H'. inversion H'; subst. unfold freshFinding. simpl.
  repeat split; auto; lia.
Qed.

Lemma groupArbitrage_fresh group arb :
  arbitrage.groupArbitrage group = Some arb -> freshFinding arb.
Proof.
  unfold arbitrage.groupArbitrage.
  destruct (length group <? 2)%nat; [discriminate|].
  destruct (size (arbitrage.poolsOf group) <? 2)%nat; [discriminate|].
  destruct (arbitrage.selectLegs group None None) as [[buy|] [sell|]];
    try discriminate.
  destruct (bool_decide (Pool buy = Pool sell)); [discriminate|].
  destruct (Z.ltb_spec (arbitrage.wethSpent buy) (arbitrage.wethReceived sell));
    [|discriminate].
  intros H'. inversion H'; subst. unfold freshFinding. simpl.
  repeat split; auto; lia.
Qed.

Lemma withGas_priced env txHash arb st arb' st' :
  freshFinding arb ->
  arbitrage.withGas env txHash arb st = (Ok arb', st') ->
  pricedFinding arb'.
Proof.
  intros (Hp & Hd & Ht & Hpt & Hlen & Hgp & Hnet). unfold arbitrage.withGas.
  destruct (eth.TransactionReceipt env txHash st) as [[gasUsed|e| |] st1].
  - destruct (eth.GetTransaction env txHash st1) as [[gasPrice|e| |] st2];
      intros H'; inversion H'; subst; unfold pricedFinding; simpl;
      repeat split; auto.
    right. exists gasPrice. auto.
  - intros H'. inversion H'; subst. unfold pricedFinding. repeat split; auto.
  - intros H'. inversion H'; subst. unfold pricedFinding. repeat split; auto.
  - intros H'. inversion H'; subst. unfold pricedFinding. repeat split; auto.
Qed.

Lemma withGasEach_priced env txHash arbs st arbs' st' :
  (forall arb, arb ∈ arbs -> freshFinding arb) ->
  arbitrage.withGasEach env txHash arbs st = (Ok arbs', st') ->
  forall arb, arb ∈ arbs' -> pricedFinding arb.
Proof.
  revert st arbs'. induction arbs as [|a rest IH]; intros st arbs' Hall H'.
  - simpl in H'. inversion H'; subst. intros arb Hin. inversion Hin.
  - cbn [arbitrage.withGasEach] in H'. unfold bind in H'.
    destruct (arbitrage.withGas env txHash a st) as [[a'|e| |] st1] eqn:Ea;
      try discriminate.
    destruct (arbitrage.withGasEach env txHash rest st1) as [[rest'|e| |] st2] eqn:Er;
      try discriminate.
    inversion H'; subst. intros arb Hin. apply elem_of_cons in Hin as [->|Hin].
    + eapply withGas_priced; [|exact Ea]. apply Hall. left.
    + eapply IH; [|exact Er|exact Hin]. intros x Hx. apply Hall. right. exact Hx.
Qed.

Lemma detectCross_fresh env swaps arb :
  arb ∈ arbitrage.detectCrossDEXArbitrage env swaps -> freshFinding arb.
Proof.
  unfold arbitrage.detectCrossDEXArbitrage. intros Hin.
  apply list_elem_of_omap in Hin as ([pair group] & _ & Hg).
  eapply groupArbitrage_fresh. exact Hg.
Qed.

(** X13. Every finding [DetectArbitrage] returns, cyclic or cross-venue,
    has a strictly positive gross profit equal to its amount out minus its
    amount in, the same start and end token, which is also the profit
    token, and a path of at least two swaps; its net profit is either unset
    or gross profit minus [int64(GasUsed)] times the gas price recorded in
    it. *)
Theorem DetectArbitrage_findings env txHash swaps st arbs st' :
  arbitrage.DetectArbitrage env txHash swaps st = (Ok arbs, st') ->
  forall arb, arb ∈ arbs ->
    0 < Profit arb
    /\ Profit arb = AmountOut arb - AmountIn arb
    /\ TokenStart arb = TokenEnd arb
    /\ ProfitToken arb = TokenStart arb
    /\ (2 <= length (Path arb))%nat
    /\ (NetProfitWei arb = None
        \/ exists gasPrice,
             GasPrice arb = Some gasPrice
             /\ NetProfitWei arb = Some (Profit arb - i64 (GasUsed arb) * gasPrice)).
Proof.
  unfold arbitrage.DetectArbitrage.
  destruct (length swaps <? 2)%nat.
  { intros H'. inversion H'; subst. intros arb Hin. inversion Hin. }
  set (sorted := sortSlice decoder.swapLess swaps).
  unfold bind at 1.
  destruct (arbitrage.detectCyclicArbitrage sorted) as [cyc|] eqn:Ec.
  - unfold bind at 1.
    destruct (arbitrage.withGas env txHash cyc st) as [[cyc'|e| |] st1] eqn:Eg;
      try discriminate.
    unfold ret at 1. unfold bind.
    destruct (arbitrage.withGasEach env txHash _ st1) as [[cross|e| |] st2] eqn:Ex;
      try discriminate.
    intros H'. inversion H'; subst. intros arb Hin.
    apply elem_of_cons in Hin as [->|Hin].
    + eapply withGas_priced; [|exact Eg].
      eapply detectCyclic_fresh. exact Ec.
    + eapply withGasEach_priced; [|exact Ex|exact Hin].
      intros x Hx. eapply detectCross_fresh. exact Hx.
  - unfold ret at 1. unfold bind.
    destruct (arbitrage.withGasEach env txHash _ st) as [[cross|e| |] st2] eqn:Ex;
      try discriminate.
    intros H'. inversion H'; subst. intros arb Hin. simpl in Hin.
    eapply withGasEach_priced; [|exact Ex|exact Hin].
    intros x Hx. eapply detectCross_fresh. exact Hx.
Qed.

Lemma DetectArbitrage_findings_witness :
  exists arbs st',
    arbitrage.DetectArbitrage (sample.envOf (sample.gasNode 21000 2) 10) [x01]
      sample.cycle (sample.initial 0) = (Ok arbs, st')
    /\ length arbs = 1%nat
    /\ forall arb, arb ∈ arbs ->
         0 < Profit arb /\ Profit arb = AmountOut arb - AmountIn arb.
Proof.
  assert (Hrun : exists arbs st',
             arbitrage.DetectArbitrage (sample.envOf (sample.gasNode 21000 2) 10) [x01]
               sample.cycle (sample.initial 0) = (Ok arbs, st')
             /\ length arbs = 1%nat)
    by (eexists; eexists; vm_compute; split; reflexivity).
  destruct Hrun as (arbs & st' & Hrun & Hlen).
  exists arbs, st'. split; [exact Hrun|]. split; [exact Hlen|].
  intros arb Hin.
  destruct (DetectArbitrage_findings _ _ _ _ _ _ Hrun arb Hin) as (Hp & Hd & _).
  split; [exact Hp|exact Hd].
Defined.

(** ** Requests sent by detection *)

Lemma withRetry_count {A} env op req (answer : nat -> option A) st r st' :
  eth.withRetry env op req answer st = (r, st') ->
  (length (requests st') <= length (requests st) + Z.to_nat (RetryAttempts (cfg env)))%nat.
Proof.
  unfold eth.withRetry.
  destruct (eth.retry _ req answer st) as [[a|] s] eqn:E; intros H';
    inversion H'; subst;
    apply retry_trace in E as (k & Hk & Hreq & _);
    rewrite Hreq, length_app, length_replicate; lia.
Qed.

Lemma withGas_count env txHash arb st r st' :
  arbitrage.withGas env txHash arb st = (r, st') ->
  (length (requests st')
   <= length (requests st) + 2 * Z.to_nat (RetryAttempts (cfg env)))%nat.
Proof.
  unfold arbitrage.withGas.
  destruct (eth.TransactionReceipt env txHash st) as [[gasUsed|e| |] st1] eqn:E1;
    unfold eth.TransactionReceipt in E1; apply withRetry_count in E1.
  - destruct (eth.GetTransaction env txHash st1) as [[gasPrice|e| |] st2] eqn:E2;
      unfold eth.GetTransaction in E2; apply withRetry_count in E2;
      intros H'; inversion H'; subst; lia.
  - intros H'; inversion H'; subst; lia.
  - intros H'; inversion H'; subst; lia.
  - intros H'; inversion H'; subst; lia.
Qed.

Lemma withGasEach_count env txHash arbs st r st' :
  arbitrage.withGasEach env txHash arbs st = (r, st') ->
  (length (requests st')
   <= length (requests st)
      + 2 * Z.to_nat (RetryAttempts (cfg env)) * length arbs)%nat.
Proof.
  revert st r st'. induction arbs as [|a rest IH]; intros st r st' H'.
  - simpl in H'. inversion H'; subst. lia.
  - cbn [arbitrage.withGasEach] in H'. unfold bind in H'.
    destruct (arbitrage.withGas env txHash a st) as [[a'|e| |] st1] eqn:Ea;
      apply withGas_count in Ea.
    + destruct (arbitrage.withGasEach env txHash rest st1) as [[rest'|e| |] st2] eqn:Er;
        apply IH in Er; inversion H'; subst; cbn [length]; nia.
    + inversion H'; subst. cbn [length]. nia.
    + inversion H'; subst. cbn [length]. nia.
    + inversion H'; subst. cbn [length]. nia.
Qed.

Lemma withGasEach_length env txHash arbs st arbs' st' :
  arbitrage.withGasEach env txHash arbs st = (Ok arbs', st') ->
  length arbs' = length arbs.
Proof.
  intros H'. destruct (withGasEach_ok env txHash arbs st) as (a & s & Ha & Hlen).
  rewrite Ha in H'. inversion H'; subst. exact Hlen.
Qed.

(** X14. Detection contacts the node only for findings: when it returns no
    finding the state is exactly as before (no request was sent), and
    otherwise it sends at most two requests per retry attempt for each
    finding returned. *)
Theorem DetectArbitrage_requests env txHash swaps st arbs st' :
  arbitrage.DetectArbitrage env txHash swaps st = (Ok arbs, st') ->
  (length (requests st')
   <= length (requests st)
      + 2 * Z.to_nat (RetryAttempts (cfg env)) * length arbs)%nat
  /\ (arbs = [] -> st' = st).
Proof.
  unfold arbitrage.DetectArbitrage.
  destruct (length swaps <? 2)%nat.
  { intros H'. inversion H'; subst. split; [lia|reflexivity]. }
  set (sorted := sortSlice decoder.swapLess swaps).
  unfold bind at 1.
  destruct (arbitrage.detectCyclicArbitrage sorted) as [cyc|] eqn:Ec.
  - unfold bind at 1.
    destruct (arbitrage.withGas env txHash cyc st) as [[cyc'|e| |] st1] eqn:Eg;
      try discriminate.
    unfold ret at 1. unfold bind.
    destruct (arbitrage.withGasEach env txHash _ st1) as [[cross|e| |] st2] eqn:Ex;
      try discriminate.
    intros H'. inversion H'; subst.
    apply withGas_count in Eg. pose proof (withGasEach_length _ _ _ _ _ _ Ex) as Hl.
    apply withGasEach_count in Ex. split; [|discriminate].
    cbn [length app]. rewrite Hl. nia.
  - unfold ret at 1. unfold bind.
    destruct (arbitrage.withGasEach env txHash _ st) as [[cross|e| |] st2] eqn:Ex;
      try discriminate.
    intros H'. inversion H'; subst.
    pose proof (withGasEach_length _ _ _ _ _ _ Ex) as Hl. split.
    + apply withGasEach_count in Ex. cbn [app]. rewrite Hl. lia.
    + cbn [app]. intros ->. simpl in Hl.
      destruct (arbitrage.detectCrossDEXArbitrage env sorted); [|discriminate].
      simpl in Ex. inversion Ex. reflexivity.
Qed.

Lemma DetectArbitrage_requests_witness :
  exists arbs st',
    arbitrage.DetectArbitrage (sample.envOf (sample.gasNode 21000 2) 10) [x01]
      sample.cycle (sample.initial 0) = (Ok arbs, st')
    /\ (length (requests st') <= 0 + 2 * 3 * length arbs)%nat.
Proof.
  assert (Hrun : exists arbs st',
             arbitrage.DetectArbitrage (sample.envOf (sample.gasNode 21000 2) 10) [x01]
               sample.cycle (sample.initial 0) = (Ok arbs, st'))
    by (eexists; eexists; vm_compute; reflexivity).
  destruct Hrun as (arbs & st' & Hrun).
  exists arbs, st'. split; [exact Hrun|].
  destruct (DetectArbitrage_requests _ _ _ _ _ _ Hrun) as [Hcount _]. exact Hcount.
Defined.

(** X15. After a gas block in which both fetches succeed, with gas used
    below 2^63, the profitability query answers yes exactly when the gross
    profit exceeds gas used times gas price. *)
Theorem profitable_after_gas env txHash arb st gasUsed st1 gasPrice st2 :
  eth.TransactionReceipt env txHash st = (Ok gasUsed, st1) ->
  eth.GetTransaction env txHash st1 = (Ok gasPrice, st2) ->
  0 <= gasUsed < 2 ^ 63 ->
  exists arb',
    arbitrage.withGas env txHash arb st = (Ok arb', st2)
    /\ (arbitrage.IsProfitable arb' = true <-> gasUsed * gasPrice < Profit arb).
Proof.
  intros H1 H2 Hr.
  destruct (withGas_both env txHash arb st gasUsed st1 gasPrice st2 H1 H2)
    as (arb' & Hrun & _ & _ & _ & Hnet).
  exists arb'. split; [exact Hrun|].
  unfold arbitrage.IsProfitable. rewrite Hnet, i64_id by exact Hr.
  rewrite Z.ltb_lt. lia.
Qed.

Lemma profitable_after_gas_witness :
  exists arb',
    arbitrage.withGas (sample.envOf (sample.gasNode 21000 2) 10) []
      (sample.finding 50000) (sample.initial 0)
    = (Ok arb',
       (eth.GetTransaction (sample.envOf (sample.gasNode 21000 2) 10) []
          (eth.TransactionReceipt (sample.envOf (sample.gasNode 21000 2) 10) []
             (sample.initial 0)).2).2)
    /\ (arbitrage.IsProfitable arb' = true <-> 21000 * 2 < 50000).
Proof.
  apply (profitable_after_gas (sample.envOf (sample.gasNode 21000 2) 10) []
           (sample.finding 50000) (sample.initial 0) 21000
           (eth.TransactionReceipt (sample.envOf (sample.gasNode 21000 2) 10) []
              (sample.initial 0)).2 2).
  - reflexivity.
  - reflexivity.
  - lia.
Defined.

(** ** Order of the swaps given to the detector *)

Lemma NoDup_fmap_elem_inj {A B} (f : A -> B) (l : list A) x y :
  NoDup (f <$> l) -> x ∈ l -> y ∈ l -> f x = f y -> x = y.
Proof.
  induction l as [|a l IH]; intros Hnd Hx Hy Hf; [inversion Hx|].
  rewrite fmap_cons in Hnd. apply NoDup_cons in Hnd as [Hnin Hnd].
  apply elem_of_cons in Hx as [->|Hx]; apply elem_of_cons in Hy as [->|Hy].
  - reflexivity.
  - exfalso. apply Hnin. rewrite Hf. apply list_elem_of_fmap. exists y. auto.
  - exfalso. apply Hnin. rewrite <- Hf. apply list_elem_of_fmap. exists x. auto.
  - apply IH; assumption.
Qed.

Lemma sortSlice_swaps_unique (swaps swaps' : list Swap) :
  swaps' ≡ₚ swaps -> NoDup (LogIndex <$> swaps) ->
  sortSlice decoder.swapLess swaps' = sortSlice decoder.swapLess swaps.
Proof.
  intros Hperm Hnd.
  apply (StronglySorted_unique_strong swapOrder).
  - intros x1 x2 H1 H2 R1 R2. unfold swapOrder in R1, R2.
    rewrite sortSlice_perm, Hperm in H1. rewrite sortSlice_perm in H2.
    apply (NoDup_fmap_elem_inj LogIndex swaps); [assumption..|lia].
  - apply sortSlice_swaps_sorted.
  - apply sortSlice_swaps_sorted.
  - rewrite !sortSlice_perm. exact Hperm.
Qed.

(** X16. When the swaps of a transaction have pairwise distinct log
    indices, the order in which they are handed to [DetectArbitrage] does
    not matter: any rearrangement gives the same findings, the same
    requests and the same final state. *)
Theorem DetectArbitrage_order_independent env txHash (swaps swaps' : list Swap) st :
  swaps' ≡ₚ swaps -> NoDup (LogIndex <$> swaps) ->
  arbitrage.DetectArbitrage env txHash swaps' st
  = arbitrage.DetectArbitrage env txHash swaps st.
Proof.
  intros Hperm Hnd. unfold arbitrage.DetectArbitrage.
  rewrite (Permutation_length Hperm).
  rewrite (sortSlice_swaps_unique swaps swaps' Hperm Hnd). reflexivity.
Qed.

Lemma DetectArbitrage_order_independent_witness :
  arbitrage.DetectArbitrage (sample.envOf (sample.gasNode 21000 2) 10) [x01]
    (reverse sample.cycle) (sample.initial 0)
  = arbitrage.DetectArbitrage (sample.envOf (sample.gasNode 21000 2) 10) [x01]
      sample.cycle (sample.initial 0).
Proof.
  apply (DetectArbitrage_order_independent
           (sample.envOf (sample.gasNode 21000 2) 10) [x01]
           sample.cycle (reverse sample.cycle) (sample.initial 0)).
  - apply reverse_Permutation.
  - apply (bool_decide_unpack _). vm_compute. exact I.
Defined.

(** ** Swaps without a resolved flow *)

Lemma buildFlows_app a b :
  arbitrage.buildFlows (a ++ b) = arbitrage.buildFlows a ++ arbitrage.buildFlows b.
Proof.
  induction a as [|s a IH]; [reflexivity|]. simpl.
  destruct (arbitrage.resolved (arbitrage.flowOf s)); simpl; rewrite IH; reflexivity.
Qed.

(** X17. Cyclic detection passes over a swap from which no flow can be
    derived: inserted anywhere after the first swap of the list, such a
    swap changes neither whether a finding is produced nor its amounts,
    profit, tokens, transaction or arbitrageur; only the reported path
    contains it. The connectivity check therefore spans the resolved flows,
    not every swap of the path. *)
Theorem unresolved_swap_is_transparent swap0 before z after :
  arbitrage.resolved (arbitrage.flowOf z) = false ->
  match arbitrage.detectCyclicArbitrage (swap0 :: before ++ after) with
  | Some arb =>
      exists arb',
        arbitrage.detectCyclicArbitrage (swap0 :: before ++ z :: after) = Some arb'
        /\ Path arb' = swap0 :: before ++ z :: after
        /\ Profit arb' = Profit arb
        /\ AmountIn arb' = AmountIn arb /\ AmountOut arb' = AmountOut arb
        /\ TokenStart arb' = TokenStart arb /\ TokenEnd arb' = TokenEnd arb
        /\ ProfitToken arb' = ProfitToken arb
        /\ arbTxHash arb' = arbTxHash arb /\ Arbitrageur arb' = Arbitrageur arb
  | None => arbitrage.detectCyclicArbitrage (swap0 :: before ++ z :: after) = None
  end.
Proof.
  intros Hz.
  assert (Hflows : arbitrage.buildFlows (swap0 :: before ++ z :: after)
                   = arbitrage.buildFlows (swap0 :: before ++ after)).
  { change (swap0 :: before ++ z :: after) with ((swap0 :: before) ++ [z] ++ after).
    change (swap0 :: before ++ after) with ((swap0 :: before) ++ after).
    rewrite !buildFlows_app. f_equal. simpl. rewrite Hz. reflexivity. }
  unfold arbitrage.detectCyclicArbitrage. rewrite Hflows.
  pose proof (buildFlows_length (swap0 :: before ++ after)) as Hle.
  set (flows := arbitrage.buildFlows (swap0 :: before ++ after)) in *.
  assert (Hlz : (length (swap0 :: before ++ z :: after) <? 2)%nat = false).
  { apply Nat.ltb_ge. cbn [length]. rewrite length_app. cbn [length]. lia. }
  rewrite Hlz.
  destruct (Nat.ltb_spec (length flows) 2) as [Hf|Hf].
  { destruct (length (swap0 :: before ++ after) <? 2)%nat; reflexivity. }
  replace (length (swap0 :: before ++ after) <? 2)%nat with false
    by (symmetry; apply Nat.ltb_ge; lia).
  cbn [head].
  destruct (head flows) as [first|]; [|reflexivity].
  destruct (last flows) as [final|]; [|reflexivity].
  destruct (negb (bool_decide (arbitrage.tokenIn first = arbitrage.tokenOut final)));
    [reflexivity|].
  destruct (negb (arbitrage.connected flows)); [reflexivity|].
  destruct (arbitrage.amountIn first) as [aIn|]; [|reflexivity].
  destruct (arbitrage.amountOut final) as [aOut|]; [|reflexivity].
  destruct (aOut <=? aIn); [reflexivity|].
  eexists. split; [reflexivity|]. simpl. repeat split; reflexivity.
Qed.

Lemma unresolved_swap_is_transparent_witness :
  exists arb',
    arbitrage.detectCyclicArbitrage
      (sample.swapOf 0 sample.poolX sample.tokenA sample.tokenB 1000 500
       :: [sample.swapOf 1 sample.poolY sample.tokenB sample.tokenC 500 700]
          ++ sample.idleSwap
          :: [sample.swapOf 2 sample.poolZ sample.tokenC sample.tokenA 700 1100])
    = Some arb'
    /\ Profit arb' = 100.
Proof.
  pose proof (unresolved_swap_is_transparent
                (sample.swapOf 0 sample.poolX sample.tokenA sample.tokenB 1000 500)
                [sample.swapOf 1 sample.poolY sample.tokenB sample.tokenC 500 700]
                sample.idleSwap
                [sample.swapOf 2 sample.poolZ sample.tokenC sample.tokenA 700 1100]
                eq_refl) as Hx.
  remember (arbitrage.detectCyclicArbitrage
              (sample.swapOf 0 sample.poolX sample.tokenA sample.tokenB 1000 500
               :: [sample.swapOf 1 sample.poolY sample.tokenB sample.tokenC 500 700]
                  ++ [sample.swapOf 2 sample.poolZ sample.tokenC sample.tokenA 700 1100]))
    as found eqn:Efound.
  vm_compute in Efound. subst found.
  destruct Hx as (arb' & Hrun & _ & Hp & _).
  exists arb'. split; [exact Hrun|]. rewrite Hp. reflexivity.
Defined.

(** ** The watermark *)

Lemma kw_ret {A} (a : A) : keepsWatermark (ret a).
Proof. intros st. reflexivity. Qed.

Lemma kw_fail {A} e : keepsWatermark (@fail A e).
Proof. intros st. reflexivity. Qed.

Lemma kw_bind {A B} (m : M A) (k : A -> M B) :
  keepsWatermark m -> (forall a, keepsWatermark (k a)) -> keepsWatermark (bind m k).
Proof.
  intros Hm Hk st. unfold bind. specialize (Hm st).
  destruct (m st) as [[a|e| |] st1]; simpl in *; [|exact Hm|exact Hm|exact Hm].
  rewrite Hk. exact Hm.
Qed.

Lemma kw_wrapErr {A} ctx (m : M A) : keepsWatermark m -> keepsWatermark (wrapErr ctx m).
Proof.
  intros Hm st. unfold wrapErr. specialize (Hm st).
  destruct (m st) as [[a|e| |] st1]; exact Hm.
Qed.

Lemma kw_withRetry {A} env op req (answer : nat -> option A) :
  keepsWatermark (eth.withRetry env op req answer).
Proof.
  intros st. destruct (eth.withRetry env op req answer st) as [r st'] eqn:E.
  apply withRetry_caches in E. simpl. tauto.
Qed.

Create HintDb watermark.
#[local] Hint Resolve kw_ret kw_fail kw_wrapErr kw_withRetry : watermark.

Ltac keeps_watermark :=
  repeat first
    [ apply kw_bind; [|intros ?]
    | match goal with |- keepsWatermark (if ?c then _ else _) => destruct c end
    | solve [auto with watermark] ].

Lemma kw_v2_getPoolInfo env pool : keepsWatermark (uniswapv2.getPoolInfo env pool).
Proof.
  intros st. destruct (v2Cache st !! pool) as [info|] eqn:Hc.
  - rewrite (v2_getPoolInfo_hit env st pool info Hc). reflexivity.
  - rewrite (v2_getPoolInfo_miss env pool st Hc).
    assert (K0 : keepsWatermark (uniswapv2.callToken0 env pool))
      by (unfold uniswapv2.callToken0, eth.CallContract; keeps_watermark).
    assert (K1 : keepsWatermark (uniswapv2.callToken1 env pool))
      by (unfold uniswapv2.callToken1, eth.CallContract; keeps_watermark).
    specialize (K0 st).
    destruct (uniswapv2.callToken0 env pool st) as [[t0|e| |] st1]; simpl in *;
      try exact K0.
    specialize (K1 st1).
    destruct (uniswapv2.callToken1 env pool st1) as [[t1|e| |] st2]; simpl in *;
      congruence.
Qed.

Lemma kw_v3_getPoolInfo env pool : keepsWatermark (uniswapv3.getPoolInfo env pool).
Proof.
  intros st. destruct (v3Cache st !! pool) as [info|] eqn:Hc.
  - rewrite (v3_getPoolInfo_hit env st pool info Hc). reflexivity.
  - rewrite (v3_getPoolInfo_miss env pool st Hc).
    assert (K0 : keepsWatermark (uniswapv3.callToken0 env pool))
      by (unfold uniswapv3.callToken0, eth.CallContract; keeps_watermark).
    assert (K1 : keepsWatermark (uniswapv3.callToken1 env pool))
      by (unfold uniswapv3.callToken1, eth.CallContract; keeps_watermark).
    assert (K2 : keepsWatermark (uniswapv3.callFee env pool))
      by (unfold uniswapv3.callFee, eth.CallContract; keeps_watermark).
    specialize (K0 st).
    destruct (uniswapv3.callToken0 env pool st) as [[t0|e| |] st1]; simpl in *;
      try exact K0.
    specialize (K1 st1).
    destruct (uniswapv3.callToken1 env pool st1) as [[t1|e| |] st2]; simpl in *;
      try congruence.
    specialize (K2 st2).
    destruct (uniswapv3.callFee env pool st2) as [[fee|e| |] st3]; simpl in *;
      congruence.
Qed.

Lemma kw_v2_DecodeSwapLog env log : keepsWatermark (uniswapv2.DecodeSwapLog env log).
Proof.
  unfold uniswapv2.DecodeSwapLog.
  repeat match goal with |- keepsWatermark (if ?c then _ else _) => destruct c end;
    try apply kw_fail.
  apply kw_bind; [apply kw_wrapErr, kw_v2_getPoolInfo|intros info; apply kw_ret].
Qed.

Lemma kw_v3_DecodeSwapLog env log : keepsWatermark (uniswapv3.DecodeSwapLog env log).
Proof.
  unfold uniswapv3.DecodeSwapLog.
  repeat match goal with |- keepsWatermark (if ?c then _ else _) => destruct c end;
    try apply kw_fail.
  apply kw_bind; [apply kw_wrapErr, kw_v3_getPoolInfo|intros info].
  destruct (0 <? _), (0 <? _); apply kw_ret.
Qed.

Lemma kw_DecodeSwapLog env log : keepsWatermark (decoder.DecodeSwapLog env log).
Proof.
  unfold decoder.DecodeSwapLog.
  destruct (logTopics log); [apply kw_ret|].
  repeat match goal with |- keepsWatermark (if ?c then _ else _) => destruct c end;
    try apply kw_ret.
  - apply kw_bind; [apply kw_v2_DecodeSwapLog|intros s; apply kw_ret].
  - apply kw_bind; [apply kw_v3_DecodeSwapLog|intros s; apply kw_ret].
Qed.

Lemma kw_decodeEach env logs swaps : keepsWatermark (decoder.decodeEach env logs swaps).
Proof.
  revert swaps. induction logs as [|log rest IH]; intros swaps st; [reflexivity|].
  cbn [decoder.decodeEach]. pose proof (kw_DecodeSwapLog env log st) as K.
  destruct (decoder.DecodeSwapLog env log st) as [[[swap|]|e| |] st1]; simpl in K;
    try (rewrite IH; exact K); exact K.
Qed.

Lemma kw_withGas env txHash arb : keepsWatermark (arbitrage.withGas env txHash arb).
Proof.
  intros st. unfold arbitrage.withGas.
  pose proof (kw_withRetry env opReceipt (ReqReceipt txHash)
                (fun t => u64 <$> nodeReceipt (node env) t txHash) st) as K1.
  fold (eth.TransactionReceipt env txHash) in K1.
  destruct (eth.TransactionReceipt env txHash st) as [[gasUsed|e| |] st1]; simpl in *;
    try exact K1.
  pose proof (kw_withRetry env opTransaction (ReqTransaction txHash)
                (fun t => nodeTransaction (node env) t txHash) st1) as K2.
  fold (eth.GetTransaction env txHash) in K2.
  destruct (eth.GetTransaction env txHash st1) as [[gasPrice|e| |] st2]; simpl in *;
    congruence.
Qed.

Lemma kw_withGasEach env txHash arbs : keepsWatermark (arbitrage.withGasEach env txHash arbs).
Proof.
  induction arbs as [|a rest IH]; [apply kw_ret|].
  cbn [arbitrage.withGasEach]. apply kw_bind; [apply kw_withGas|intros a'].
  apply kw_bind; [exact IH|intros rest']. apply kw_ret.
Qed.

Lemma kw_DetectArbitrage env txHash swaps :
  keepsWatermark (arbitrage.DetectArbitrage env txHash swaps).
Proof.
  unfold arbitrage.DetectArbitrage.
  destruct (length swaps <? 2)%nat; [apply kw_ret|].
  apply kw_bind.
  - destruct (arbitrage.detectCyclicArbitrage _); [|apply kw_ret].
    apply kw_bind; [apply kw_withGas|intros priced; apply kw_ret].
  - intros cyclic. apply kw_bind; [apply kw_withGasEach|intros c; apply kw_ret].
Qed.

Lemma kw_reportEach arbs : keepsWatermark (inspector.reportEach arbs).
Proof.
  induction arbs as [|arb rest IH]; intros st; [reflexivity|].
  cbn [inspector.reportEach]. rewrite IH. reflexivity.
Qed.

Lemma kw_processTransactions env txLogs a b :
  keepsWatermark (inspector.processTransactions env txLogs a b).
Proof.
  revert a b. induction txLogs as [|[txHash logs] rest IH]; intros a b st;
    [reflexivity|].
  cbn [inspector.processTransactions].
  assert (K1 : keepsWatermark (decoder.DecodeSwapsForTransaction env logs)).
  { unfold decoder.DecodeSwapsForTransaction.
    apply kw_bind; [apply kw_decodeEach|intros s; apply kw_ret]. }
  specialize (K1 st).
  destruct (decoder.DecodeSwapsForTransaction env logs st) as [[swaps|e| |] st1];
    simpl in K1; [|rewrite IH; exact K1|exact K1|exact K1].
  pose proof (kw_DetectArbitrage env txHash swaps st1) as K2.
  destruct (arbitrage.DetectArbitrage env txHash swaps st1) as [[arbs|e| |] st2];
    simpl in K2; [|rewrite IH; congruence|simpl; congruence|simpl; congruence].
  pose proof (kw_reportEach arbs st2) as K3.
  destruct (inspector.reportEach arbs st2) as [r st3]. simpl in K3.
  rewrite IH. congruence.
Qed.

Lemma kw_GetAllSwapLogs env fromBlock toBlock :
  keepsWatermark (decoder.GetAllSwapLogs env fromBlock toBlock).
Proof.
  intros st. unfold decoder.GetAllSwapLogs.
  assert (K2 : forall s, lastBlock (uniswapv2.GetSwapLogs env fromBlock toBlock s).2
                         = lastBlock s) by (intros s; apply kw_withRetry).
  assert (K3 : forall s, lastBlock (uniswapv3.GetSwapLogs env fromBlock toBlock s).2
                         = lastBlock s) by (intros s; apply kw_withRetry).
  destruct (EnableUniswapV2 (cfg env));
    [specialize (K2 st);
     destruct (uniswapv2.GetSwapLogs env fromBlock toBlock st) as [[l|e| |] s1]|];
    (destruct (EnableUniswapV3 (cfg env));
     [match goal with
      | |- context [uniswapv3.GetSwapLogs env fromBlock toBlock ?s] =>
          specialize (K3 s);
          destruct (uniswapv3.GetSwapLogs env fromBlock toBlock s) as [[l'|e'| |] s2]
      end|]);
    simpl in *; congruence.
Qed.

Lemma kw_completeEach fromBlock toBlock :
  keepsWatermark (inspector.completeEach fromBlock toBlock).
Proof.
  intros st. unfold inspector.completeEach.
  destruct (toBlock <? fromBlock); [reflexivity|].
  destruct (toBlock =? 2 ^ 64 - 1); reflexivity.
Qed.

Lemma kw_processBlockRange env fromBlock toBlock :
  keepsWatermark (inspector.processBlockRange env fromBlock toBlock).
Proof.
  unfold inspector.processBlockRange.
  apply kw_bind; [apply kw_GetAllSwapLogs|intros logs].
  destruct (length logs =? 0)%nat; [apply kw_completeEach|].
  apply kw_bind; [apply kw_processTransactions|intros totals].
  destruct (i64 _ =? 0); [intros st; reflexivity|apply kw_completeEach].
Qed.

(** X18. A poll tick that finds no block above the watermark does nothing
    beyond the head lookup: it returns without error, having sent only the
    head requests, with the watermark, the caches and the reported findings
    as they were. *)
Theorem tick_without_new_block env st head st1 :
  eth.BlockNumber env st = (Ok head, st1) ->
  head < u64 (lastBlock st + 1) ->
  inspector.processNewBlocks env st = (Ok tt, st1)
  /\ lastBlock st1 = lastBlock st
  /\ v2Cache st1 = v2Cache st /\ v3Cache st1 = v3Cache st
  /\ reported st1 = reported st.
Proof.
  intros Hhead Hlt.
  assert (Hframe := Hhead). unfold eth.BlockNumber in Hframe.
  apply withRetry_caches in Hframe as (F2 & F3 & FL & FR).
  split; [|auto].
  unfold inspector.processNewBlocks. rewrite (bind_ok _ _ _ _ _ Hhead).
  unfold inspector.selectRange. rewrite FL.
  destruct (Z.ltb_spec head (u64 (lastBlock st + 1))); [reflexivity|lia].
Qed.

Lemma tick_without_new_block_witness :
  inspector.processNewBlocks (sample.envOf (sample.quietNode 7) 10) (sample.initial 7)
  = (Ok tt, (eth.BlockNumber (sample.envOf (sample.quietNode 7) 10) (sample.initial 7)).2).
Proof.
  apply (tick_without_new_block (sample.envOf (sample.quietNode 7) 10)
           (sample.initial 7) 7).
  - reflexivity.
  - vm_compute. reflexivity.
Defined.

(** X19. Away from overflow, the range a tick selects starts right above
    the watermark, never reaches beyond the chain head, never spans more
    than batch size + 1 blocks, is non-empty when the batch size is at
    least 1, and ends at the head whenever the head is within batch size of
    the watermark (one tick then catches up). *)
Theorem selected_range_bounds env watermark head fromBlock toBlock :
  0 <= watermark -> watermark + 1 <= head -> head < 2 ^ 64 ->
  0 <= BatchSize (cfg env) < 2 ^ 63 ->
  inspector.selectRange env watermark head = Some (fromBlock, toBlock) ->
  fromBlock = watermark + 1
  /\ toBlock <= head
  /\ toBlock - fromBlock + 1 <= BatchSize (cfg env) + 1
  /\ watermark <= toBlock
  /\ (1 <= BatchSize (cfg env) -> fromBlock <= toBlock)
  /\ (head <= watermark + BatchSize (cfg env) -> toBlock = head).
Proof.
  intros Hw Hh Hmax Hb Hsel.
  rewrite (selectRange_spec env watermark head Hw Hh Hmax Hb) in Hsel.
  inversion Hsel; subst. clear Hsel.
  destruct (Z.eqb_spec head (watermark + BatchSize (cfg env) + 1)); lia.
Qed.

Lemma selected_range_bounds_witness :
  inspector.selectRange (sample.envOf (sample.quietNode 20) 10) 3 20 = Some (4, 13)
  /\ (13 : Z) <= 20 /\ 13 - 4 + 1 <= BatchSize (sample.config 10) + 1.
Proof.
  assert (Hsel : inspector.selectRange (sample.envOf (sample.quietNode 20) 10) 3 20
                 = Some (4, 13)) by (vm_compute; reflexivity).
  assert (H0 : 0 <= 3) by lia.
  assert (H1 : 3 + 1 <= 20) by lia.
  assert (H2 : 20 < 2 ^ 64) by lia.
  assert (H3 : 0 <= BatchSize (cfg (sample.envOf (sample.quietNode 20) 10)) < 2 ^ 63)
    by (simpl; lia).
  destruct (selected_range_bounds (sample.envOf (sample.quietNode 20) 10) 3 20 4 13
              H0 H1 H2 H3 Hsel) as (_ & Hle & Hspan & _).
  split; [exact Hsel|]. split; [exact Hle|exact Hspan].
Defined.

(** Whatever the batch size, a range selected from a watermark below the
    largest [uint64] ends between the watermark and the head. *)
Lemma selected_range_within env watermark head fromBlock toBlock :
  0 <= watermark < 2 ^ 64 - 1 -> 0 <= head < 2 ^ 64 ->
  inspector.selectRange env watermark head = Some (fromBlock, toBlock) ->
  watermark <= toBlock /\ toBlock <= head.
Proof.
  intros Hw Hh. unfold inspector.selectRange.
  rewrite (u64_id (watermark + 1)) by lia.
  destruct (Z.ltb_spec head (watermark + 1)) as [|Hge]; [discriminate|].
  pose proof (u64_range (BatchSize (cfg env))) as Hb.
  rewrite (u64_id (head - (watermark + 1))) by lia.
  destruct (Z.ltb_spec (u64 (BatchSize (cfg env))) (head - (watermark + 1)));
    intros Hsel; inversion Hsel; subst; clear Hsel; [|lia].
  rewrite (u64_id (watermark + 1 + u64 (BatchSize (cfg env)))) by lia.
  rewrite u64_id by lia. lia.
Qed.

(** X20. From a watermark below the largest uint64, and whatever the batch
    size, a poll tick never moves the watermark backwards, and moves it at
    all only when it returns without error: after a tick that fails, panics
    or never returns the watermark is what it was, and after a successful
    one it lies between its old value and the chain head the tick
    observed. (At the largest uint64 the next block number wraps to 0 and
    the watermark can fall.) *)
Theorem watermark_moves_forward env st r st' :
  0 <= lastBlock st < 2 ^ 64 - 1 ->
  inspector.processNewBlocks env st = (r, st') ->
  lastBlock st <= lastBlock st'
  /\ (r <> Ok tt -> lastBlock st' = lastBlock st)
  /\ (forall head st1, eth.BlockNumber env st = (Ok head, st1) ->
        lastBlock st' <= Z.max (lastBlock st) head).
Proof.
  intros Hw. unfold inspector.processNewBlocks, bind.
  destruct (eth.BlockNumber env st) as [[head|e| |] st1] eqn:Ehead.
  2,3,4: intros H'; inversion H'; subst;
    unfold eth.BlockNumber in Ehead; apply withRetry_caches in Ehead as (_ & _ & FL & _);
    rewrite FL; (split; [lia|]); (split; [reflexivity|]);
    intros head s1 Hx; discriminate.
  pose proof (BlockNumber_range env st head st1 Ehead) as Hh.
  assert (FL : lastBlock st1 = lastBlock st).
  { unfold eth.BlockNumber in Ehead. apply withRetry_caches in Ehead. tauto. }
  rewrite FL.
  destruct (inspector.selectRange env (lastBlock st) head) as [[fromBlock toBlock]|] eqn:Esel.
  - destruct (selected_range_within env (lastBlock st) head fromBlock toBlock)
      as (Hto1 & Hto2); try assumption.
    pose proof (kw_processBlockRange env fromBlock toBlock st1) as K.
    destruct (inspector.processBlockRange env fromBlock toBlock st1) as [[u|e| |] st2];
      simpl in K; intros H'; inversion H'; subst; simpl.
    + split; [lia|]. split; [intros Hn; destruct u; contradiction|].
      intros h s1 Hx. inversion Hx; subst. lia.
    + rewrite K, FL. split; [lia|]. split; [reflexivity|]. intros; lia.
    + rewrite K, FL. split; [lia|]. split; [reflexivity|]. intros; lia.
    + rewrite K, FL. split; [lia|]. split; [reflexivity|]. intros; lia.
  - intros H'. inversion H'; subst. rewrite FL.
    split; [lia|]. split; [reflexivity|]. intros; lia.
Qed.

Lemma watermark_moves_forward_witness :
  lastBlock (sample.initial 3)
  <= lastBlock (inspector.processNewBlocks (sample.envOf (sample.quietNode 20) 10)
                  (sample.initial 3)).2
  /\ lastBlock (inspector.processNewBlocks (sample.envOf (sample.quietNode 20) 10)
                  (sample.initial 3)).2 <= Z.max (lastBlock (sample.initial 3)) 20.
Proof.
  assert (Hw : 0 <= lastBlock (sample.initial 3) < 2 ^ 64 - 1) by (simpl; lia).
  destruct (watermark_moves_forward (sample.envOf (sample.quietNode 20) 10)
              (sample.initial 3)
              (inspector.processNewBlocks (sample.envOf (sample.quietNode 20) 10)
                 (sample.initial 3)).1
              (inspector.processNewBlocks (sample.envOf (sample.quietNode 20) 10)
                 (sample.initial 3)).2 Hw)
    as (Hmono & _ & Hhead).
  - destruct (inspector.processNewBlocks _ _); reflexivity.
  - split; [exact Hmono|].
    apply (Hhead 20 (eth.BlockNumber (sample.envOf (sample.quietNode 20) 10)
                       (sample.initial 3)).2).
    reflexivity.
Defined.

(** X21. With a batch size of zero the driver cannot make progress once
    two or more blocks are pending: the tick selects the empty range
    [watermark+1, watermark], so the watermark stays where it is whatever
    happens, and if the node returns any log for that query the closing
    average divides by a block count of zero and the tick panics. *)
Theorem zero_batch_stalls env st head st1 r st' :
  BatchSize (cfg env) = 0 ->
  eth.BlockNumber env st = (Ok head, st1) ->
  0 <= lastBlock st -> lastBlock st + 1 < head ->
  inspector.processNewBlocks env st = (r, st') ->
  inspector.selectRange env (lastBlock st) head
  = Some (lastBlock st + 1, lastBlock st)
  /\ lastBlock st' = lastBlock st
  /\ (r = Ok tt \/ r = Panic)
  /\ (forall logs st2,
        decoder.GetAllSwapLogs env (lastBlock st + 1) (lastBlock st) st1
        = (Ok logs, st2) ->
        logs <> [] -> r = Panic).
Proof.
  intros Hb Hhead Hw Hlt.
  pose proof (BlockNumber_range env st head st1 Hhead) as Hh.
  assert (FL : lastBlock st1 = lastBlock st).
  { unfold eth.BlockNumber in Hhead. apply withRetry_caches in Hhead. tauto. }
  assert (Hsel : inspector.selectRange env (lastBlock st) head
                 = Some (lastBlock st + 1, lastBlock st)).
  { rewrite selectRange_spec by (rewrite ?Hb; lia). rewrite Hb.
    destruct (Z.eqb_spec head (lastBlock st + 0 + 1)); [lia|].
    f_equal. f_equal. lia. }
  unfold inspector.processNewBlocks. rewrite (bind_ok _ _ _ _ _ Hhead).
  rewrite FL, Hsel.
  pose proof (kw_processBlockRange env (lastBlock st + 1) (lastBlock st) st1) as K.
  unfold inspector.processBlockRange in *.
  destruct (GetAllSwapLogs_ok env (lastBlock st + 1) (lastBlock st) st1)
    as (logs & st2 & Hlogs).
  rewrite (bind_ok _ _ _ _ _ Hlogs) in *.
  assert (Hloop : forall s,
             inspector.completeEach (lastBlock st + 1) (lastBlock st) s = (Ok tt, s)).
  { intros s. unfold inspector.completeEach.
    destruct (Z.ltb_spec (lastBlock st) (lastBlock st + 1)); [reflexivity|lia]. }
  destruct (Nat.eqb_spec (length logs) 0) as [Hempty|Hnonempty].
  - rewrite Hloop in *. simpl in K. intros H'. inversion H'; subst. simpl.
    split; [reflexivity|]. split; [congruence|]. split; [auto|].
    intros logs' s2 Hl Hne. rewrite Hlogs in Hl. inversion Hl; subst.
    destruct logs'; [contradiction|discriminate].
  - destruct (processTransactions_ok env (decoder.GroupSwapsByTransaction logs) 0 0 st2)
      as (totals & st3 & Htx).
    rewrite (bind_ok _ _ _ _ _ Htx) in *.
    replace (lastBlock st - (lastBlock st + 1) + 1) with 0 in * by lia.
    change (i64 (u64 0) =? 0) with true in *. cbv iota in *. simpl in K.
    intros H'. inversion H'; subst.
    split; [reflexivity|]. split; [congruence|]. split; [auto|]. intros; reflexivity.
Qed.

Lemma zero_batch_stalls_witness :
  inspector.selectRange (sample.envOf (sample.quietNode 20) 0) 3 20 = Some (3 + 1, 3)
  /\ lastBlock (inspector.processNewBlocks (sample.envOf (sample.quietNode 20) 0)
                  (sample.initial 3)).2 = 3.
Proof.
  destruct (zero_batch_stalls (sample.envOf (sample.quietNode 20) 0) (sample.initial 3) 20
              (eth.BlockNumber (sample.envOf (sample.quietNode 20) 0) (sample.initial 3)).2
              (inspector.processNewBlocks (sample.envOf (sample.quietNode 20) 0)
                 (sample.initial 3)).1
              (inspector.processNewBlocks (sample.envOf (sample.quietNode 20) 0)
                 (sample.initial 3)).2)
    as (Hsel & Hkeep & _).
  - reflexivity.
  - reflexivity.
  - simpl. lia.
  - simpl. lia.
  - destruct (inspector.processNewBlocks _ _); reflexivity.
  - split; [exact Hsel|exact Hkeep].
Defined.

(** X22. After the initialisation of [Start] the first block a tick will
    look at is the configured start block when one is set, and the chain
    head otherwise; this holds at head 0 as well, where the watermark wraps
    to 2^64 - 1 and the next block number wraps back to 0. *)
Theorem initialize_first_block env st head st1 :
  eth.BlockNumber env st = (Ok head, st1) ->
  0 <= StartBlock (cfg env) < 2 ^ 64 ->
  exists st',
    inspector.initialize env st = (Ok tt, st')
    /\ u64 (lastBlock st' + 1)
       = (if 0 <? StartBlock (cfg env) then StartBlock (cfg env) else head)
    /\ requests st' = requests st1
    /\ v2Cache st' = v2Cache st /\ v3Cache st' = v3Cache st.
Proof.
  intros Hhead Hs.
  pose proof (BlockNumber_range env st head st1 Hhead) as Hh.
  assert (Hframe := Hhead). unfold eth.BlockNumber in Hframe.
  apply withRetry_caches in Hframe as (F2 & F3 & _ & _).
  unfold inspector.initialize. rewrite (bind_ok _ _ _ _ _ Hhead).
  eexists. split; [reflexivity|]. cbn [lastBlock setLastBlock requests v2Cache v3Cache].
  split; [|auto].
  destruct (Z.ltb_spec 0 (StartBlock (cfg env))).
  - rewrite (u64_id (StartBlock (cfg env) - 1)) by lia.
    replace (StartBlock (cfg env) - 1 + 1) with (StartBlock (cfg env)) by lia.
    apply u64_id. lia.
  - unfold u64. rewrite Zplus_mod_idemp_l.
    replace (head - 1 + 1) with head by lia. apply Z.mod_small. exact Hh.
Qed.

Lemma initialize_first_block_witness :
  exists st',
    inspector.initialize (sample.envOf (sample.quietNode 0) 10) (sample.initial 5)
    = (Ok tt, st')
    /\ lastBlock st' = 2 ^ 64 - 1
    /\ u64 (lastBlock st' + 1) = 0.
Proof.
  destruct (initialize_first_block (sample.envOf (sample.quietNode 0) 10)
              (sample.initial 5) 0
              (eth.BlockNumber (sample.envOf (sample.quietNode 0) 10) (sample.initial 5)).2)
    as (st' & Hrun & Hfirst & _).
  - reflexivity.
  - simpl. lia.
  - exists st'. split; [exact Hrun|]. split; [|exact Hfirst].
    vm_compute in Hrun. inversion Hrun. reflexivity.
Defined.

(** ** Statistics *)

Lemma u64_add_l x y : u64 (u64 x + y) = u64 (x + y).
Proof. unfold u64. apply Zplus_mod_idemp_l. Qed.

Lemma completeBlocks_iter swaps arbs stats (n : nat) :
  let stats' := Nat.iter (S n) (output.LogBlockComplete swaps arbs) stats in
  output.BlocksProcessed stats' = u64 (output.BlocksProcessed stats + Z.of_nat (S n))
  /\ output.SwapsDetected stats'
     = u64 (output.SwapsDetected stats + Z.of_nat (S n) * u64 swaps)
  /\ output.ArbitragesFound stats'
     = u64 (output.ArbitragesFound stats + Z.of_nat (S n) * u64 arbs)
  /\ output.TotalProfitWei stats' = output.TotalProfitWei stats
  /\ output.TotalNetProfit stats' = output.TotalNetProfit stats.
Proof.
  induction n as [|n IH].
  - change (Nat.iter 1 (output.LogBlockComplete swaps arbs) stats)
      with (output.LogBlockComplete swaps arbs stats).
    cbn [output.LogBlockComplete output.BlocksProcessed output.SwapsDetected
         output.ArbitragesFound output.TotalProfitWei output.TotalNetProfit].
    change (Z.of_nat 1) with 1.
    repeat split; try reflexivity; f_equal; ring.
  - destruct IH as (H1 & H2 & H3 & H4 & H5).
    change (Nat.iter (S (S n)) (output.LogBlockComplete swaps arbs) stats)
      with (output.LogBlockComplete swaps arbs
              (Nat.iter (S n) (output.LogBlockComplete swaps arbs) stats)).
    cbn [output.LogBlockComplete output.BlocksProcessed output.SwapsDetected
         output.ArbitragesFound output.TotalProfitWei output.TotalNetProfit].
    rewrite H1, H2, H3, !u64_add_l.
    repeat split; try assumption; f_equal; rewrite ?(Nat2Z.inj_succ (S n)); ring.
Qed.

(** X23. The running statistics count blocks exactly but swaps and findings
    only in whole multiples of the range length: closing a range of N
    blocks in which S swaps and A findings were seen adds N to the block
    counter, N * (S div N) to the swap counter and N * (A div N) to the
    finding counter (all modulo 2^64). So a range with fewer findings than
    blocks adds nothing to the finding counter. *)
Theorem closeRange_statistics fromBlock toBlock totalSwaps totalArbitrages stats :
  0 <= fromBlock <= toBlock -> toBlock < 2 ^ 63 - 1 ->
  0 <= totalSwaps < 2 ^ 63 -> 0 <= totalArbitrages < 2 ^ 63 ->
  let blocks := toBlock - fromBlock + 1 in
  exists stats',
    output.closeRange fromBlock toBlock totalSwaps totalArbitrages stats
    = output.Finished stats'
    /\ output.BlocksProcessed stats' = u64 (output.BlocksProcessed stats + blocks)
    /\ output.SwapsDetected stats'
       = u64 (output.SwapsDetected stats + blocks * (totalSwaps / blocks))
    /\ output.ArbitragesFound stats'
       = u64 (output.ArbitragesFound stats + blocks * (totalArbitrages / blocks))
    /\ blocks * (totalSwaps / blocks) <= totalSwaps
    /\ blocks * (totalArbitrages / blocks) <= totalArbitrages
    /\ (totalArbitrages < blocks ->
        output.ArbitragesFound stats' = u64 (output.ArbitragesFound stats)).
Proof.
  intros Hr Hmax Hs Ha blocks.
  assert (Hb : 0 < blocks < 2 ^ 63) by (unfold blocks; lia).
  unfold output.closeRange. fold blocks.
  rewrite (u64_id blocks) by lia. rewrite (i64_id blocks) by lia.
  destruct (Z.eqb_spec blocks 0) as [|Hnz]; [lia|].
  rewrite !Z.quot_div_nonneg by lia.
  assert (Hqs : 0 <= totalSwaps / blocks <= totalSwaps).
  { split; [apply Z.div_pos; lia|]. apply Z.div_le_upper_bound; nia. }
  assert (Hqa : 0 <= totalArbitrages / blocks <= totalArbitrages).
  { split; [apply Z.div_pos; lia|]. apply Z.div_le_upper_bound; nia. }
  rewrite !i64_id by lia.
  unfold output.completeBlocks. fold blocks.
  destruct (Z.ltb_spec toBlock fromBlock); [lia|].
  destruct (Z.eqb_spec toBlock (2 ^ 64 - 1)) as [|Hnm]; [lia|].
  destruct (Z.to_nat blocks) as [|k] eqn:En; [lia|].
  destruct (completeBlocks_iter (totalSwaps / blocks) (totalArbitrages / blocks) stats k)
    as (H1 & H2 & H3 & _).
  assert (Hk : Z.of_nat (S k) = blocks) by lia.
  rewrite Hk in H1, H2, H3.
  rewrite (u64_id (totalSwaps / blocks)) in H2 by lia.
  rewrite (u64_id (totalArbitrages / blocks)) in H3 by lia.
  eexists. split; [reflexivity|].
  split; [exact H1|]. split; [exact H2|]. split; [exact H3|].
  split; [apply Z.mul_div_le; lia|]. split; [apply Z.mul_div_le; lia|].
  intros Hfew. rewrite H3, Z.div_small by lia. f_equal. lia.
Qed.

Lemma closeRange_statistics_witness :
  exists stats',
    output.closeRange 1 10 25 3 sample.freshStats = output.Finished stats'
    /\ output.BlocksProcessed stats' = 10
    /\ output.SwapsDetected stats' = 20
    /\ output.ArbitragesFound stats' = 0.
Proof.
  destruct (closeRange_statistics 1 10 25 3 sample.freshStats)
    as (stats' & Hrun & H1 & H2 & H3 & _); try lia.
  exists stats'. split; [exact Hrun|].
  rewrite H1, H2, H3. vm_compute. auto.
Defined.

(** ** The single-block entry point *)

Lemma ir_ret {A} (a : A) : ignoresReported (ret a).
Proof. intros found st. reflexivity. Qed.

Lemma ir_fail {A} e : ignoresReported (@fail A e).
Proof. intros found st. reflexivity. Qed.

Lemma ir_bind {A B} (m : M A) (k : A -> M B) :
  ignoresReported m -> (forall a, ignoresReported (k a)) -> ignoresReported (bind m k).
Proof.
  intros Hm Hk found st. unfold bind. rewrite Hm.
  destruct (m st) as [[a|e| |] s]; simpl; [apply Hk|reflexivity|reflexivity|reflexivity].
Qed.

Lemma ir_wrapErr {A} ctx (m : M A) : ignoresReported m -> ignoresReported (wrapErr ctx m).
Proof.
  intros Hm found st. unfold wrapErr. rewrite Hm.
  destruct (m st) as [[a|e| |] s]; reflexivity.
Qed.

Lemma ir_retry {A} n req (answer : nat -> option A) found st :
  eth.retry n req answer (withReported found st)
  = ((eth.retry n req answer st).1, withReported found (eth.retry n req answer st).2).
Proof.
  revert st. induction n as [|n IH]; intros st; [reflexivity|].
  cbn [eth.retry]. change (now (withReported found st)) with (now st).
  destruct (answer (now st)); [reflexivity|].
  change (send req (withReported found st)) with (withReported found (send req st)).
  apply IH.
Qed.

Lemma ir_withRetry {A} env op req (answer : nat -> option A) :
  ignoresReported (eth.withRetry env op req answer).
Proof.
  intros found st. unfold eth.withRetry. rewrite ir_retry.
  destruct (eth.retry _ req answer st) as [[a|] s]; reflexivity.
Qed.

Create HintDb reported.
#[local] Hint Resolve ir_ret ir_fail ir_wrapErr ir_withRetry : reported.

Ltac ignores_reported :=
  repeat first
    [ apply ir_bind; [|intros ?]
    | match goal with |- ignoresReported (if ?c then _ else _) => destruct c end
    | solve [auto with reported] ].

Lemma ir_v2_getPoolInfo env pool : ignoresReported (uniswapv2.getPoolInfo env pool).
Proof.
  intros found st. unfold uniswapv2.getPoolInfo.
  change (v2Cache (withReported found st)) with (v2Cache st).
  destruct (v2Cache st !! pool); [reflexivity|].
  assert (Hrest : ignoresReported
    (bind (wrapErr "failed to get token0" (uniswapv2.callToken0 env pool)) (fun token0 =>
     bind (wrapErr "failed to get token1" (uniswapv2.callToken1 env pool)) (fun token1 =>
     fun st' => (Ok {| v2types.Token0 := token0; v2types.Token1 := token1;
                       v2types.Reserve0 := None; v2types.Reserve1 := None |},
                 setV2Cache (<[pool := {| v2types.Token0 := token0;
                                          v2types.Token1 := token1;
                                          v2types.Reserve0 := None;
                                          v2types.Reserve1 := None |}]> (v2Cache st')) st'))))).
  { unfold uniswapv2.callToken0, uniswapv2.callToken1, eth.CallContract.
    apply ir_bind; [apply ir_wrapErr; ignores_reported|intros token0].
    apply ir_bind; [apply ir_wrapErr; ignores_reported|intros token1].
    intros f s. reflexivity. }
  apply Hrest.
Qed.

Lemma ir_v3_getPoolInfo env pool : ignoresReported (uniswapv3.getPoolInfo env pool).
Proof.
  intros found st. unfold uniswapv3.getPoolInfo.
  change (v3Cache (withReported found st)) with (v3Cache st).
  destruct (v3Cache st !! pool); [reflexivity|].
  assert (Hrest : ignoresReported
    (bind (wrapErr "failed to get token0" (uniswapv3.callToken0 env pool)) (fun token0 =>
     bind (wrapErr "failed to get token1" (uniswapv3.callToken1 env pool)) (fun token1 =>
     bind (wrapErr "failed to get fee" (uniswapv3.callFee env pool)) (fun fee =>
     fun st' => (Ok {| v3types.Token0 := token0; v3types.Token1 := token1;
                       v3types.Fee := fee |},
                 setV3Cache (<[pool := {| v3types.Token0 := token0;
                                          v3types.Token1 := token1;
                                          v3types.Fee := fee |}]> (v3Cache st')) st')))))).
  { unfold uniswapv3.callToken0, uniswapv3.callToken1, uniswapv3.callFee,
      eth.CallContract.
    apply ir_bind; [apply ir_wrapErr; ignores_reported|intros token0].
    apply ir_bind; [apply ir_wrapErr; ignores_reported|intros token1].
    apply ir_bind; [apply ir_wrapErr; ignores_reported|intros fee].
    intros f s. reflexivity. }
  apply Hrest.
Qed.

Lemma ir_DecodeSwapLog env log : ignoresReported (decoder.DecodeSwapLog env log).
Proof.
  unfold decoder.DecodeSwapLog.
  destruct (logTopics log); [apply ir_ret|].
  repeat match goal with |- ignoresReported (if ?c then _ else _) => destruct c end;
    try apply ir_ret.
  - apply ir_bind; [|intros s; apply ir_ret].
    unfold uniswapv2.DecodeSwapLog.
    repeat match goal with |- ignoresReported (if ?c then _ else _) => destruct c end;
      try apply ir_fail.
    apply ir_bind; [apply ir_wrapErr, ir_v2_getPoolInfo|intros info; apply ir_ret].
  - apply ir_bind; [|intros s; apply ir_ret].
    unfold uniswapv3.DecodeSwapLog.
    repeat match goal with |- ignoresReported (if ?c then _ else _) => destruct c end;
      try apply ir_fail.
    apply ir_bind; [apply ir_wrapErr, ir_v3_getPoolInfo|intros info].
    destruct (0 <? _), (0 <? _); apply ir_ret.
Qed.

Lemma ir_decodeEach env logs swaps : ignoresReported (decoder.decodeEach env logs swaps).
Proof.
  revert swaps. induction logs as [|log rest IH]; intros swaps found st; [reflexivity|].
  cbn [decoder.decodeEach]. rewrite (ir_DecodeSwapLog env log found st).
  destruct (decoder.DecodeSwapLog env log st) as [[[swap|]|e| |] st1]; simpl;
    try apply IH; reflexivity.
Qed.

Lemma ir_DecodeSwapsForTransaction env logs :
  ignoresReported (decoder.DecodeSwapsForTransaction env logs).
Proof.
  unfold decoder.DecodeSwapsForTransaction.
  apply ir_bind; [apply ir_decodeEach|intros s; apply ir_ret].
Qed.

Lemma ir_withGas env txHash arb : ignoresReported (arbitrage.withGas env txHash arb).
Proof.
  intros found st. unfold arbitrage.withGas.
  unfold eth.TransactionReceipt at 1. rewrite ir_withRetry.
  fold (eth.TransactionReceipt env txHash).
  destruct (eth.TransactionReceipt env txHash st) as [[gasUsed|e| |] st1]; simpl;
    try reflexivity.
  unfold eth.GetTransaction at 1. rewrite ir_withRetry.
  fold (eth.GetTransaction env txHash).
  destruct (eth.GetTransaction env txHash st1) as [[gasPrice|e| |] st2]; reflexivity.
Qed.

Lemma ir_withGasEach env txHash arbs :
  ignoresReported (arbitrage.withGasEach env txHash arbs).
Proof.
  induction arbs as [|arb rest IH]; [apply ir_ret|].
  cbn [arbitrage.withGasEach]. apply ir_bind; [apply ir_withGas|intros priced].
  apply ir_bind; [exact IH|intros rest']. apply ir_ret.
Qed.

Lemma ir_DetectArbitrage env txHash swaps :
  ignoresReported (arbitrage.DetectArbitrage env txHash swaps).
Proof.
  unfold arbitrage.DetectArbitrage.
  destruct (length swaps <? 2)%nat; [apply ir_ret|].
  apply ir_bind.
  - destruct (arbitrage.detectCyclicArbitrage _); [|apply ir_ret].
    apply ir_bind; [apply ir_withGas|intros priced; apply ir_ret].
  - intros cyclic. apply ir_bind; [apply ir_withGasEach|intros c; apply ir_ret].
Qed.

Lemma reportEach_state arbs st :
  inspector.reportEach arbs st
  = (Ok tt, withReported (reverse arbs ++ reported st) st).
Proof.
  revert st. induction arbs as [|arb rest IH]; intros st.
  - simpl. destruct st; reflexivity.
  - cbn [inspector.reportEach]. rewrite IH. f_equal.
    rewrite reverse_cons, <- app_assoc. reflexivity.
Qed.

Lemma withReported_twice found found' st :
  withReported found (withReported found' st) = withReported found st.
Proof. reflexivity. Qed.

(** The reporting loop and the collecting loop run the same decoding and
    detection; one prepends each finding to the reported ones, the other
    appends it to its result. *)
Lemma process_collect env txLogs :
  forall totalSwaps totalArbitrages all found st,
  exists totals new st',
    inspector.collectTransactions env txLogs all st = (Ok (all ++ new), st')
    /\ inspector.processTransactions env txLogs totalSwaps totalArbitrages
         (withReported found st)
       = (Ok totals, withReported (reverse new ++ found) st')
    /\ totals.2 = totalArbitrages + Z.of_nat (length new).
Proof.
  induction txLogs as [|[txHash logs] rest IH]; intros a b all found st.
  - exists (a, b), [], st. rewrite app_nil_r. simpl. repeat split. lia.
  - cbn [inspector.collectTransactions inspector.processTransactions].
    rewrite (ir_DecodeSwapsForTransaction env logs found st).
    destruct (DecodeSwapsForTransaction_ok env logs st) as (swaps & st1 & Hd).
    rewrite Hd. cbn [fst snd].
    rewrite (ir_DetectArbitrage env txHash swaps found st1).
    destruct (DetectArbitrage_ok env txHash swaps st1) as (arbs & st2 & Ha).
    rewrite Ha. cbn [fst snd].
    rewrite reportEach_state. cbn [reported withReported].
    rewrite withReported_twice.
    destruct (IH (a + Z.of_nat (length swaps)) (b + Z.of_nat (length arbs))
                (all ++ arbs) (reverse arbs ++ found) st2)
      as (totals & new & st' & Hc & Hp & Ht).
    exists totals, (arbs ++ new), st'. split; [|split].
    + rewrite Hc, app_assoc. reflexivity.
    + rewrite Hp. rewrite reverse_app, <- app_assoc. reflexivity.
    + rewrite Ht, length_app. lia.
Qed.

Lemma ir_GetAllSwapLogs env fromBlock toBlock :
  ignoresReported (decoder.GetAllSwapLogs env fromBlock toBlock).
Proof.
  intros found st. unfold decoder.GetAllSwapLogs.
  assert (K2 : ignoresReported (uniswapv2.GetSwapLogs env fromBlock toBlock))
    by apply ir_withRetry.
  assert (K3 : ignoresReported (uniswapv3.GetSwapLogs env fromBlock toBlock))
    by apply ir_withRetry.
  destruct (EnableUniswapV2 (cfg env));
    [rewrite (K2 found st);
     destruct (uniswapv2.GetSwapLogs env fromBlock toBlock st) as [[l|e| |] s1]|];
    cbn [fst snd];
    (destruct (EnableUniswapV3 (cfg env));
     [match goal with
      | |- context [uniswapv3.GetSwapLogs env fromBlock toBlock (withReported found ?s)] =>
          rewrite (K3 found s);
          destruct (uniswapv3.GetSwapLogs env fromBlock toBlock s) as [[l'|e'| |] s2]
      end|]);
    reflexivity.
Qed.

Lemma ir_collectTransactions env txLogs all :
  ignoresReported (inspector.collectTransactions env txLogs all).
Proof.
  revert all. induction txLogs as [|[txHash logs] rest IH]; intros all found st;
    [reflexivity|].
  cbn [inspector.collectTransactions].
  rewrite (ir_DecodeSwapsForTransaction env logs found st).
  destruct (decoder.DecodeSwapsForTransaction env logs st) as [[swaps|e| |] st1];
    cbn [fst snd]; [|apply IH|reflexivity|reflexivity].
  rewrite (ir_DetectArbitrage env txHash swaps found st1).
  destruct (arbitrage.DetectArbitrage env txHash swaps st1) as [[arbs|e| |] st2];
    cbn [fst snd]; [apply IH|apply IH|reflexivity|reflexivity].
Qed.

Lemma withReported_same st : withReported (reported st) st = st.
Proof. destruct st; reflexivity. Qed.

(** A computation that ignores the reported findings leaves them as they
    were. *)
Lemma ignoresReported_keeps {A} (m : M A) st :
  ignoresReported m -> reported (m st).2 = reported st.
Proof.
  intros Hm. pose proof (Hm (reported st) st) as H.
  rewrite withReported_same in H.
  apply (f_equal snd) in H. cbn [snd] in H.
  change (m st).2 with (snd (m st)). rewrite H at 1. reflexivity.
Qed.

(** X24. [ProcessSingleBlock] and the processing of the one-block range
    [b, b] run the same decoding and detection when both visit the
    transactions of the block in the same order. The single-block entry
    point always returns a list of findings and no error, and reports
    nothing. The range processing of the same block from the same state
    ends in the same state of the request log, the pool caches and the
    watermark, with exactly the returned findings reported, in the same
    order (the reported list is kept newest first); it then returns without
    error, except at the largest uint64, where its completion loop never
    ends. The statistics of the logger, which only the range processing
    updates, are not part of this state. *)
Theorem ProcessSingleBlock_agrees env blockNumber st :
  exists found st',
    inspector.ProcessSingleBlock env blockNumber st = (Ok found, st')
    /\ reported st' = reported st
    /\ inspector.processBlockRange env blockNumber blockNumber st
       = (if blockNumber =? 2 ^ 64 - 1 then NeverReturns else Ok tt,
          withReported (reverse found ++ reported st) st').
Proof.
  unfold inspector.ProcessSingleBlock, inspector.processBlockRange.
  destruct (GetAllSwapLogs_ok env blockNumber blockNumber st) as (logs & st1 & Hl).
  assert (Hr1 : reported st1 = reported st).
  { pose proof (ignoresReported_keeps _ st
                  (ir_GetAllSwapLogs env blockNumber blockNumber)) as H.
    rewrite Hl in H. exact H. }
  rewrite !(bind_ok _ _ _ _ _ Hl).
  destruct (process_collect env (decoder.GroupSwapsByTransaction logs) 0 0 []
              (reported st) st1) as (totals & new & st' & Hc & Hp & _).
  rewrite <- Hr1, withReported_same in Hp. rewrite Hr1 in Hp.
  cbn [app] in Hc.
  assert (Hr : reported st' = reported st).
  { pose proof (ignoresReported_keeps _ st1
                  (ir_collectTransactions env (decoder.GroupSwapsByTransaction logs) []))
      as H.
    rewrite Hc in H. cbn [snd] in H. congruence. }
  assert (Hloop : forall s,
             inspector.completeEach blockNumber blockNumber s
             = (if blockNumber =? 2 ^ 64 - 1 then NeverReturns else Ok tt, s)).
  { intros s. unfold inspector.completeEach. rewrite Z.ltb_irrefl.
    destruct (blockNumber =? 2 ^ 64 - 1); reflexivity. }
  exists new, st'. split; [exact Hc|]. split; [exact Hr|].
  destruct logs as [|log logs'].
  - cbn in Hc. inversion Hc; subst. cbn [length Nat.eqb]. rewrite Hloop. f_equal.
    cbn [reverse app]. rewrite <- Hr1. symmetry. apply withReported_same.
  - cbn [length Nat.eqb].
    rewrite (bind_ok _ _ _ _ _ Hp).
    replace (blockNumber - blockNumber + 1) with 1 by lia.
    change (i64 (u64 1) =? 0) with false. cbv iota. apply Hloop.
Qed.

(** ** The profit totals of the logger *)

Lemma DetectArbitrage_priced env txHash swaps st arbs st' :
  arbitrage.DetectArbitrage env txHash swaps st = (Ok arbs, st') ->
  forall arb, arb ∈ arbs -> pricedFinding arb.
Proof.
  unfold arbitrage.DetectArbitrage.
  destruct (length swaps <? 2)%nat.
  { intros H'. inversion H'; subst. intros arb Hin. inversion Hin. }
  set (sorted := sortSlice decoder.swapLess swaps).
  unfold bind at 1.
  destruct (arbitrage.detectCyclicArbitrage sorted) as [cyc|] eqn:Ec.
  - unfold bind at 1.
    destruct (arbitrage.withGas env txHash cyc st) as [[cyc'|e| |] st1] eqn:Eg;
      try discriminate.
    unfold ret at 1. unfold bind.
    destruct (arbitrage.withGasEach env txHash _ st1) as [[cross|e| |] st2] eqn:Ex;
      try discriminate.
    intros H'. inversion H'; subst. intros arb Hin.
    apply elem_of_cons in Hin as [->|Hin].
    + eapply withGas_priced; [|exact Eg].
      eapply detectCyclic_fresh. exact Ec.
    + eapply withGasEach_priced; [|exact Ex|exact Hin].
      intros x Hx. eapply detectCross_fresh. exact Hx.
  - unfold ret at 1. unfold bind.
    destruct (arbitrage.withGasEach env txHash _ st) as [[cross|e| |] st2] eqn:Ex;
      try discriminate.
    intros H'. inversion H'; subst. intros arb Hin. simpl in Hin.
    eapply withGasEach_priced; [|exact Ex|exact Hin].
    intros x Hx. eapply detectCross_fresh. exact Hx.
Qed.

Lemma logEach_totals arbs stats :
  output.TotalProfitWei (output.logEach arbs stats)
  = output.TotalProfitWei stats + foldr Z.add 0 (Profit <$> arbs)
  /\ output.TotalNetProfit (output.logEach arbs stats)
     = output.TotalNetProfit stats
       + foldr Z.add 0 (default 0 <$> (NetProfitWei <$> arbs))
  /\ output.BlocksProcessed (output.logEach arbs stats) = output.BlocksProcessed stats
  /\ output.SwapsDetected (output.logEach arbs stats) = output.SwapsDetected stats
  /\ output.ArbitragesFound (output.logEach arbs stats) = output.ArbitragesFound stats.
Proof.
  revert stats. induction arbs as [|arb rest IH]; intros stats.
  - cbn. repeat split; lia.
  - unfold output.logEach. cbn [foldl]. fold (output.logEach rest (output.LogArbitrage arb stats)).
    destruct (IH (output.LogArbitrage arb stats)) as (H1 & H2 & H3 & H4 & H5).
    rewrite H1, H2, H3, H4, H5. rewrite !fmap_cons. cbn [foldr].
    cbn [output.LogArbitrage output.TotalProfitWei output.TotalNetProfit
         output.BlocksProcessed output.SwapsDetected output.ArbitragesFound].
    repeat split; try lia.
    destruct (NetProfitWei arb); simpl; lia.
Qed.

Lemma positive_sum (profits : list Z) :
  (forall p, p ∈ profits -> 0 < p) -> profits <> [] -> 0 < foldr Z.add 0 profits.
Proof.
  induction profits as [|p rest IH]; intros Hall Hne; [congruence|].
  cbn [foldr]. pose proof (Hall p ltac:(left)) as Hp.
  destruct rest as [|q rest'].
  - cbn. lia.
  - assert (0 < foldr Z.add 0 (q :: rest')).
    { apply IH; [|congruence]. intros x Hx. apply Hall. right. exact Hx. }
    lia.
Qed.

(** X25. Logging the findings of a transaction adds the gross profit of
    each to the running gross total, and the net profit of each finding
    that has one to the running net total; since every finding detection
    returns has a positive gross profit, the gross total strictly grows
    whenever detection found anything. The counters of blocks, swaps and
    findings are not touched here: the finding counter is fed only by the
    per-block averages of the completion records. *)
Theorem logged_findings_totals env txHash swaps st arbs st' stats :
  arbitrage.DetectArbitrage env txHash swaps st = (Ok arbs, st') ->
  let stats' := output.logEach arbs stats in
  output.TotalProfitWei stats'
  = output.TotalProfitWei stats + foldr Z.add 0 (Profit <$> arbs)
  /\ (arbs <> [] -> output.TotalProfitWei stats < output.TotalProfitWei stats')
  /\ output.TotalNetProfit stats'
     = output.TotalNetProfit stats
       + foldr Z.add 0 (default 0 <$> (NetProfitWei <$> arbs))
  /\ output.ArbitragesFound stats' = output.ArbitragesFound stats
  /\ output.SwapsDetected stats' = output.SwapsDetected stats
  /\ output.BlocksProcessed stats' = output.BlocksProcessed stats.
Proof.
  intros Hrun stats'. subst stats'.
  destruct (logEach_totals arbs stats) as (H1 & H2 & H3 & H4 & H5).
  split; [exact H1|]. split; [|auto].
  intros Hne. rewrite H1.
  assert (0 < foldr Z.add 0 (Profit <$> arbs)); [|lia].
  apply positive_sum.
  - intros p Hp. apply list_elem_of_fmap in Hp as (arb & -> & Hin).
    destruct (DetectArbitrage_priced _ _ _ _ _ _ Hrun arb Hin) as (Hpos & _).
    exact Hpos.
  - destruct arbs; [congruence|discriminate].
Qed.

Lemma logged_findings_totals_witness :
  exists arbs st',
    arbitrage.DetectArbitrage (sample.envOf (sample.gasNode 21000 2) 10) [x01]
      sample.cycle (sample.initial 0) = (Ok arbs, st')
    /\ arbs <> []
    /\ 0 < output.TotalProfitWei (output.logEach arbs sample.freshStats).
Proof.
  assert (Hrun : exists arbs st',
             arbitrage.DetectArbitrage (sample.envOf (sample.gasNode 21000 2) 10) [x01]
               sample.cycle (sample.initial 0) = (Ok arbs, st')
             /\ arbs <> [])
    by (eexists; eexists; vm_compute; split; [reflexivity|discriminate]).
  destruct Hrun as (arbs & st' & Hrun & Hne).
  exists arbs, st'. split; [exact Hrun|]. split; [exact Hne|].
  destruct (logged_findings_totals _ _ _ _ _ _ sample.freshStats Hrun)
    as (_ & Hgrow & _).
  exact (Hgrow Hne).
Defined.
